(** * ArduRoller: the balance controller's tick handler (src/main.cpp)

    A shallow embedding of [ISR(TIMER1_OVF_vect)], of [filterx], of [setup]
    and of the macros they use, followed by the properties of the
    controller.

    Numbers.  On the AVR both [float] and [double] are IEEE-754 binary32, so
    every floating-point literal and operation of the source is modelled in
    binary32 with round-to-nearest-even, through the executable operations of
    [SpecFloat] at precision 24 and maximal exponent 128.  [int] is 16 bits
    and [long int] is 32 bits; their wrap-around is written out.

    Proofs about magnitudes read a finite binary32 value as the real number
    it denotes ([B2R]) and bound the error of each rounding. *)

From Stdlib Require Import String.
From Stdlib Require Import ZArith List Bool Lia Reals Lra.
From Stdlib Require Import Floats.SpecFloat.
Import ListNotations.
Local Open Scope Z_scope.

(** ** Binary32 arithmetic *)

Module F32.

Definition prec : Z := 24.
Definition emax : Z := 128.

Definition float : Type := spec_float.

Definition add : float -> float -> float := SFadd prec emax.
Definition mul : float -> float -> float := SFmul prec emax.
Definition div : float -> float -> float := SFdiv prec emax.
Definition sqrt : float -> float := SFsqrt prec emax.
Definition opp : float -> float := SFopp.
Definition ltb : float -> float -> bool := SFltb.
Definition leb : float -> float -> bool := SFleb.

(** [x > y] of the source is [y < x]. *)
Definition gtb (x y : float) : bool := ltb y x.

Definition is_nan (x : float) : bool :=
  match x with S754_nan => true | _ => false end.

(** Conversion of an integer value to floating point. *)
Definition of_int (z : Z) : float := binary_normalize prec emax z 0 false.

(** The decimal literal [m / 10^k], correctly rounded. *)
Definition lit (m k : positive) : float :=
  div (S754_finite false m 0) (S754_finite false (Pos.pow 10 k) 0).

(** Integer part of a finite value, rounding toward zero. *)
Definition trunc (x : float) : option Z :=
  match x with
  | S754_zero _ => Some 0
  | S754_finite s m e =>
      let a := match e with
               | Zneg p => Z.pos m / Z.pow 2 (Z.pos p)
               | _ => Z.pos m * Z.pow 2 e
               end in
      Some (if s then - a else a)
  | _ => None
  end.

End F32.

Import F32.

Declare Scope f32_scope.
Delimit Scope f32_scope with f32.
Infix "+" := F32.add : f32_scope.
Infix "*" := F32.mul : f32_scope.
Infix "/" := F32.div : f32_scope.
Infix "<?" := F32.ltb : f32_scope.
Infix ">?" := F32.gtb : f32_scope.
Notation "- x" := (F32.opp x) : f32_scope.

(** ** Integer types of the target *)

(** A value stored in an [int] (16 bits, two's complement). *)
Definition int16 (z : Z) : Z := (z + 32768) mod 65536 - 32768.

(** A value stored in a [long int] (32 bits, two's complement). *)
Definition int32 (z : Z) : Z := (z + 2147483648) mod 4294967296 - 2147483648.

(** The cast [(long int) x].  C defines it only when the integer part of [x]
    fits a [long int]; [None] stands for the undefined cases (NaN, an
    infinity, a value out of range). *)
Definition long_of_float (x : float) : option Z :=
  match trunc x with
  | Some z => if (-2147483648 <=? z) && (z <=? 2147483647) then Some z else None
  | None => None
  end.

(** Modelled from the spec: the [abs] macro comes from WProgram.h, which is
    not under src/; the spec writes it as the absolute value [|x|].  The
    Arduino core defines it as [((x)>0?(x):-(x))]. *)
Definition abs (x : float) : float :=
  if (x >? S754_zero false)%f32 then x else (- x)%f32.

(** ** Constants and macros *)

Definition ADC_RANGE : Z := 1024.

Definition GYRO_MAX_DEG_PER_SEC : float := Eval vm_compute in of_int 150.
Definition GYRO_DEG_PER_ADC_UNIT : float :=
  Eval vm_compute in (GYRO_MAX_DEG_PER_SEC * of_int 2 / of_int ADC_RANGE)%f32.
Definition GYRO_RAD_PER_ADC_UNIT : float :=
  Eval vm_compute in (GYRO_DEG_PER_ADC_UNIT * lit 174532925 10)%f32.

Definition ACCEL_MAX_G : float := Eval vm_compute in lit 17 1.
Definition ACCEL_G_PER_ADC_UNIT : float :=
  Eval vm_compute in (ACCEL_MAX_G * of_int 2 / of_int ADC_RANGE)%f32.

Definition GYRO_OFFSET : float := Eval vm_compute in lit 479 2.
Definition X_OFFSET : float := Eval vm_compute in of_int 8.

Definition GAIN : float := Eval vm_compute in lit 1013464636 6.

Definition MOTOR_A_FACTOR : Z := 1.
Definition MOTOR_B_FACTOR : Z := 1.

(** The trim-pot macros read the globals [d_tilt_pot] and [tilt_pot]; they
    take them as arguments here.  [TILT_INT_FACT] reads no global. *)
Definition D_TILT_FACT (d_tilt_pot : Z) : float :=
  ((lit 35 1 / of_int 512) * of_int d_tilt_pot / GYRO_RAD_PER_ADC_UNIT)%f32.
Definition TILT_FACT (tilt_pot : Z) : float :=
  ((lit 25 3 / of_int 512) * of_int tilt_pot / GYRO_RAD_PER_ADC_UNIT)%f32.
Definition TILT_INT_FACT : float :=
  Eval vm_compute in
  ((lit 2 3 / of_int 512) * of_int 512 / GYRO_RAD_PER_ADC_UNIT)%f32.

Definition MAX_TILT_INT : float :=
  Eval vm_compute in
  (of_int 300 * GYRO_RAD_PER_ADC_UNIT / TILT_INT_FACT)%f32.

(** Literals of the handler and of the filters. *)
Definition f_0 : float := Eval vm_compute in of_int 0.
Definition f_0_1 : float := Eval vm_compute in lit 1 1.
Definition f_0_6 : float := Eval vm_compute in lit 6 1.
Definition f_0_02 : float := Eval vm_compute in lit 2 2.
Definition f_0xff : float := Eval vm_compute in of_int 255.

(** ** The x-axis filter *)

(** The delay lines [xv] and [yv], static in [filterx]. *)
Record FilterState : Type := mkFilter {
  xv0 : float; xv1 : float; xv2 : float;
  yv0 : float; yv1 : float; yv2 : float
}.

Definition filter_zero : FilterState := mkFilter f_0 f_0 f_0 f_0 f_0 f_0.

Definition filterx (fs : FilterState) (inp : float) : FilterState * float :=
  let x0 := xv1 fs in
  let x1 := xv2 fs in
  let x2 := (inp / GAIN)%f32 in
  let y0 := yv1 fs in
  let y1 := yv2 fs in
  let y2 := ((x0 + x2) + of_int 2 * x1
             + (- lit 9131487721 10) * y0
             + lit 19092019151 10 * y1)%f32 in
  (mkFilter x0 x1 x2 y0 y1 y2, y2).

(** The gyro filter; the handler never calls it. *)
Definition filtergyro (fs : FilterState) (inp : float) : FilterState * float :=
  let x0 := xv1 fs in
  let x1 := xv2 fs in
  let x2 := (inp / lit 1565078650 9)%f32 in
  let y0 := yv1 fs in
  let y1 := yv2 fs in
  let y2 := ((x0 + x2) + of_int 2 * x1
             + (- lit 4128015981 10) * y0
             + (- lit 11429805025 10) * y1)%f32 in
  (mkFilter x0 x1 x2 y0 y1 y2, y2).

(** ** State, inputs and outputs of the handler *)

(** The globals and the statics of the handler. *)
Record State : Type := mkState {
  filt : FilterState;
  d_tilt_pot : Z;
  tilt_pot : Z;
  gyro_offset_pot : Z;
  gyro_reading : Z;
  x_reading : Z;
  y_reading : Z;
  last_speed : float;
  tilt_rads : float;
  x_filt_gs : float;
  tilt_int_rads : float;
  reset_complete : bool;
  loop_count : Z
}.

Definition init : State :=
  mkState filter_zero 512 512 512 0 0 0 f_0 f_0 f_0 f_0 false 0.

(** What [analogRead] returns on each pin during one tick. *)
Record Inputs : Type := mkInputs {
  in_gyro : Z;
  in_x : Z;
  in_y : Z;
  in_A3 : Z;
  in_A4 : Z;
  in_A5 : Z
}.

Inductive Level : Type := LOW | HIGH.

Inductive TrimPin : Type := A3 | A4 | A5.

(** What one tick writes: the two direction pins, the two duty cycles, and
    the trim pin it sampled, if any. *)
Record Outputs : Type := mkOutputs {
  dir_a : Level;
  dir_b : Level;
  motor_a_speed : option Z;
  motor_b_speed : option Z;
  trim_read : option TrimPin
}.

(** ** The handler, phase by phase *)

Definition gyro_offset_of (gyro_offset_pot : Z) : float :=
  (of_int (int16 (gyro_offset_pot - 512)) * f_0_1)%f32.

Definition d_tilt_rads_of (gyro_offset_pot gyro_reading : Z) : float :=
  (GYRO_RAD_PER_ADC_UNIT *
   (of_int (int16 (512 - gyro_reading)) + gyro_offset_of gyro_offset_pot))%f32.

Definition x_gs_of (x_reading : Z) : float :=
  (ACCEL_G_PER_ADC_UNIT * (of_int (int16 (x_reading - 512)) + X_OFFSET))%f32.

Definition y_gs_of (y_reading : Z) : float :=
  (ACCEL_G_PER_ADC_UNIT * of_int (int16 (y_reading - 512)))%f32.

(** [y_gs < 0.1 && abs(x_filt_gs) > 0.6] *)
Definition fallen_condition (y_gs x_filt : float) : bool :=
  (y_gs <? f_0_1)%f32 && (abs x_filt >? f_0_6)%f32.

(** [-0.02 < x_gs && x_gs < 0.02] *)
Definition deadband (x_gs : float) : bool :=
  ((- f_0_02) <? x_gs)%f32 && (x_gs <? f_0_02)%f32.

(** The clamp of the integral to [+-MAX_TILT_INT]. *)
Definition clamp_tilt_int (t : float) : float :=
  let t1 := if (t >? MAX_TILT_INT)%f32 then MAX_TILT_INT else t in
  if (t1 <? (- MAX_TILT_INT))%f32 then (- MAX_TILT_INT)%f32 else t1.

Definition speed_law (s : State) (tilt tilt_int d_tilt : float) : float :=
  (tilt * TILT_FACT (tilt_pot s)
   + tilt_int * TILT_INT_FACT
   + d_tilt * D_TILT_FACT (d_tilt_pot s))%f32.

(** The branch the handler takes on a tick. *)
Inductive SystemState : Type := Fallen | AwaitingUpright | Balancing.

(** Sensor acquisition, conversion and filtering: the values the state
    machine sees on this tick. *)
Record Sample : Type := mkSample {
  d_tilt_rads : float;
  x_gs : float;
  y_gs : float;
  filt' : FilterState;
  x_filt : float
}.

Definition acquire (s : State) (inp : Inputs) : Sample :=
  let d := d_tilt_rads_of (gyro_offset_pot s) (in_gyro inp) in
  let x := x_gs_of (in_x inp) in
  let y := y_gs_of (in_y inp) in
  let r := filterx (filt s) x in
  mkSample d x y (fst r) (snd r).

Definition branch (s : State) (inp : Inputs) : SystemState :=
  let m := acquire s inp in
  if fallen_condition (y_gs m) (x_filt m) then Fallen
  else if negb (reset_complete s) then AwaitingUpright
  else Balancing.

(** Lines 126-180: the new state (the trim pots and the counter are still
    untouched) and the speed command. *)
Definition control (s : State) (inp : Inputs) : State * float :=
  let m := acquire s inp in
  let upd tilt tilt_int rc last :=
    mkState (filt' m) (d_tilt_pot s) (tilt_pot s) (gyro_offset_pot s)
            (in_gyro inp) (in_x inp) (in_y inp)
            last tilt (x_filt m) tilt_int rc (loop_count s) in
  if fallen_condition (y_gs m) (x_filt m) then
    (upd (tilt_rads s) (tilt_int_rads s) false (last_speed s), f_0)
  else if negb (reset_complete s) then
    if deadband (x_gs m) then
      (upd (x_gs m) f_0 true (last_speed s), f_0)
    else
      (upd (tilt_rads s) (tilt_int_rads s) false (last_speed s), f_0)
  else
    let tilt := (tilt_rads s + (d_tilt_rads m + x_filt m))%f32 in
    let tilt_int := clamp_tilt_int (tilt_int_rads s + tilt)%f32 in
    let speed := speed_law s tilt tilt_int (d_tilt_rads m) in
    (upd tilt tilt_int true speed, speed).

Definition direction (speed : float) : Level :=
  if (speed <? f_0)%f32 then LOW else HIGH.

(** [7 * sqrt(abs(speed))], capped at [0xff]. *)
Definition shape (speed : float) : float :=
  let v := (of_int 7 * sqrt (abs speed))%f32 in
  if (v >? f_0xff)%f32 then f_0xff else v.

(** [(long int)(speed * FACTOR)], capped at [0xff]. *)
Definition duty (shaped : float) (factor : Z) : option Z :=
  match long_of_float (shaped * of_int factor)%f32 with
  | Some m => Some (if m >? 255 then 255 else m)
  | None => None
  end.

(** Lines 207-220: the calibration sampler. *)
Definition calibration_sampler (s : State) (inp : Inputs)
  : State * option TrimPin :=
  let upd d t g lc :=
    mkState (filt s) d t g (gyro_reading s) (x_reading s) (y_reading s)
            (last_speed s) (tilt_rads s) (x_filt_gs s) (tilt_int_rads s)
            (reset_complete s) (int32 (lc + 1)) in
  if loop_count s =? 500 then
    (upd (in_A3 inp) (tilt_pot s) (gyro_offset_pot s) (loop_count s), Some A3)
  else if loop_count s =? 1000 then
    (upd (d_tilt_pot s) (in_A5 inp) (gyro_offset_pot s) (loop_count s), Some A5)
  else if loop_count s =? 1500 then
    (upd (d_tilt_pot s) (tilt_pot s) (in_A4 inp) 0, Some A4)
  else
    (upd (d_tilt_pot s) (tilt_pot s) (gyro_offset_pot s) (loop_count s), None).

(** One tick of [ISR(TIMER1_OVF_vect)]. *)
Definition ISR (s : State) (inp : Inputs) : State * Outputs :=
  let c := control s inp in
  let speed := snd c in
  let v := shape speed in
  let cs := calibration_sampler (fst c) inp in
  (fst cs,
   mkOutputs (direction speed) (direction speed)
             (duty v MOTOR_A_FACTOR) (duty v MOTOR_B_FACTOR) (snd cs)).

(** The speed command of a tick, before the output mapper reshapes it. *)
Definition speed_command (s : State) (inp : Inputs) : float :=
  snd (control s inp).

(** ** Runs *)

(** The state after a sequence of ticks. *)
Fixpoint exec (s : State) (ins : list Inputs) : State :=
  match ins with
  | [] => s
  | i :: rest => exec (fst (ISR s i)) rest
  end.

(** What each tick of a run writes. *)
Fixpoint outputs (s : State) (ins : list Inputs) : list Outputs :=
  match ins with
  | [] => []
  | i :: rest => snd (ISR s i) :: outputs (fst (ISR s i)) rest
  end.

(** The outputs of [filterx] called on a sequence of samples. *)
Fixpoint filter_run (fs : FilterState) (xs : list float) : list float :=
  match xs with
  | [] => []
  | x :: rest => snd (filterx fs x) :: filter_run (fst (filterx fs x)) rest
  end.

(** The observations the claims speak of. *)

(** The Fallen condition as the handler evaluates it on a tick. *)
Definition fallen_on (s : State) (inp : Inputs) : bool :=
  fallen_condition (y_gs (acquire s inp)) (x_filt (acquire s inp)).

(** The re-level deadband as the handler evaluates it on a tick. *)
Definition relevel_on (inp : Inputs) : bool :=
  deadband (x_gs_of (in_x inp)).

Definition zero_duty (o : Outputs) : Prop :=
  motor_a_speed o = Some 0 /\ motor_b_speed o = Some 0.

(** The three gains in force in a state. *)
Definition K_p (s : State) : float := TILT_FACT (tilt_pot s).
Definition K_i (s : State) : float := TILT_INT_FACT.
Definition K_d (s : State) : float := D_TILT_FACT (d_tilt_pot s).

(** The filtered x-axis signal after each tick of a run. *)
Fixpoint x_filt_trace (s : State) (ins : list Inputs) : list float :=
  match ins with
  | [] => []
  | i :: rest =>
      x_filt_gs (fst (ISR s i)) :: x_filt_trace (fst (ISR s i)) rest
  end.

(** The value of [loop_count] that the [n]-th tick after power-on sees. *)
Definition count_at (n : nat) : Z :=
  match n with
  | O => 0
  | S k => Z.of_nat k mod 1500 + 1
  end.

(** The pin a tick samples, by the counter value it sees. *)
Definition scheduled (lc : Z) : option TrimPin :=
  if lc =? 500 then Some A3
  else if lc =? 1000 then Some A5
  else if lc =? 1500 then Some A4
  else None.

(** Where the integral may lie: it exceeds neither bound. *)
Definition within_max (t : float) : Prop :=
  (t >? MAX_TILT_INT)%f32 = false /\ (t <? (- MAX_TILT_INT))%f32 = false.

(** A zero, a positive finite value or the positive infinity. *)
Definition nonneg (x : float) : Prop :=
  match x with
  | S754_zero _ => True
  | S754_infinity s => s = false
  | S754_finite s _ _ => s = false
  | S754_nan => False
  end.

(** A zero, or a positive finite value whose mantissa fits 24 bits and whose
    exponent is at most [k]. *)
Definition small (k : Z) (x : float) : Prop :=
  match x with
  | S754_zero _ => True
  | S754_finite s m e => s = false /\ Z.pos m < 2 ^ 24 /\ e <= k
  | _ => False
  end.

(** A zero, a positive finite value whose mantissa fits 24 bits, or the
    positive infinity. *)
Definition rounded (x : float) : Prop :=
  match x with
  | S754_zero _ => True
  | S754_infinity s => s = false
  | S754_finite s m _ => s = false /\ Z.pos m < 2 ^ 24
  | S754_nan => False
  end.

(** ** Readings and values the analysis speaks of *)

(** A reading of the 10-bit ADC. *)
Definition adc (z : Z) : Prop := 0 <= z < ADC_RANGE.

(** A tick all of whose readings come from the ADC. *)
Definition adc_inputs (inp : Inputs) : Prop :=
  adc (in_gyro inp) /\ adc (in_x inp) /\ adc (in_y inp) /\
  adc (in_A3 inp) /\ adc (in_A4 inp) /\ adc (in_A5 inp).

(** The ADC readings, listed. *)
Definition adc_values : list Z := map Z.of_nat (seq 0 1024).

(** [2^e] as a real number. *)
Definition bpow (e : Z) : R := powerRZ 2 e.

(** The real number a finite binary32 value denotes. *)
Definition B2R (x : float) : R :=
  match x with
  | S754_finite s m e => (IZR (cond_Zopp s (Z.pos m)) * bpow e)%R
  | _ => 0%R
  end.

(** Finite values with a 24-bit mantissa and an exponent between the least
    one and [k]; their magnitude is below [2^(24+k)]. *)
Definition fin (k : Z) (x : float) : Prop :=
  match x with
  | S754_zero _ => True
  | S754_finite _ m e => Z.pos m < 2 ^ 24 /\ -149 <= e <= k
  | _ => False
  end.

(** [fin], decided. *)
Definition finb (k : Z) (x : float) : bool :=
  match x with
  | S754_zero _ => true
  | S754_finite _ m e => (Z.pos m <? 2 ^ 24) && (-149 <=? e) && (e <=? k)
  | _ => false
  end.

(** The pole polynomial of [filterx], with its binary32 coefficients, and the
    quadratic form it contracts. *)
Definition ca : R := (15320094 / 16777216)%R.
Definition cb : R := (16015546 / 8388608)%R.

Definition V (p q : R) : R := (ca * p * p - cb * p * q + q * q)%R.

(** The delay line between two ticks: the inputs are small, the outputs are
    finite and inside the invariant ellipse. *)
Definition filt_ok (fs : FilterState) : Prop :=
  fin (-33) (xv1 fs) /\ fin (-33) (xv2 fs) /\
  fin (-19) (yv1 fs) /\ fin (-19) (yv2 fs) /\
  (V (B2R (yv1 fs)) (B2R (yv2 fs)) <= 1 / 16)%R.

(** The tilt estimate is finite and at most [2^34] in magnitude. *)
Definition tilt_ok (t : float) : Prop :=
  fin 11 t /\ (Rabs (B2R t) <= bpow 34)%R.

(** What holds of the state between two ticks when every reading so far came
    from the ADC. *)
Definition Inv (s : State) : Prop :=
  filt_ok (filt s) /\
  adc (gyro_offset_pot s) /\ adc (tilt_pot s) /\ adc (d_tilt_pot s) /\
  tilt_ok (tilt_rads s) /\
  fin (-22) (tilt_int_rads s) /\ within_max (tilt_int_rads s).

(** Both duty cycles are written and lie in [0, 255]. *)
Definition duty_ok (o : Outputs) : Prop :=
  exists a b : Z,
    motor_a_speed o = Some a /\ motor_b_speed o = Some b /\
    0 <= a <= 255 /\ 0 <= b <= 255.

(** Sample inputs: a level, quiet vehicle and a vehicle lying on its side
    while it rotates. *)
Definition level_in : Inputs := mkInputs 512 504 1023 512 512 512.
Definition tipped_in : Inputs := mkInputs 300 1023 512 512 512 512.

(** The state the machine rests in between two ticks: Fallen is left for
    AwaitingUpright within the tick that detects it. *)
Definition mode (s : State) : SystemState :=
  if reset_complete s then Balancing else AwaitingUpright.

(** Power-on, one level tick, then [n] ticks lying on the side. *)
Definition tipped_after (n : nat) : State :=
  exec init (level_in :: repeat tipped_in n).

(** ** More observations *)

(** A value the float cap has let through: a zero, or a positive value with
    a 24-bit mantissa that is at most 255. *)
Definition capped (v : float) : Prop :=
  match v with
  | S754_zero _ => True
  | S754_finite s m e =>
      s = false /\ Z.pos m < 2 ^ 24 /\ -149 <= e /\
      (e < -16 \/ (e = -16 /\ Z.pos m <= 16711680))
  | _ => False
  end.

(** A positive value whose mantissa has exactly 24 bits. *)
Definition normal (x : float) : Prop :=
  match x with
  | S754_finite s m e => s = false /\ 2 ^ 23 <= Z.pos m < 2 ^ 24
  | _ => False
  end.

(** What the output mapper writes for the speed command [v]: on both motors
    the integer part of [7 * sqrt |v|], up to a relative error of [2^-21]
    in the root, capped at 255. *)
Definition seven_root (v : float) (o : Outputs) : Prop :=
  exists d : Z,
    motor_a_speed o = Some d /\ motor_b_speed o = Some d /\ 0 <= d <= 255 /\
    let y := (7 * R_sqrt.sqrt (Rabs (B2R v)))%R in
    (IZR d <= y * (1 + bpow (-21)))%R /\
    (d = 255 \/ (y * (1 - bpow (-21)) < IZR d + 1)%R).

(** Two states agree on the variables a tick reads before it overwrites
    them: the delay line (but for its oldest slots, which [filterx]
    overwrites first), the trim pots, the two estimates, the flag and the
    counter.  The other statics ([last_speed], the stored raw readings,
    [x_filt_gs]) are written and never read back. *)
Definition live_eq (s s' : State) : Prop :=
  xv1 (filt s) = xv1 (filt s') /\ xv2 (filt s) = xv2 (filt s') /\
  yv1 (filt s) = yv1 (filt s') /\ yv2 (filt s) = yv2 (filt s') /\
  d_tilt_pot s = d_tilt_pot s' /\ tilt_pot s = tilt_pot s' /\
  gyro_offset_pot s = gyro_offset_pot s' /\
  tilt_rads s = tilt_rads s' /\ tilt_int_rads s = tilt_int_rads s' /\
  reset_complete s = reset_complete s' /\ loop_count s = loop_count s'.

(** Two ticks read the same values on the three sensor pins. *)
Definition sensors_eq (i i' : Inputs) : Prop :=
  in_gyro i = in_gyro i' /\ in_x i = in_x i' /\ in_y i = in_y i'.

(** What [analogRead] returns on a trim pin during a tick. *)
Definition trim_value (p : TrimPin) (i : Inputs) : Z :=
  match p with A3 => in_A3 i | A4 => in_A4 i | A5 => in_A5 i end.

(** Two ticks that start with the counter at [lc] read the same value on the
    trim pin that is sampled then, if any. *)
Definition trims_eq (lc : Z) (i i' : Inputs) : Prop :=
  forall p : TrimPin, scheduled lc = Some p -> trim_value p i = trim_value p i'.

(** [init] with other values in the variables the handler only writes and
    in the oldest slots of the delay line. *)
Definition init_scribbled : State :=
  mkState (mkFilter f_0_6 f_0 f_0 f_0_1 f_0 f_0)
          512 512 512 7 8 9 f_0xff f_0 f_0_6 f_0 false 0.

(** Among the first [n] ticks after power-on, the latest one that sees the
    counter at [first] (500, 1000 or 1500), if any; ticks are numbered from
    0. *)
Definition last_sample (first n : nat) : option nat :=
  if (n <=? first)%nat then None
  else Some (first + 1500 * ((n - first - 1) / 1500))%nat.

(** The value a trim-pot variable holds after a run: the reading [rd] of the
    latest tick that sampled it, or the initial 512. *)
Definition pot_after (first : nat) (rd : Inputs -> Z) (ins : list Inputs) : Z :=
  match last_sample first (length ins) with
  | Some k => match nth_error ins k with Some i => rd i | None => 512 end
  | None => 512
  end.

(** A finite value counted in units of [2^-149], the least positive binary32
    value. *)
Definition key (x : float) : Z :=
  match x with
  | S754_finite s m e => cond_Zopp s (Z.pos m) * 2 ^ (e + 149)
  | _ => 0
  end.

(** A conversion that preserves the order of the ADC readings, and one that
    reverses it. *)
Definition increasing (f : Z -> float) : Prop :=
  forall p q : Z, adc p -> adc q -> p < q -> (B2R (f p) < B2R (f q))%R.

Definition decreasing (f : Z -> float) : Prop :=
  forall p q : Z, adc p -> adc q -> p < q -> (B2R (f q) < B2R (f p))%R.

(** Each reading below the last one maps to a finite value below that of
    the next reading: [increasing], decided. *)
Definition steps_up (f : Z -> float) : bool :=
  forallb (fun z => finb 104 (f z) &&
                    ((z =? ADC_RANGE - 1) || (key (f z) <? key (f (z + 1)))))
          adc_values.

(** ** setup: the pins and the timers *)

(** The pin numbers of the source.  There [dir_a] and [dir_b] name pins; in
    [Outputs] they name the levels written to these pins. *)
Definition pwm_a : Z := 3.
Definition pwm_b : Z := 11.
Definition pin_dir_a : Z := 12.
Definition pin_dir_b : Z := 13.

Inductive PinMode : Type := INPUT | OUTPUT.

(** What [setup] touches: the pin modes, the duty cycles written with
    [analogWrite], the serial port with the lines printed on it, the timer
    registers as the program reads and writes them, and the global interrupt
    flag. *)
Record Board : Type := mkBoard {
  pin_mode : Z -> PinMode;
  pwm_duty : Z -> option Z;
  serial_baud : option Z;
  serial_out : list string;
  TCCR0B : Z;
  TCCR1B : Z;
  TCCR2B : Z;
  TCNT1 : Z;
  TIMSK1 : Z;
  interrupts : bool
}.

(** An 8-bit and a 16-bit register keep the low bits of what is stored. *)
Definition reg8 (v : Z) : Z := Z.land v 255.
Definition reg16 (v : Z) : Z := Z.land v 65535.

(** [_BV(bit)] is [1 << bit]. *)
Definition _BV (bit : Z) : Z := Z.shiftl 1 bit.

(** Assignments to the registers. *)
Definition set_TCCR0B (v : Z) (b : Board) : Board :=
  mkBoard (pin_mode b) (pwm_duty b) (serial_baud b) (serial_out b)
          (reg8 v) (TCCR1B b) (TCCR2B b) (TCNT1 b) (TIMSK1 b) (interrupts b).

Definition set_TCCR1B (v : Z) (b : Board) : Board :=
  mkBoard (pin_mode b) (pwm_duty b) (serial_baud b) (serial_out b)
          (TCCR0B b) (reg8 v) (TCCR2B b) (TCNT1 b) (TIMSK1 b) (interrupts b).

Definition set_TCCR2B (v : Z) (b : Board) : Board :=
  mkBoard (pin_mode b) (pwm_duty b) (serial_baud b) (serial_out b)
          (TCCR0B b) (TCCR1B b) (reg8 v) (TCNT1 b) (TIMSK1 b) (interrupts b).

Definition set_TCNT1 (v : Z) (b : Board) : Board :=
  mkBoard (pin_mode b) (pwm_duty b) (serial_baud b) (serial_out b)
          (TCCR0B b) (TCCR1B b) (TCCR2B b) (reg16 v) (TIMSK1 b) (interrupts b).

Definition set_TIMSK1 (v : Z) (b : Board) : Board :=
  mkBoard (pin_mode b) (pwm_duty b) (serial_baud b) (serial_out b)
          (TCCR0B b) (TCCR1B b) (TCCR2B b) (TCNT1 b) (reg8 v) (interrupts b).

(** [sei()] sets the global interrupt flag. *)
Definition sei (b : Board) : Board :=
  mkBoard (pin_mode b) (pwm_duty b) (serial_baud b) (serial_out b)
          (TCCR0B b) (TCCR1B b) (TCCR2B b) (TCNT1 b) (TIMSK1 b) true.

(** [RESET_TIMER1()] is [TCNT1 = 0xC000]. *)
Definition RESET_TIMER1 (b : Board) : Board := set_TCNT1 49152 b.

Definition pinMode (pin : Z) (m : PinMode) (b : Board) : Board :=
  mkBoard (fun p => if p =? pin then m else pin_mode b p)
          (pwm_duty b) (serial_baud b) (serial_out b)
          (TCCR0B b) (TCCR1B b) (TCCR2B b) (TCNT1 b) (TIMSK1 b)
          (interrupts b).

Definition analogWrite (pin v : Z) (b : Board) : Board :=
  mkBoard (pin_mode b)
          (fun p => if p =? pin then Some v else pwm_duty b p)
          (serial_baud b) (serial_out b)
          (TCCR0B b) (TCCR1B b) (TCCR2B b) (TCNT1 b) (TIMSK1 b)
          (interrupts b).

Definition Serial_begin (baud : Z) (b : Board) : Board :=
  mkBoard (pin_mode b) (pwm_duty b) (Some baud) (serial_out b)
          (TCCR0B b) (TCCR1B b) (TCCR2B b) (TCNT1 b) (TIMSK1 b)
          (interrupts b).

Definition Serial_println (line : string) (b : Board) : Board :=
  mkBoard (pin_mode b) (pwm_duty b) (serial_baud b) (serial_out b ++ [line])
          (TCCR0B b) (TCCR1B b) (TCCR2B b) (TCNT1 b) (TIMSK1 b)
          (interrupts b).

Section Setup.

(** The bit numbers [CS02], [CS10] and [TOIE1] come from the device header,
    which is not part of the sources; they are left open. *)
Variables CS02 CS10 TOIE1 : Z.

Definition setup (b : Board) : Board :=
  let b := pinMode pwm_a OUTPUT b in
  let b := pinMode pwm_b OUTPUT b in
  let b := pinMode pin_dir_a OUTPUT b in
  let b := pinMode pin_dir_b OUTPUT b in
  let b := analogWrite pwm_a 0 b in
  let b := analogWrite pwm_b 0 b in
  let b := Serial_begin 9600 b in
  let b := Serial_println "Starting up"%string b in
  let b := set_TCCR0B (Z.lor (Z.land (TCCR0B b) 248) (_BV CS02)) b in
  let b := set_TCCR2B (Z.lor (Z.land (TCCR0B b) 248) (_BV CS02)) b in
  let b := set_TCCR1B (_BV CS10) b in
  let b := RESET_TIMER1 b in
  let b := set_TIMSK1 (_BV TOIE1) b in
  sei b.

End Setup.

(** A board whose two prescaler registers differ before [setup]. *)
Definition board0 : Board :=
  mkBoard (fun _ => INPUT) (fun _ => None) None [] 3 0 200 0 0 false.

(** ** Canonical values *)

(** A binary32 value in canonical form: a finite one has a mantissa of at
    most 24 bits at an exponent within the format, and either all 24 bits
    or the least exponent. *)
Definition canonical (x : float) : Prop :=
  match x with
  | S754_finite _ m e =>
      Z.pos m < 2 ^ 24 /\ -149 <= e <= 104 /\ (2 ^ 23 <= Z.pos m \/ e = -149)
  | _ => True
  end.

(** [canonical], decided. *)
Definition canonicalb (x : float) : bool :=
  match x with
  | S754_finite _ m e =>
      (Z.pos m <? 2 ^ 24) && (-149 <=? e) && (e <=? 104) &&
      ((2 ^ 23 <=? Z.pos m) || (e =? -149))
  | _ => true
  end.

(** The state between two ticks holds canonical values where the handler
    reads them back. *)
Definition canonical_state (s : State) : Prop :=
  canonical (xv1 (filt s)) /\ canonical (xv2 (filt s)) /\
  canonical (yv1 (filt s)) /\ canonical (yv2 (filt s)) /\
  canonical (tilt_rads s) /\ canonical (tilt_int_rads s).

(** * Properties *)

(** ** What a tick leaves to the next one *)

Section SamplerFrame.
Variables (s : State) (inp : Inputs).

Lemma sampler_filt : filt (fst (calibration_sampler s inp)) = filt s.
Proof. unfold calibration_sampler; repeat destruct (_ =? _); reflexivity. Qed.

Lemma sampler_tilt_rads :
  tilt_rads (fst (calibration_sampler s inp)) = tilt_rads s.
Proof. unfold calibration_sampler; repeat destruct (_ =? _); reflexivity. Qed.

Lemma sampler_tilt_int_rads :
  tilt_int_rads (fst (calibration_sampler s inp)) = tilt_int_rads s.
Proof. unfold calibration_sampler; repeat destruct (_ =? _); reflexivity. Qed.

Lemma sampler_x_filt_gs :
  x_filt_gs (fst (calibration_sampler s inp)) = x_filt_gs s.
Proof. unfold calibration_sampler; repeat destruct (_ =? _); reflexivity. Qed.

Lemma sampler_reset_complete :
  reset_complete (fst (calibration_sampler s inp)) = reset_complete s.
Proof. unfold calibration_sampler; repeat destruct (_ =? _); reflexivity. Qed.

End SamplerFrame.

Lemma ISR_reset_complete (s : State) (inp : Inputs) :
  reset_complete (fst (ISR s inp)) = reset_complete (fst (control s inp)).
Proof. unfold ISR; cbn [fst]; apply sampler_reset_complete. Qed.

Lemma ISR_tilt_rads (s : State) (inp : Inputs) :
  tilt_rads (fst (ISR s inp)) = tilt_rads (fst (control s inp)).
Proof. unfold ISR; cbn [fst]; apply sampler_tilt_rads. Qed.

Lemma ISR_tilt_int_rads (s : State) (inp : Inputs) :
  tilt_int_rads (fst (ISR s inp)) = tilt_int_rads (fst (control s inp)).
Proof. unfold ISR; cbn [fst]; apply sampler_tilt_int_rads. Qed.

Lemma ISR_filt (s : State) (inp : Inputs) :
  filt (fst (ISR s inp)) = fst (filterx (filt s) (x_gs_of (in_x inp))).
Proof.
  unfold ISR; cbn [fst]; rewrite sampler_filt.
  unfold control.
  destruct (fallen_condition _ _); [reflexivity|].
  destruct (negb _); [|reflexivity].
  destruct (deadband _); reflexivity.
Qed.

Lemma ISR_x_filt_gs (s : State) (inp : Inputs) :
  x_filt_gs (fst (ISR s inp)) = snd (filterx (filt s) (x_gs_of (in_x inp))).
Proof.
  unfold ISR; cbn [fst]; rewrite sampler_x_filt_gs.
  unfold control.
  destruct (fallen_condition _ _); [reflexivity|].
  destruct (negb _); [|reflexivity].
  destruct (deadband _); reflexivity.
Qed.

(** ** The three branches of the state machine *)

Lemma control_fallen (s : State) (inp : Inputs) :
  fallen_on s inp = true ->
  snd (control s inp) = f_0 /\
  reset_complete (fst (control s inp)) = false /\
  tilt_rads (fst (control s inp)) = tilt_rads s /\
  tilt_int_rads (fst (control s inp)) = tilt_int_rads s.
Proof.
  unfold fallen_on, control; intros ->.
  cbn [fst snd reset_complete tilt_rads tilt_int_rads]; auto.
Qed.

Lemma control_awaiting (s : State) (inp : Inputs) :
  fallen_on s inp = false ->
  reset_complete s = false ->
  snd (control s inp) = f_0 /\
  reset_complete (fst (control s inp)) = relevel_on inp /\
  tilt_rads (fst (control s inp)) =
    (if relevel_on inp then x_gs_of (in_x inp) else tilt_rads s) /\
  tilt_int_rads (fst (control s inp)) =
    (if relevel_on inp then f_0 else tilt_int_rads s).
Proof.
  unfold fallen_on, relevel_on, control; intros -> ->.
  cbn [negb acquire x_gs].
  destruct (deadband _);
    cbn [fst snd reset_complete tilt_rads tilt_int_rads]; auto.
Qed.

Lemma control_balancing (s : State) (inp : Inputs) :
  fallen_on s inp = false ->
  reset_complete s = true ->
  let m := acquire s inp in
  let tilt := (tilt_rads s + (d_tilt_rads m + x_filt m))%f32 in
  let tilt_int := clamp_tilt_int (tilt_int_rads s + tilt)%f32 in
  snd (control s inp) = speed_law s tilt tilt_int (d_tilt_rads m) /\
  reset_complete (fst (control s inp)) = true /\
  tilt_rads (fst (control s inp)) = tilt /\
  tilt_int_rads (fst (control s inp)) = tilt_int.
Proof.
  unfold fallen_on, control; intros -> ->.
  cbn [negb fst snd reset_complete tilt_rads tilt_int_rads]; auto.
Qed.

Lemma branch_cases (s : State) (inp : Inputs) :
  (branch s inp = Fallen /\ fallen_on s inp = true) \/
  (branch s inp = AwaitingUpright /\
   fallen_on s inp = false /\ reset_complete s = false) \/
  (branch s inp = Balancing /\
   fallen_on s inp = false /\ reset_complete s = true).
Proof.
  unfold branch, fallen_on.
  destruct (fallen_condition _ _); [auto|].
  destruct (reset_complete s); cbn [negb]; auto.
Qed.

Lemma duty_of_zero_speed :
  duty (shape f_0) MOTOR_A_FACTOR = Some 0 /\
  duty (shape f_0) MOTOR_B_FACTOR = Some 0.
Proof. split; vm_compute; reflexivity. Qed.

Lemma zero_speed_zero_duty (s : State) (inp : Inputs) :
  snd (control s inp) = f_0 -> zero_duty (snd (ISR s inp)).
Proof.
  intros H; unfold zero_duty, ISR; cbn [snd motor_a_speed motor_b_speed].
  rewrite H; exact duty_of_zero_speed.
Qed.

(** With [reset_complete] false the handler commands speed 0, whichever
    branch it takes. *)
Lemma not_reset_zero_duty (s : State) (inp : Inputs) :
  reset_complete s = false -> zero_duty (snd (ISR s inp)).
Proof.
  intros Hrc; apply zero_speed_zero_duty.
  destruct (fallen_on s inp) eqn:Hf.
  - apply control_fallen; assumption.
  - apply control_awaiting; assumption.
Qed.

Lemma stays_not_reset (s : State) (inp : Inputs) :
  reset_complete s = false ->
  relevel_on inp = false ->
  reset_complete (fst (ISR s inp)) = false.
Proof.
  intros Hrc Hr; rewrite ISR_reset_complete.
  destruct (fallen_on s inp) eqn:Hf.
  - apply control_fallen; assumption.
  - destruct (control_awaiting s inp Hf Hrc) as (_ & -> & _); assumption.
Qed.

(** ** Runs *)

Lemma exec_app (s : State) (xs ys : list Inputs) :
  exec s (xs ++ ys) = exec (exec s xs) ys.
Proof. revert s; induction xs as [|x xs IH]; intros s; cbn; auto. Qed.

Lemma outputs_app (s : State) (xs ys : list Inputs) :
  outputs s (xs ++ ys) = outputs s xs ++ outputs (exec s xs) ys.
Proof.
  revert s; induction xs as [|x xs IH]; intros s; cbn; [reflexivity|].
  now rewrite IH.
Qed.

Lemma no_relevel_run (ins : list Inputs) :
  Forall (fun i => relevel_on i = false) ins ->
  forall s, reset_complete s = false ->
  reset_complete (exec s ins) = false /\ Forall zero_duty (outputs s ins).
Proof.
  induction 1 as [|i ins Hi _ IH]; intros s Hrc; cbn; [auto|].
  destruct (IH (fst (ISR s i)) (stays_not_reset s i Hrc Hi)) as [H1 H2].
  split; [exact H1|].
  constructor; [apply not_reset_zero_duty; exact Hrc | exact H2].
Qed.

(** ** C1: a detected fall stops the motors until the vehicle is re-levelled *)

(** C1.  On a tick that detects the Fallen condition both duty cycles
    written are 0, and they are 0 on every later tick as long as no tick has
    observed the re-level deadband; the first tick that observes it (the last
    one of [tail], if any) still writes 0. *)
Theorem C1_fallen_zero_duty_until_relevel :
  forall (s : State) (f : Inputs) (mid tail : list Inputs),
    fallen_on s f = true ->
    Forall (fun i => relevel_on i = false) mid ->
    (length tail <= 1)%nat ->
    Forall zero_duty (outputs s (f :: mid ++ tail)).
Proof.
  intros s f mid tail Hf Hmid Htail.
  destruct (control_fallen s f Hf) as (Hspeed & Hrc & _).
  cbn [outputs]; constructor.
  - apply zero_speed_zero_duty; exact Hspeed.
  - rewrite <- ISR_reset_complete in Hrc.
    rewrite outputs_app.
    destruct (no_relevel_run mid Hmid _ Hrc) as [Hrc' Hz].
    apply Forall_app; split; [exact Hz|].
    destruct tail as [|t [|t' tail]].
    + constructor.
    + change (Forall zero_duty [snd (ISR (exec (fst (ISR s f)) mid) t)]).
      constructor; [|constructor].
      apply not_reset_zero_duty; exact Hrc'.
    + cbn [length] in Htail; lia.
Qed.

Lemma C1_witness :
  Forall zero_duty
    (outputs (tipped_after 17)
       (tipped_in :: [tipped_in; tipped_in] ++ [level_in])).
Proof.
  apply C1_fallen_zero_duty_until_relevel.
  - vm_compute; reflexivity.
  - repeat constructor.
  - cbn; lia.
Defined.

(** ** C10: both direction pins carry the sign of the speed command *)

(** C10.  On every tick the two direction outputs are equal: LOW when the
    speed command, before the output mapper reshapes it, is below 0 and HIGH
    otherwise; a speed of exactly 0, of either sign, gives HIGH. *)
Theorem C10_directions_agree :
  forall (s : State) (inp : Inputs),
    dir_a (snd (ISR s inp)) = dir_b (snd (ISR s inp)) /\
    dir_a (snd (ISR s inp)) =
      (if (speed_command s inp <? f_0)%f32 then LOW else HIGH) /\
    direction (S754_zero false) = HIGH /\
    direction (S754_zero true) = HIGH.
Proof.
  intros s inp; unfold ISR, speed_command, direction; cbn [snd dir_a dir_b].
  repeat split.
Qed.

(** ** C6: leaving AwaitingUpright *)

(** C6.  On a tick taken with [reset_complete] false and without the Fallen
    condition, the handler moves to Balancing exactly when the deadband
    [-0.02 < x_gs < 0.02] holds, and then stores [x_gs] as the tilt and 0 as
    the integral; on a run whose samples never enter the deadband the machine
    rests in AwaitingUpright after every tick and no tick takes the Balancing
    branch. *)
Theorem C6_awaiting_upright :
  (forall (s : State) (inp : Inputs),
      reset_complete s = false ->
      fallen_on s inp = false ->
      branch s inp = AwaitingUpright /\
      (mode (fst (ISR s inp)) = Balancing <-> relevel_on inp = true) /\
      (relevel_on inp = true ->
       tilt_rads (fst (ISR s inp)) = x_gs_of (in_x inp) /\
       tilt_int_rads (fst (ISR s inp)) = f_0)) /\
  (forall (s : State) (ins : list Inputs),
      reset_complete s = false ->
      Forall (fun i => relevel_on i = false) ins ->
      forall (k : nat),
        mode (exec s (firstn k ins)) = AwaitingUpright /\
        (forall i, nth_error ins k = Some i ->
                   branch (exec s (firstn k ins)) i <> Balancing)).
Proof.
  split.
  - intros s inp Hrc Hf.
    destruct (control_awaiting s inp Hf Hrc) as (_ & Hm & Ht & Hi).
    split; [|split].
    + unfold branch; fold (fallen_on s inp); rewrite Hf, Hrc; reflexivity.
    + unfold mode; rewrite ISR_reset_complete, Hm.
      destruct (relevel_on inp); split; intros; congruence.
    + intros Hr; rewrite ISR_tilt_rads, ISR_tilt_int_rads, Ht, Hi, Hr; auto.
  - intros s ins Hrc Hall k.
    assert (Hk : reset_complete (exec s (firstn k ins)) = false).
    { apply no_relevel_run; [|exact Hrc].
      rewrite <- (firstn_skipn k ins) in Hall.
      apply Forall_app in Hall; tauto. }
    split.
    + unfold mode; rewrite Hk; reflexivity.
    + intros i _; unfold branch.
      destruct (fallen_condition _ _); [discriminate|].
      rewrite Hk; discriminate.
Qed.

Lemma C6_witness :
  (mode (fst (ISR init level_in)) = Balancing <-> relevel_on level_in = true) /\
  mode (exec init (firstn 2 [tipped_in; tipped_in; tipped_in])) =
    AwaitingUpright.
Proof.
  split.
  - apply (proj1 C6_awaiting_upright init level_in);
      vm_compute; reflexivity.
  - apply (proj2 C6_awaiting_upright init [tipped_in; tipped_in; tipped_in]).
    + reflexivity.
    + repeat constructor.
Defined.

(** ** C7: the tilt estimate outside Balancing *)

(** C7, as the claim states it, fails: the integral is not held at 0.  After
    power-on, one level tick and 17 ticks on the side, the next tick detects
    the fall and leaves the integral at [MAX_TILT_INT], where the clamp had
    put it. *)
Lemma C7_counterexample :
  branch (tipped_after 17) tipped_in = Fallen /\
  tilt_int_rads (fst (ISR (tipped_after 17) tipped_in)) = MAX_TILT_INT /\
  (MAX_TILT_INT >? f_0)%f32 = true.
Proof. repeat split; vm_compute; reflexivity. Qed.

(** C7, amended.  On a tick that takes the Fallen branch, or the
    AwaitingUpright branch without observing the deadband, neither the tilt
    nor its integral is written: both keep the value they had. *)
Theorem C7_estimate_frozen :
  forall (s : State) (inp : Inputs),
    branch s inp = Fallen \/
    (branch s inp = AwaitingUpright /\ relevel_on inp = false) ->
    tilt_rads (fst (ISR s inp)) = tilt_rads s /\
    tilt_int_rads (fst (ISR s inp)) = tilt_int_rads s.
Proof.
  intros s inp H; rewrite ISR_tilt_rads, ISR_tilt_int_rads.
  destruct (branch_cases s inp) as [[Hb Hf]|[(Hb & Hf & Hrc)|(Hb & _)]].
  - apply control_fallen; exact Hf.
  - destruct H as [H|[_ Hr]]; [congruence|].
    destruct (control_awaiting s inp Hf Hrc) as (_ & _ & -> & ->).
    rewrite Hr; auto.
  - destruct H as [H|[H _]]; congruence.
Qed.

Lemma C7_witness :
  tilt_rads (fst (ISR (tipped_after 17) tipped_in)) =
    tilt_rads (tipped_after 17) /\
  tilt_int_rads (fst (ISR (tipped_after 17) tipped_in)) =
    tilt_int_rads (tipped_after 17).
Proof.
  apply C7_estimate_frozen; left; vm_compute; reflexivity.
Defined.

(** ** C4: one tick of raw acceleration does not trip the Fallen branch *)

(** C4, as the claim states it, fails: the Fallen test reads the filtered
    x-axis signal.  Right after re-levelling, a tick with [y_gs = 0] and raw
    [|x_gs| > 0.6] takes the Balancing branch and drives both motors. *)
Lemma C4_counterexample :
  y_gs_of (in_y tipped_in) = f_0 /\
  (abs (x_gs_of (in_x tipped_in)) >? f_0_6)%f32 = true /\
  branch (tipped_after 0) tipped_in = Balancing /\
  motor_a_speed (snd (ISR (tipped_after 0) tipped_in)) = Some 191 /\
  motor_b_speed (snd (ISR (tipped_after 0) tipped_in)) = Some 191.
Proof. repeat split; vm_compute; reflexivity. Qed.

(** C4, amended.  From any prior state, a tick with [y_gs = 0] on which the
    filtered x-axis signal exceeds 0.6 in magnitude takes the Fallen branch,
    clears [reset_complete] and writes duty 0 to both motors. *)
Theorem C4_filtered_fall_stops_motors :
  forall (s : State) (inp : Inputs),
    y_gs_of (in_y inp) = f_0 ->
    (abs (snd (filterx (filt s) (x_gs_of (in_x inp)))) >? f_0_6)%f32 = true ->
    branch s inp = Fallen /\
    reset_complete (fst (ISR s inp)) = false /\
    zero_duty (snd (ISR s inp)).
Proof.
  intros s inp Hy Hx.
  assert (Hf : fallen_on s inp = true).
  { unfold fallen_on, fallen_condition; cbn [acquire y_gs x_filt].
    rewrite Hy, Hx; reflexivity. }
  destruct (control_fallen s inp Hf) as (Hspeed & Hrc & _).
  split; [|split].
  - unfold branch; fold (fallen_on s inp); rewrite Hf; reflexivity.
  - rewrite ISR_reset_complete; exact Hrc.
  - apply zero_speed_zero_duty; exact Hspeed.
Qed.

Lemma C4_witness :
  branch (tipped_after 17) tipped_in = Fallen /\
  reset_complete (fst (ISR (tipped_after 17) tipped_in)) = false /\
  zero_duty (snd (ISR (tipped_after 17) tipped_in)).
Proof.
  apply C4_filtered_fall_stops_motors; vm_compute; reflexivity.
Defined.

(** ** C5: the control law and its gains *)

(** C5, as the claim states it, fails: the integral gain reads no trim pot,
    so no two trim settings give it different values. *)
Lemma C5_counterexample :
  ~ (exists s1 s2 : State,
       K_p s1 <> K_p s2 /\ K_i s1 <> K_i s2 /\ K_d s1 <> K_d s2).
Proof. intros (s1 & s2 & _ & H & _); apply H; reflexivity. Qed.

(** C5, amended.  On a Balancing tick the speed command is
    [tilt * K_p + tilt_int * K_i + d_tilt * K_d] over the updated tilt and
    integral; [K_p] is computed from [tilt_pot] alone and [K_d] from
    [d_tilt_pot] alone, each taking different values at different settings,
    and [K_i] is the same constant in every state. *)
Theorem C5_speed_law :
  forall (s : State) (inp : Inputs),
    branch s inp = Balancing ->
    speed_command s inp =
      (tilt_rads (fst (ISR s inp)) * K_p s
       + tilt_int_rads (fst (ISR s inp)) * K_i s
       + d_tilt_rads_of (gyro_offset_pot s) (in_gyro inp) * K_d s)%f32 /\
    (forall s' : State, tilt_pot s' = tilt_pot s -> K_p s' = K_p s) /\
    (forall s' : State, d_tilt_pot s' = d_tilt_pot s -> K_d s' = K_d s) /\
    (forall s' : State, K_i s' = K_i s) /\
    TILT_FACT 0 <> TILT_FACT 512 /\
    D_TILT_FACT 0 <> D_TILT_FACT 512.
Proof.
  intros s inp Hb.
  destruct (branch_cases s inp) as [[H _]|[(H & _)|(_ & Hf & Hrc)]];
    try congruence.
  destruct (control_balancing s inp Hf Hrc) as (Hs & _ & Ht & Hi).
  split; [|repeat split].
  - unfold speed_command; rewrite ISR_tilt_rads, ISR_tilt_int_rads, Hs, Ht, Hi.
    reflexivity.
  - intros s' H; unfold K_p; rewrite H; reflexivity.
  - intros s' H; unfold K_d; rewrite H; reflexivity.
  - vm_compute; discriminate.
  - vm_compute; discriminate.
Qed.

Lemma C5_witness :
  speed_command (tipped_after 0) tipped_in =
    (tilt_rads (fst (ISR (tipped_after 0) tipped_in)) * K_p (tipped_after 0)
     + tilt_int_rads (fst (ISR (tipped_after 0) tipped_in))
       * K_i (tipped_after 0)
     + d_tilt_rads_of (gyro_offset_pot (tipped_after 0)) (in_gyro tipped_in)
       * K_d (tipped_after 0))%f32.
Proof.
  refine (proj1 (C5_speed_law (tipped_after 0) tipped_in _)).
  vm_compute; reflexivity.
Defined.

(** ** C9: the filtered signal depends on the x samples alone *)

Lemma x_filt_trace_filter_run (ins : list Inputs) :
  forall s : State,
    x_filt_trace s ins =
    filter_run (filt s) (map (fun i => x_gs_of (in_x i)) ins).
Proof.
  induction ins as [|i ins IH]; intros s; cbn [x_filt_trace filter_run map].
  - reflexivity.
  - rewrite ISR_x_filt_gs, IH, ISR_filt; reflexivity.
Qed.

(** C9.  Two runs of the handler that start with a zeroed delay line and
    read the same x-axis samples produce the same filtered sequence, whatever
    the rest of their states and their other inputs are: it is the sequence
    [filterx] computes from the zeroed delay line and those samples. *)
Theorem C9_filter_deterministic :
  forall (s1 s2 : State) (ins1 ins2 : list Inputs),
    filt s1 = filter_zero ->
    filt s2 = filter_zero ->
    map in_x ins1 = map in_x ins2 ->
    x_filt_trace s1 ins1 = x_filt_trace s2 ins2 /\
    x_filt_trace s1 ins1 =
      filter_run filter_zero (map (fun i => x_gs_of (in_x i)) ins1).
Proof.
  intros s1 s2 ins1 ins2 H1 H2 Hx.
  rewrite !x_filt_trace_filter_run, H1, H2.
  split; [|reflexivity].
  rewrite <- (map_map in_x x_gs_of ins1), <- (map_map in_x x_gs_of ins2), Hx.
  reflexivity.
Qed.

Lemma C9_witness :
  x_filt_trace init [tipped_in; level_in] =
  x_filt_trace
    (mkState filter_zero 0 1023 700 1 2 3 f_0xff f_0_6 f_0_1 f_0_02 true 1499)
    [mkInputs 0 1023 0 1 2 3; mkInputs 1023 504 4 5 6 7].
Proof.
  apply C9_filter_deterministic; reflexivity.
Defined.

(** ** C8: the calibration sampler's schedule *)

Lemma control_frame (s : State) (inp : Inputs) :
  loop_count (fst (control s inp)) = loop_count s /\
  d_tilt_pot (fst (control s inp)) = d_tilt_pot s /\
  tilt_pot (fst (control s inp)) = tilt_pot s /\
  gyro_offset_pot (fst (control s inp)) = gyro_offset_pot s.
Proof.
  unfold control.
  destruct (fallen_condition _ _); [cbn [fst]; auto|].
  destruct (negb _); [|cbn [fst]; auto].
  destruct (deadband _); cbn [fst]; auto.
Qed.

Lemma ISR_sampler (s : State) (inp : Inputs) :
  trim_read (snd (ISR s inp)) = scheduled (loop_count s) /\
  d_tilt_pot (fst (ISR s inp)) =
    (if loop_count s =? 500 then in_A3 inp else d_tilt_pot s) /\
  tilt_pot (fst (ISR s inp)) =
    (if loop_count s =? 1000 then in_A5 inp else tilt_pot s) /\
  gyro_offset_pot (fst (ISR s inp)) =
    (if loop_count s =? 1500 then in_A4 inp else gyro_offset_pot s) /\
  loop_count (fst (ISR s inp)) =
    int32 ((if loop_count s =? 1500 then 0 else loop_count s) + 1).
Proof.
  destruct (control_frame s inp) as (Hl & Hd & Ht & Hg).
  unfold ISR, calibration_sampler, scheduled; cbn [fst snd trim_read].
  rewrite Hl.
  destruct (loop_count s =? 500) eqn:E1;
    [apply Z.eqb_eq in E1; rewrite E1|].
  { cbn [fst snd d_tilt_pot tilt_pot gyro_offset_pot loop_count Z.eqb Pos.eqb].
    auto. }
  destruct (loop_count s =? 1000) eqn:E2;
    [apply Z.eqb_eq in E2; rewrite E2|].
  { cbn [fst snd d_tilt_pot tilt_pot gyro_offset_pot loop_count Z.eqb Pos.eqb].
    auto. }
  destruct (loop_count s =? 1500) eqn:E3;
    cbn [fst snd d_tilt_pot tilt_pot gyro_offset_pot loop_count]; auto.
Qed.

Lemma int32_small (z : Z) :
  -2147483648 <= z <= 2147483647 -> int32 z = z.
Proof. unfold int32; intros H; Z.div_mod_to_equations; lia. Qed.

Lemma count_at_range (n : nat) : 0 <= count_at n <= 1500.
Proof.
  destruct n as [|k]; cbn [count_at]; [lia|].
  Z.div_mod_to_equations; lia.
Qed.

Lemma count_at_succ (n : nat) :
  count_at (S n) = (if count_at n =? 1500 then 0 else count_at n) + 1.
Proof.
  destruct n as [|k]; [reflexivity|].
  cbn [count_at]; rewrite Nat2Z.inj_succ.
  destruct (_ =? 1500) eqn:E;
    [apply Z.eqb_eq in E | apply Z.eqb_neq in E];
    Z.div_mod_to_equations; lia.
Qed.

Lemma exec_snoc (s : State) (ins : list Inputs) (i : Inputs) :
  exec s (ins ++ [i]) = fst (ISR (exec s ins) i).
Proof. rewrite exec_app; reflexivity. Qed.

Lemma loop_count_exec (ins : list Inputs) :
  loop_count (exec init ins) = count_at (length ins).
Proof.
  induction ins as [|i ins IH] using rev_ind; [reflexivity|].
  rewrite exec_snoc, length_app, Nat.add_1_r, count_at_succ.
  destruct (ISR_sampler (exec init ins) i) as (_ & _ & _ & _ & ->).
  rewrite IH; apply int32_small.
  pose proof (count_at_range (length ins)).
  destruct (_ =? 1500); lia.
Qed.

Lemma outputs_nth (ins : list Inputs) :
  forall (s : State) (n : nat) (o : Outputs),
    nth_error (outputs s ins) n = Some o ->
    exists i, nth_error ins n = Some i /\
              o = snd (ISR (exec s (firstn n ins)) i).
Proof.
  induction ins as [|i ins IH]; intros s [|n] o H; cbn in H; try discriminate.
  - injection H as <-; exists i; split; reflexivity.
  - apply IH in H; exact H.
Qed.

Lemma scheduled_count_at (n : nat) (p : TrimPin) :
  scheduled (count_at n) = Some p ->
  (1 <= n)%nat /\
  (Z.of_nat n - 1) mod 1500 =
    match p with A3 => 499 | A5 => 999 | A4 => 1499 end.
Proof.
  unfold scheduled.
  destruct n as [|k]; [cbn; discriminate|].
  cbn [count_at]; rewrite Nat2Z.inj_succ.
  replace (Z.succ (Z.of_nat k) - 1) with (Z.of_nat k) by lia.
  destruct (_ =? 500) eqn:E1; [apply Z.eqb_eq in E1|].
  { intros [= <-]; split; lia. }
  destruct (_ =? 1000) eqn:E2; [apply Z.eqb_eq in E2|].
  { intros [= <-]; split; lia. }
  destruct (_ =? 1500) eqn:E3; [apply Z.eqb_eq in E3|discriminate].
  intros [= <-]; split; lia.
Qed.

(** C8.  On every tick the sampler reads pot A3 into [d_tilt_pot] exactly
    when the counter it sees is 500, A5 into [tilt_pot] exactly at 1000 and
    A4 into [gyro_offset_pot] exactly at 1500, where it also clears the
    counter before the increment that ends every tick; on any other tick it
    reads no trim pin and leaves the three trims as they were.  From power-on
    the [n]-th tick sees the counter [count_at n], so two ticks that sample
    the same pin are at least 1500 ticks apart. *)
Theorem C8_sampler_schedule :
  (forall (s : State) (inp : Inputs),
      trim_read (snd (ISR s inp)) = scheduled (loop_count s) /\
      d_tilt_pot (fst (ISR s inp)) =
        (if loop_count s =? 500 then in_A3 inp else d_tilt_pot s) /\
      tilt_pot (fst (ISR s inp)) =
        (if loop_count s =? 1000 then in_A5 inp else tilt_pot s) /\
      gyro_offset_pot (fst (ISR s inp)) =
        (if loop_count s =? 1500 then in_A4 inp else gyro_offset_pot s) /\
      loop_count (fst (ISR s inp)) =
        int32 ((if loop_count s =? 1500 then 0 else loop_count s) + 1)) /\
  (forall (ins : list Inputs) (n : nat),
      loop_count (exec init (firstn n ins)) = count_at (min n (length ins))) /\
  (forall (ins : list Inputs) (n m : nat) (o1 o2 : Outputs) (p : TrimPin),
      nth_error (outputs init ins) n = Some o1 ->
      nth_error (outputs init ins) m = Some o2 ->
      trim_read o1 = Some p ->
      trim_read o2 = Some p ->
      (n < m)%nat ->
      (n + 1500 <= m)%nat).
Proof.
  split; [exact ISR_sampler|split].
  - intros ins n; rewrite loop_count_exec, length_firstn; reflexivity.
  - intros ins n m o1 o2 p H1 H2 P1 P2 Hnm.
    apply outputs_nth in H1 as (i1 & Hi1 & ->).
    apply outputs_nth in H2 as (i2 & Hi2 & ->).
    destruct (ISR_sampler (exec init (firstn n ins)) i1) as (R1 & _).
    destruct (ISR_sampler (exec init (firstn m ins)) i2) as (R2 & _).
    rewrite R1, loop_count_exec, length_firstn in P1.
    rewrite R2, loop_count_exec, length_firstn in P2.
    assert (Ln : (n < length ins)%nat)
      by (apply nth_error_Some; congruence).
    assert (Lm : (m < length ins)%nat)
      by (apply nth_error_Some; congruence).
    rewrite Nat.min_l in P1, P2 by lia.
    apply scheduled_count_at in P1 as [N1 M1].
    apply scheduled_count_at in P2 as [N2 M2].
    rewrite <- M2 in M1.
    Z.div_mod_to_equations; lia.
Qed.

Lemma C8_witness :
  nth_error (outputs init (repeat level_in 2001)) 500 =
    Some (mkOutputs HIGH HIGH (Some 0) (Some 0) (Some A3)) /\
  nth_error (outputs init (repeat level_in 2001)) 2000 =
    Some (mkOutputs HIGH HIGH (Some 0) (Some 0) (Some A3)) /\
  (500 + 1500 <= 2000)%nat.
Proof.
  assert (H1 : nth_error (outputs init (repeat level_in 2001)) 500 =
               Some (mkOutputs HIGH HIGH (Some 0) (Some 0) (Some A3)))
    by (vm_compute; reflexivity).
  assert (H2 : nth_error (outputs init (repeat level_in 2001)) 2000 =
               Some (mkOutputs HIGH HIGH (Some 0) (Some 0) (Some A3)))
    by (vm_compute; reflexivity).
  split; [exact H1|split; [exact H2|]].
  apply (proj2 (proj2 C8_sampler_schedule) _ _ _ _ _ A3 H1 H2);
    [reflexivity|reflexivity|lia].
Defined.

(** ** Binary32 facts *)

Lemma compare_cont_opp (p q : positive) :
  PosDef.Pos.compare_cont Eq p q = CompOpp (PosDef.Pos.compare_cont Eq q p).
Proof.
  change (Pos.compare p q = CompOpp (Pos.compare q p)).
  apply Pos.compare_antisym.
Qed.

Lemma SFcompare_antisym (a b : float) :
  SFcompare a b = option_map CompOpp (SFcompare b a).
Proof.
  destruct a as [sa|sa| |sa ma ea], b as [sb|sb| |sb mb eb];
    try destruct sa; try destruct sb; try reflexivity;
    cbn [SFcompare option_map];
    rewrite (Z.compare_antisym ea eb), (compare_cont_opp mb ma);
    destruct (ea ?= eb)%Z; cbn [CompOpp];
    rewrite ?CompOpp_involutive; reflexivity.
Qed.

(** Between two numbers, "not greater" is "less or equal". *)
Lemma not_gt_le (a b : float) :
  is_nan a = false -> is_nan b = false ->
  (a >? b)%f32 = false -> leb a b = true.
Proof.
  unfold gtb, ltb, leb, SFltb, SFleb; intros Ha Hb.
  rewrite (SFcompare_antisym a b).
  destruct (SFcompare b a) as [[| |]|] eqn:E; cbn [option_map CompOpp];
    try congruence.
  destruct a, b; cbn in Ha, Hb, E; congruence.
Qed.

Lemma fexp_eq (e : Z) : fexp prec emax e = Z.max (e - 24) (-149).
Proof. reflexivity. Qed.

(** [digits2_pos p] is the number of binary digits of [p]. *)
Lemma digits2_pos_bounds (p : positive) :
  2 ^ (Z.pos (digits2_pos p) - 1) <= Z.pos p < 2 ^ Z.pos (digits2_pos p).
Proof.
  induction p as [p IH|p IH|]; cbn [digits2_pos].
  - rewrite Pos2Z.inj_succ, Z.pow_succ_r by lia.
    replace (Z.succ (Z.pos (digits2_pos p)) - 1) with
      (Z.succ (Z.pos (digits2_pos p) - 1)) by lia.
    rewrite Z.pow_succ_r by lia. lia.
  - rewrite Pos2Z.inj_succ, Z.pow_succ_r by lia.
    replace (Z.succ (Z.pos (digits2_pos p)) - 1) with
      (Z.succ (Z.pos (digits2_pos p) - 1)) by lia.
    rewrite Z.pow_succ_r by lia. lia.
  - cbn. lia.
Qed.

Lemma Zdigits2_bounds (m : Z) :
  0 <= m -> 0 <= Zdigits2 m /\ m < 2 ^ Zdigits2 m.
Proof.
  destruct m as [|p|p]; cbn [Zdigits2]; intros H; try lia.
  pose proof (digits2_pos_bounds p); lia.
Qed.

(** A non-negative [m] below [2^k] has at most [k] digits. *)
Lemma Zdigits2_le (m k : Z) :
  0 <= m -> 0 <= k -> m < 2 ^ k -> Zdigits2 m <= k.
Proof.
  destruct m as [|p|p]; cbn [Zdigits2]; intros H Hk Hm; try lia.
  pose proof (digits2_pos_bounds p) as [Hlo _].
  destruct (Z_lt_le_dec k (Z.pos (digits2_pos p))) as [Hlt|]; [|lia].
  assert (2 ^ k <= 2 ^ (Z.pos (digits2_pos p) - 1))
    by (apply Z.pow_le_mono_r; lia).
  lia.
Qed.

Lemma shr_1_m (mrs : shr_record) :
  0 <= shr_m mrs -> shr_m (shr_1 mrs) = shr_m mrs / 2.
Proof.
  destruct mrs as [m r s]; cbn [shr_m]; intros H.
  destruct m as [|[p|p|]|p]; cbn [shr_1 shr_m]; try lia.
  - reflexivity.
  - rewrite Pos2Z.inj_xI. apply Z.div_unique with (r := 1); lia.
  - rewrite Pos2Z.inj_xO. apply Z.div_unique with (r := 0); lia.
  - reflexivity.
Qed.

(** Shifting right [p] times divides the mantissa by [2^p]. *)
Lemma iter_shr_1_m (p : positive) :
  forall mrs : shr_record,
    0 <= shr_m mrs ->
    shr_m (iter_pos shr_1 p mrs) = shr_m mrs / 2 ^ Z.pos p.
Proof.
  induction p as [p IH|p IH|]; intros mrs H; cbn [iter_pos].
  - assert (H1 : 0 <= shr_m (shr_1 mrs))
      by (rewrite shr_1_m by lia; apply Z.div_pos; lia).
    assert (H2 : 0 <= shr_m (iter_pos shr_1 p (shr_1 mrs)))
      by (rewrite IH by lia; apply Z.div_pos;
          [lia|apply Z.pow_pos_nonneg; lia]).
    rewrite IH, IH, shr_1_m by lia.
    rewrite !Z.div_div by (try apply Z.pow_pos_nonneg; lia).
    f_equal. rewrite Pos2Z.inj_xI.
    rewrite <- Z.pow_add_r, <- (Z.pow_1_r 2) at 1 by lia.
    rewrite <- Z.pow_add_r by lia. f_equal; lia.
  - assert (H2 : 0 <= shr_m (iter_pos shr_1 p mrs))
      by (rewrite IH by lia; apply Z.div_pos;
          [lia|apply Z.pow_pos_nonneg; lia]).
    rewrite IH, IH by lia.
    rewrite !Z.div_div by (try apply Z.pow_pos_nonneg; lia).
    f_equal. rewrite Pos2Z.inj_xO, <- Z.pow_add_r by lia. f_equal; lia.
  - rewrite shr_1_m by lia. reflexivity.
Qed.

Lemma shr_record_of_loc_m (m : Z) (l : location) :
  shr_m (shr_record_of_loc m l) = m.
Proof. destruct l as [|[| |]]; reflexivity. Qed.

(** After [shr_fexp] the mantissa fits the precision. *)
Lemma shr_fexp_spec (m e : Z) (l : location) :
  0 <= m ->
  0 <= shr_m (fst (shr_fexp prec emax m e l)) < 2 ^ 24 /\
  snd (shr_fexp prec emax m e l) =
    Z.max e (fexp prec emax (Zdigits2 m + e)).
Proof.
  intros Hm; unfold shr_fexp, shr.
  destruct (Zdigits2_bounds m Hm) as [Hd Hlt].
  pose proof (fexp_eq (Zdigits2 m + e)) as Hf.
  destruct (fexp prec emax (Zdigits2 m + e) - e) as [|p|p] eqn:En;
    cbn [fst snd].
  - rewrite shr_record_of_loc_m; split; [split; [lia|]|lia].
    apply Z.lt_le_trans with (1 := Hlt), Z.pow_le_mono_r; lia.
  - rewrite iter_shr_1_m by (rewrite shr_record_of_loc_m; lia).
    rewrite shr_record_of_loc_m.
    assert (Hp : 0 < 2 ^ Z.pos p) by (apply Z.pow_pos_nonneg; lia).
    split; [split|lia].
    + apply Z.div_pos; lia.
    + apply Z.div_lt_upper_bound; [lia|].
      rewrite <- Z.pow_add_r by lia.
      apply Z.lt_le_trans with (1 := Hlt), Z.pow_le_mono_r; lia.
  - rewrite shr_record_of_loc_m; split; [split; [lia|]|lia].
    apply Z.lt_le_trans with (1 := Hlt), Z.pow_le_mono_r; lia.
Qed.

Lemma round_nearest_even_bounds (m : Z) (l : location) :
  m <= round_nearest_even m l <= m + 1.
Proof.
  unfold round_nearest_even.
  destruct l as [|[| |]]; try destruct (Z.even m); lia.
Qed.

(** What rounding returns on a non-negative mantissa: a zero, an infinity or
    a finite value of the given sign, whose mantissa fits 24 bits and whose
    exponent exceeds the aligned input exponent by at most 1. *)
Lemma binary_round_aux_spec (sx : bool) (mx ex : Z) (lx : location) :
  0 <= mx ->
  exists m e : Z,
    0 <= m < 2 ^ 24 /\
    e <= Z.max (Z.max ex (fexp prec emax (Zdigits2 mx + ex)) + 1) (-149) /\
    binary_round_aux prec emax sx mx ex lx =
      match m with
      | Z0 => S754_zero sx
      | Zpos p => if e <=? 104 then S754_finite sx p e else S754_infinity sx
      | Zneg _ => S754_nan
      end.
Proof.
  intros Hm; unfold binary_round_aux.
  destruct (shr_fexp_spec mx ex lx Hm) as [H1 E1].
  destruct (shr_fexp prec emax mx ex lx) as [mrs' e']; cbn [fst snd] in H1, E1.
  pose proof (round_nearest_even_bounds (shr_m mrs') (loc_of_shr_record mrs'))
    as H2.
  set (m2 := round_nearest_even (shr_m mrs') (loc_of_shr_record mrs')) in *.
  assert (Hm2 : 0 <= m2) by lia.
  destruct (shr_fexp_spec m2 e' loc_Exact Hm2) as [H3 E3].
  destruct (shr_fexp prec emax m2 e' loc_Exact) as [mrs'' e''];
    cbn [fst snd] in H3, E3.
  exists (shr_m mrs''), e''; split; [exact H3|split; [|reflexivity]].
  assert (Hd : Zdigits2 m2 <= 25) by (apply Zdigits2_le; lia).
  rewrite E3, fexp_eq, E1; lia.
Qed.

(** Rounding a non-negative mantissa with sign [false] gives a zero, a
    positive value with a 24-bit mantissa, or the positive infinity. *)
Lemma binary_round_aux_rounded (mx ex : Z) (lx : location) :
  0 <= mx -> rounded (binary_round_aux prec emax false mx ex lx).
Proof.
  intros Hm.
  destruct (binary_round_aux_spec false mx ex lx Hm) as (m & e & Hr & _ & ->).
  destruct m as [|p|p]; [exact I| |lia].
  destruct (e <=? 104); cbn [rounded]; auto with zarith.
Qed.

Lemma rounded_nonneg (x : float) : rounded x -> nonneg x.
Proof. destruct x; cbn [rounded nonneg]; tauto. Qed.

Lemma sqrt_core_nonneg (m : positive) (e : Z) :
  0 <= fst (fst (SFsqrt_core_binary prec emax (Z.pos m) e)).
Proof.
  unfold SFsqrt_core_binary.
  set (s := e - 2 * _).
  set (m' := match s with Z.pos _ => _ | Z0 => _ | Z.neg _ => _ end).
  assert (Hm' : 0 <= m').
  { subst m'; destruct s; try lia. apply Z.shiftl_nonneg; lia. }
  pose proof (Z.sqrtrem_spec m' Hm') as H.
  change IntDef.Z.sqrtrem with Z.sqrtrem.
  destruct (Z.sqrtrem m') as [q r]; cbn [fst]; lia.
Qed.

(** ** The output mapper on numbers *)

Lemma abs_nonneg (x : float) : is_nan x = false -> nonneg (abs x).
Proof.
  destruct x as [s|s| |s m e]; try discriminate; intros _;
    destruct s; cbn; auto.
Qed.

Lemma sqrt_nonneg (x : float) : nonneg x -> nonneg (sqrt x).
Proof.
  destruct x as [s|s| |s m e]; cbn [nonneg]; intros H; subst;
    try contradiction.
  - exact I.
  - reflexivity.
  - unfold sqrt, SFsqrt.
    pose proof (sqrt_core_nonneg m e) as Hq.
    destruct (SFsqrt_core_binary prec emax (Z.pos m) e) as [[mz ez] lz].
    apply rounded_nonneg, binary_round_aux_rounded; exact Hq.
Qed.

Lemma mul_pos_rounded (m1 : positive) (e1 : Z) (r : float) :
  nonneg r -> rounded (S754_finite false m1 e1 * r)%f32.
Proof.
  destruct r as [s|s| |s m e]; cbn [nonneg]; intros H; subst;
    try contradiction.
  - exact I.
  - reflexivity.
  - unfold mul, SFmul; cbn [xorb].
    apply binary_round_aux_rounded; lia.
Qed.

(** The reshaped speed of a number is a zero or a positive value that does
    not exceed 255. *)
Lemma shape_small (x : float) : is_nan x = false -> small (-16) (shape x).
Proof.
  intros Hx; unfold shape.
  change (of_int 7) with (S754_finite false 14680064 (-21)).
  pose proof (mul_pos_rounded 14680064 (-21) _ (sqrt_nonneg _ (abs_nonneg _ Hx)))
    as R.
  destruct (S754_finite false 14680064 (-21) * sqrt (abs x))%f32
    as [s|s| |s m e]; cbn [rounded] in R.
  - exact I.
  - subst s; cbn; lia.
  - contradiction.
  - destruct R as [-> Hm].
    unfold gtb, ltb, SFltb, f_0xff; cbn [SFcompare].
    destruct (Z.compare_spec (-16) e) as [He|He|He].
    + destruct (PosDef.Pos.compare_cont Eq 16711680 m);
        cbn [small]; repeat split; lia.
    + cbn [small]; repeat split; lia.
    + cbn [small]; repeat split; lia.
Qed.

Lemma mul_one_small (v : float) :
  small (-16) v -> small (-15) (v * S754_finite false 8388608 (-23))%f32.
Proof.
  destruct v as [s|s| |s m e]; cbn [small]; try contradiction.
  - intros _; exact I.
  - intros (-> & Hm & He); unfold mul, SFmul; cbn [xorb].
    destruct (binary_round_aux_spec false (Z.pos (m * 8388608)) (e + -23)
                loc_Exact) as (m' & e' & Hm' & He' & ->); [lia|].
    assert (Hd : Zdigits2 (Z.pos (m * 8388608)) <= 47)
      by (apply Zdigits2_le; lia).
    rewrite fexp_eq in He'.
    destruct m' as [|p|p]; [exact I| |lia].
    replace (e' <=? 104) with true by (symmetry; apply Z.leb_le; lia).
    cbn [small]; repeat split; lia.
Qed.

Lemma long_of_small (w : float) :
  small (-15) w -> exists z, long_of_float w = Some z /\ 0 <= z < 2 ^ 24.
Proof.
  destruct w as [s|s| |s m e]; cbn [small]; try contradiction.
  - intros _; exists 0; split; [reflexivity|lia].
  - intros (-> & Hm & He).
    destruct e as [|q|q]; try lia.
    assert (Hq : 0 < 2 ^ Z.pos q) by (apply Z.pow_pos_nonneg; lia).
    assert (Ha : 0 <= Z.pos m / 2 ^ Z.pos q < 2 ^ 24).
    { split; [apply Z.div_pos; lia|].
      apply Z.div_lt_upper_bound; [lia|nia]. }
    exists (Z.pos m / 2 ^ Z.pos q); split; [|exact Ha].
    unfold long_of_float, trunc.
    replace (-2147483648 <=? Z.pos m / 2 ^ Z.pos q) with true
      by (symmetry; apply Z.leb_le; lia).
    replace (Z.pos m / 2 ^ Z.pos q <=? 2147483647) with true
      by (symmetry; apply Z.leb_le; lia).
    reflexivity.
Qed.

(** On a number the mapper yields a duty cycle between 0 and 255. *)
Lemma duty_range (x : float) :
  is_nan x = false ->
  exists d, duty (shape x) 1 = Some d /\ 0 <= d <= 255.
Proof.
  intros Hx; unfold duty.
  change (of_int 1) with (S754_finite false 8388608 (-23)).
  destruct (long_of_small _ (mul_one_small _ (shape_small x Hx)))
    as (z & -> & Hz).
  eexists; split; [reflexivity|].
  destruct (z >? 255) eqn:E; [lia|].
  rewrite Z.gtb_ltb in E; apply Z.ltb_ge in E; lia.
Qed.

(** A tick whose speed command is a number writes duty cycles in range. *)
Lemma duty_of_number (s : State) (inp : Inputs) :
  is_nan (speed_command s inp) = false -> duty_ok (snd (ISR s inp)).
Proof.
  intros Hx; unfold duty_ok, ISR; cbn [snd motor_a_speed motor_b_speed].
  fold (speed_command s inp).
  destruct (duty_range _ Hx) as (d & Hd & Hr).
  exists d, d; auto.
Qed.

(** ** The clamp of the integral *)

Lemma clamp_within (t : float) : within_max (clamp_tilt_int t).
Proof.
  unfold within_max, clamp_tilt_int.
  destruct (t >? MAX_TILT_INT)%f32 eqn:E1.
  - split; vm_compute; reflexivity.
  - destruct (t <? (- MAX_TILT_INT))%f32 eqn:E2.
    + split; vm_compute; reflexivity.
    + split; assumption.
Qed.

Lemma within_step (s : State) (inp : Inputs) :
  within_max (tilt_int_rads s) ->
  within_max (tilt_int_rads (fst (ISR s inp))).
Proof.
  intros H; rewrite ISR_tilt_int_rads.
  destruct (branch_cases s inp) as [[_ Hf]|[(_ & Hf & Hrc)|(_ & Hf & Hrc)]].
  - destruct (control_fallen s inp Hf) as (_ & _ & _ & ->); exact H.
  - destruct (control_awaiting s inp Hf Hrc) as (_ & _ & _ & ->).
    destruct (relevel_on inp); [split; vm_compute; reflexivity|exact H].
  - destruct (control_balancing s inp Hf Hrc) as (_ & _ & _ & ->).
    apply clamp_within.
Qed.

Lemma within_exec (ins : list Inputs) :
  forall s : State,
    within_max (tilt_int_rads s) -> within_max (tilt_int_rads (exec s ins)).
Proof.
  induction ins as [|i ins IH]; intros s H; cbn [exec]; [exact H|].
  apply IH, within_step, H.
Qed.

(** ** Rounding, bit by bit *)

Lemma iter_pos_comm {A : Type} (f : A -> A) (p : positive) :
  forall x, iter_pos f p (f x) = f (iter_pos f p x).
Proof.
  induction p as [p IH|p IH|]; intros x; cbn [iter_pos].
  - now rewrite !IH.
  - now rewrite !IH.
  - reflexivity.
Qed.

Lemma iter_pos_succ {A : Type} (f : A -> A) (p : positive) (x : A) :
  iter_pos f (Pos.succ p) x = f (iter_pos f p x).
Proof.
  revert x; induction p as [p IH|p IH|]; intros x; cbn [Pos.succ iter_pos].
  - rewrite !IH. f_equal. rewrite (iter_pos_comm f p x). reflexivity.
  - rewrite !iter_pos_comm. reflexivity.
  - reflexivity.
Qed.

Lemma shr_1_r (mrs : shr_record) :
  0 <= shr_m mrs -> shr_r (shr_1 mrs) = Z.odd (shr_m mrs).
Proof.
  destruct mrs as [m r s]; cbn [shr_m]; intros H.
  destruct m as [|[p|p|]|p]; cbn [shr_1 shr_r]; try lia; reflexivity.
Qed.

(** The round bit after [p] shifts is bit [p - 1] of the mantissa. *)
Lemma iter_shr_1_r (p : positive) (mrs : shr_record) :
  0 <= shr_m mrs ->
  shr_r (iter_pos shr_1 p mrs) = Z.odd (shr_m mrs / 2 ^ (Z.pos p - 1)).
Proof.
  intros H; destruct (Pos.succ_pred_or p) as [->|E].
  - cbn [iter_pos]. rewrite shr_1_r by lia. cbn. now rewrite Z.div_1_r.
  - rewrite <- E, iter_pos_succ, shr_1_r.
    + rewrite iter_shr_1_m by lia.
      replace (Z.pos (Pos.succ (Pos.pred p)) - 1) with (Z.pos (Pos.pred p))
        by lia.
      reflexivity.
    + rewrite iter_shr_1_m by lia.
      apply Z.div_pos; [lia|apply Z.pow_pos_nonneg; lia].
Qed.

Lemma low_half_even (m : Z) (p : positive) :
  0 <= m -> m mod 2 ^ Z.pos p < 2 ^ (Z.pos p - 1) ->
  Z.odd (m / 2 ^ (Z.pos p - 1)) = false.
Proof.
  intros Hm Hlt.
  assert (Hp : 0 < 2 ^ (Z.pos p - 1)) by (apply Z.pow_pos_nonneg; lia).
  assert (E : 2 ^ Z.pos p = 2 * 2 ^ (Z.pos p - 1)).
  { rewrite <- Z.pow_succ_r by lia. f_equal; lia. }
  pose proof (Z.div_mod m (2 ^ Z.pos p)) as D.
  pose proof (Z.mod_pos_bound m (2 ^ Z.pos p)) as B.
  assert (Q : m / 2 ^ (Z.pos p - 1) = 2 * (m / 2 ^ Z.pos p)).
  { symmetry; apply Z.div_unique with (r := m mod 2 ^ Z.pos p); [lia|].
    rewrite D at 1 by lia. rewrite E. ring. }
  rewrite Q, Z.odd_mul. reflexivity.
Qed.

(** What [shr_fexp] computes on a non-negative mantissa. *)
Lemma shr_fexp_exact (m e : Z) (l : location) :
  0 <= m ->
  let n := Z.max 0 (fexp prec emax (Zdigits2 m + e) - e) in
  shr_m (fst (shr_fexp prec emax m e l)) = m / 2 ^ n /\
  snd (shr_fexp prec emax m e l) = e + n.
Proof.
  intros Hm n; subst n; unfold shr_fexp, shr.
  destruct (fexp prec emax (Zdigits2 m + e) - e) as [|p|p]; cbn [fst snd].
  - rewrite shr_record_of_loc_m, Z.div_1_r; split; lia.
  - rewrite iter_shr_1_m by (rewrite shr_record_of_loc_m; lia).
    rewrite shr_record_of_loc_m. replace (Z.max 0 (Z.pos p)) with (Z.pos p) by lia.
    split; reflexivity.
  - rewrite shr_record_of_loc_m. replace (Z.max 0 (Z.neg p)) with 0 by lia.
    rewrite Z.div_1_r; split; lia.
Qed.

Lemma round_down (mrs : shr_record) :
  shr_r mrs = false ->
  round_nearest_even (shr_m mrs) (loc_of_shr_record mrs) = shr_m mrs.
Proof. destruct mrs as [m [|] [|]]; cbn; congruence. Qed.

(** A mantissa that fits the precision, at an exponent no lower than the
    least one, is left alone by [shr_fexp]; [2^24] is halved. *)
Lemma shr_fexp_fits (m e : Z) :
  0 <= m <= 2 ^ 24 -> -149 <= e ->
  exists m' e' : Z,
    shr_m (fst (shr_fexp prec emax m e loc_Exact)) = m' /\
    snd (shr_fexp prec emax m e loc_Exact) = e' /\
    0 <= m' < 2 ^ 24 /\ e <= e' <= e + 1 /\ m' * 2 ^ (e' - e) = m /\
    (m < 2 ^ 24 -> m' = m /\ e' = e).
Proof.
  intros Hm He.
  destruct (shr_fexp_exact m e loc_Exact) as [-> ->]; [lia|].
  destruct (Z.eq_dec m (2 ^ 24)) as [->|Hne].
  - change (Zdigits2 (2 ^ 24)) with 25; rewrite fexp_eq.
    replace (Z.max 0 (Z.max (25 + e - 24) (-149) - e)) with 1 by lia.
    exists (2 ^ 23), (e + 1).
    replace (e + 1 - e) with 1 by lia.
    repeat split; try lia; reflexivity.
  - assert (Hd : Zdigits2 m <= 24) by (apply Zdigits2_le; lia).
    rewrite fexp_eq.
    replace (Z.max 0 (Z.max (Zdigits2 m + e - 24) (-149) - e)) with 0 by lia.
    exists m, e; rewrite Z.div_1_r, Z.add_0_r, Z.sub_diag, Z.mul_1_r.
    repeat split; lia.
Qed.

(** Rounding an exact value [mx * 2^ex]: the result is [m2 * 2^(ex+n)],
    where [n] is the number of bits dropped and [m2] is the truncated
    mantissa or its successor; nothing is dropped when [n = 0], and the
    truncated mantissa is kept when less than half a unit is dropped. *)
Lemma round_exact_spec (s : bool) (mx ex : Z) :
  0 <= mx ->
  let n := Z.max 0 (fexp prec emax (Zdigits2 mx + ex) - ex) in
  ex + n <= 103 ->
  exists m2 m e : Z,
    binary_round_aux prec emax s mx ex loc_Exact =
      match m with
      | Z0 => S754_zero s
      | Z.pos p => S754_finite s p e
      | Z.neg _ => S754_nan
      end /\
    0 <= m < 2 ^ 24 /\
    -149 <= ex + n <= e /\ e <= ex + n + 1 /\
    m * 2 ^ (e - (ex + n)) = m2 /\
    mx / 2 ^ n <= m2 <= mx / 2 ^ n + 1 /\ m2 <= 2 ^ 24 /\
    (n = 0 -> m2 = mx) /\
    (0 < n -> mx mod 2 ^ n < 2 ^ (n - 1) -> m2 = mx / 2 ^ n) /\
    (m2 < 2 ^ 24 -> m = m2 /\ e = ex + n).
Proof.
  intros Hm n Hn.
  assert (Hlo : -149 <= ex + n) by (subst n; rewrite fexp_eq; lia).
  unfold binary_round_aux.
  destruct (shr_fexp_exact mx ex loc_Exact Hm) as [M1 E1].
  destruct (shr_fexp_spec mx ex loc_Exact Hm) as [B1 _].
  fold n in M1, E1.
  assert (R1 : (n = 0 -> round_nearest_even
                   (shr_m (fst (shr_fexp prec emax mx ex loc_Exact)))
                   (loc_of_shr_record (fst (shr_fexp prec emax mx ex loc_Exact)))
                 = mx) /\
               (0 < n -> mx mod 2 ^ n < 2 ^ (n - 1) ->
                round_nearest_even
                   (shr_m (fst (shr_fexp prec emax mx ex loc_Exact)))
                   (loc_of_shr_record (fst (shr_fexp prec emax mx ex loc_Exact)))
                 = mx / 2 ^ n)).
  { subst n; unfold shr_fexp, shr.
    destruct (fexp prec emax (Zdigits2 mx + ex) - ex) as [|p|p]; cbn [fst].
    - split; [reflexivity|lia].
    - replace (Z.max 0 (Z.pos p)) with (Z.pos p) by lia.
      split; [lia|intros _ Hlt].
      rewrite round_down.
      + rewrite iter_shr_1_m by (cbn; lia). reflexivity.
      + rewrite iter_shr_1_r by (cbn; lia).
        apply low_half_even; cbn [shr_m shr_record_of_loc]; assumption.
    - split; [reflexivity|lia]. }
  destruct (shr_fexp prec emax mx ex loc_Exact) as [mrs' e'];
    cbn [fst snd] in M1, E1, B1, R1.
  pose proof (round_nearest_even_bounds (shr_m mrs') (loc_of_shr_record mrs'))
    as H2.
  set (m2 := round_nearest_even (shr_m mrs') (loc_of_shr_record mrs')) in *.
  destruct (shr_fexp_fits m2 e') as (m & e & M3 & E3 & Bm & Be & V & Vs);
    [lia|lia|].
  destruct (shr_fexp prec emax m2 e' loc_Exact) as [mrs'' e''];
    cbn [fst snd] in M3, E3.
  exists m2, m, e; rewrite M3, E3.
  split; [|repeat split; try lia; rewrite <- E1; exact V].
  destruct m as [|p|p]; try reflexivity.
  replace (e <=? emax - prec) with true; [reflexivity|].
  symmetry; apply Z.leb_le; change (emax - prec) with 104; lia.
Qed.

(** ** Rounding, as real numbers *)

Lemma bpow_pos e : (0 < bpow e)%R.
Proof. apply powerRZ_lt; lra. Qed.

Lemma bpow_add a b : bpow (a + b) = (bpow a * bpow b)%R.
Proof. apply powerRZ_add; lra. Qed.

Lemma bpow_le a b : a <= b -> (bpow a <= bpow b)%R.
Proof.
  intros H. replace b with (a + (b - a)) by lia. rewrite bpow_add.
  assert (1 <= bpow (b - a))%R.
  { unfold bpow. destruct (b - a) eqn:E; try lia; cbn.
    - lra.
    - apply pow_R1_Rle; lra. }
  pose proof (bpow_pos a). nra.
Qed.

Lemma bpow_IZR n : 0 <= n -> IZR (2 ^ n) = bpow n.
Proof.
  intros H. unfold bpow. destruct n as [|p|p]; try lia.
  - reflexivity.
  - cbn [powerRZ]. rewrite pow_IZR, positive_nat_Z. reflexivity.
Qed.

Lemma bpow_opp n : bpow (- n) = (/ bpow n)%R.
Proof. unfold bpow. apply powerRZ_neg'. Qed.

Lemma bpow_neg_IZR p : bpow (Z.neg p) = (/ IZR (2 ^ Z.pos p))%R.
Proof.
  change (Z.neg p) with (- Z.pos p). rewrite bpow_opp, bpow_IZR by lia.
  reflexivity.
Qed.

Lemma bpow_lt_inv a b : (bpow a < bpow b)%R -> a < b.
Proof.
  intros H. destruct (Z_lt_le_dec a b) as [|Hle]; [assumption|].
  apply bpow_le in Hle. lra.
Qed.

Lemma IZR_cond_Zopp (s : bool) (z : Z) :
  IZR (cond_Zopp s z) = ((if s then -1 else 1) * IZR z)%R.
Proof. destruct s; cbn [cond_Zopp]; [rewrite opp_IZR|]; lra. Qed.

Lemma Rabs_sign (s : bool) (x : R) :
  Rabs ((if s then -1 else 1) * x) = Rabs x.
Proof.
  destruct s.
  - replace (-1 * x)%R with (- x)%R by lra. apply Rabs_Ropp.
  - f_equal; lra.
Qed.

Lemma err_term_pos (mx : positive) (ex : Z) :
  (0 <= bpow (-23) * (IZR (Z.pos mx) * bpow ex))%R.
Proof.
  apply Rmult_le_pos; [left; apply bpow_pos|].
  apply Rmult_le_pos; [apply IZR_le; lia|left; apply bpow_pos].
Qed.

(** Rounding the exact value [mx * 2^ex], below [2^K] in magnitude. *)
Lemma round_R (s : bool) (mx : positive) (ex K : Z) :
  (IZR (Z.pos mx) * bpow ex < bpow K)%R ->
  Z.max ex (Z.max (K - 24) (-149)) <= 103 ->
  let r := binary_round_aux prec emax s (Z.pos mx) ex loc_Exact in
  fin (Z.max ex (Z.max (K - 24) (-149)) + 1) r /\
  (Rabs (B2R r - IZR (cond_Zopp s (Z.pos mx)) * bpow ex) <=
     bpow (-23) * (IZR (Z.pos mx) * bpow ex) + bpow (-149))%R.
Proof.
  intros Hx Hk r; subst r.
  pose proof (digits2_pos_bounds mx) as [Dlo Dhi].
  set (d := Z.pos (digits2_pos mx)) in *.
  assert (Hd : d + ex <= K).
  { assert (bpow (d - 1 + ex) < bpow K)%R; [|apply bpow_lt_inv in H; lia].
    apply Rle_lt_trans with (2 := Hx).
    rewrite bpow_add, <- (bpow_IZR (d - 1)) by lia.
    apply Rmult_le_compat_r; [left; apply bpow_pos|apply IZR_le; exact Dlo]. }
  destruct (round_exact_spec s (Z.pos mx) ex) as
    (m2 & m & e & -> & Bm & Be & Be' & V & B2 & _ & X0 & _); [lia| |].
  { change (Zdigits2 (Z.pos mx)) with d; rewrite fexp_eq; lia. }
  change (Zdigits2 (Z.pos mx)) with d in *; rewrite fexp_eq in *.
  set (n := Z.max 0 (Z.max (d + ex - 24) (-149) - ex)) in *.
  assert (Hn : 0 <= n) by lia.
  assert (Hp : 0 < 2 ^ n) by (apply Z.pow_pos_nonneg; lia).
  (* the value of the result *)
  assert (Val : (IZR m * bpow e = IZR m2 * bpow (ex + n))%R).
  { rewrite <- V, mult_IZR, (bpow_IZR (e - (ex + n))) by lia.
    rewrite Rmult_assoc, <- bpow_add. do 2 f_equal. lia. }
  (* the exact value, split at the dropped bits *)
  pose proof (Z.div_mod (Z.pos mx) (2 ^ n)) as DM.
  pose proof (Z.mod_pos_bound (Z.pos mx) (2 ^ n) Hp) as MB.
  assert (Ex : (IZR (Z.pos mx) * bpow ex =
                IZR (Z.pos mx / 2 ^ n) * bpow (ex + n) +
                IZR (Z.pos mx mod 2 ^ n) * bpow ex)%R).
  { rewrite DM at 1 by lia.
    rewrite plus_IZR, mult_IZR, (bpow_IZR n), bpow_add by lia. ring. }
  assert (Rem : (0 <= IZR (Z.pos mx mod 2 ^ n) * bpow ex < bpow (ex + n))%R).
  { pose proof (bpow_pos ex). split.
    - apply Rmult_le_pos; [apply IZR_le; lia|lra].
    - rewrite bpow_add, (Rmult_comm (bpow ex)), <- (bpow_IZR n) by lia.
      apply Rmult_lt_compat_r; [lra|apply IZR_lt; lia]. }
  assert (M2 : (IZR (Z.pos mx / 2 ^ n) <= IZR m2 <= IZR (Z.pos mx / 2 ^ n) + 1)%R).
  { split; [apply IZR_le; lia|].
    rewrite <- plus_IZR; apply IZR_le; lia. }
  assert (Err : (Rabs (IZR m * bpow e - IZR (Z.pos mx) * bpow ex) <=
                 bpow (-23) * (IZR (Z.pos mx) * bpow ex) + bpow (-149))%R).
  { destruct (Z.eq_dec n 0) as [N0|N0].
    - rewrite Val, (X0 N0), N0, Z.add_0_r, Rminus_diag, Rabs_R0.
      pose proof (bpow_pos (-149)); pose proof (err_term_pos mx ex).
      lra.
    - assert (Hu : (bpow (ex + n) <=
                    bpow (-23) * (IZR (Z.pos mx) * bpow ex) + bpow (-149))%R).
      { assert (E : ex + n = Z.max (d + ex - 24) (-149)) by lia.
        rewrite E.
        pose proof (bpow_pos (-149)).
        pose proof (err_term_pos mx ex).
        destruct (Z.max_spec (d + ex - 24) (-149)) as [[_ ->]|[_ ->]]; [lra|].
        replace (d + ex - 24) with (-23 + ((d - 1) + ex)) by lia.
        rewrite 2!bpow_add, <- (bpow_IZR (d - 1)) by lia.
        assert (IZR (2 ^ (d - 1)) <= IZR (Z.pos mx))%R by (apply IZR_le; lia).
        pose proof (bpow_pos (-23)); pose proof (bpow_pos ex).
        assert (bpow (-23) * (IZR (2 ^ (d - 1)) * bpow ex) <=
                bpow (-23) * (IZR (Z.pos mx) * bpow ex))%R
          by (apply Rmult_le_compat_l; [lra|apply Rmult_le_compat_r; lra]).
        lra. }
      rewrite Val. apply Rabs_le.
      pose proof (bpow_pos (ex + n)). nra. }
  split.
  - destruct m as [|p|p]; cbn [fin]; [exact I| |lia]. split; lia.
  - destruct m as [|p|p]; cbn [B2R]; [| |lia].
    + change (IZR 0 * bpow e)%R with (0 * bpow e)%R in Err.
      rewrite IZR_cond_Zopp.
      replace (0 - (if s then -1 else 1) * IZR (Z.pos mx) * bpow ex)%R with
        ((if s then -1 else 1) * (0 * bpow e - IZR (Z.pos mx) * bpow ex))%R
        by (destruct s; ring).
      rewrite Rabs_sign; exact Err.
    + rewrite !IZR_cond_Zopp.
      replace ((if s then -1 else 1) * IZR (Z.pos p) * bpow e -
               (if s then -1 else 1) * IZR (Z.pos mx) * bpow ex)%R with
        ((if s then -1 else 1) *
         (IZR (Z.pos p) * bpow e - IZR (Z.pos mx) * bpow ex))%R
        by (destruct s; ring).
      rewrite Rabs_sign; exact Err.
Qed.

Lemma fin_le (k k' : Z) (x : float) : fin k x -> k <= k' -> fin k' x.
Proof. destruct x; cbn [fin]; intros; try tauto; lia. Qed.

Lemma digits_le_K (m : positive) (e K : Z) :
  (IZR (Z.pos m) * bpow e < bpow K)%R -> Z.pos (digits2_pos m) + e <= K.
Proof.
  intros Hx. pose proof (digits2_pos_bounds m) as [Dlo _].
  set (d := Z.pos (digits2_pos m)) in *.
  assert (bpow (d - 1 + e) < bpow K)%R; [|apply bpow_lt_inv in H; lia].
  apply Rle_lt_trans with (2 := Hx).
  rewrite bpow_add, <- (bpow_IZR (d - 1)) by lia.
  apply Rmult_le_compat_r; [left; apply bpow_pos|apply IZR_le; exact Dlo].
Qed.

Lemma iter_xO (m d : positive) :
  Z.pos (Pos.iter xO m d) = Z.pos m * 2 ^ Z.pos d.
Proof.
  induction d as [|d IH] using Pos.peano_ind.
  - cbn [Pos.iter]. rewrite Z.pow_1_r. lia.
  - rewrite Pos.iter_succ, Pos2Z.inj_xO, IH, Pos2Z.inj_succ, Z.pow_succ_r by lia.
    ring.
Qed.

(** [shl_align] moves to a lower exponent without changing the value. *)
Lemma shl_align_spec (m : positive) (e e' : Z) :
  let r := shl_align m e e' in
  snd r = Z.min e e' /\ Z.pos (fst r) = Z.pos m * 2 ^ (e - snd r).
Proof.
  unfold shl_align. destruct (e' - e) as [|d|d] eqn:E; cbn [fst snd].
  - split; [lia|]. rewrite Z.sub_diag. cbn. lia.
  - split; [lia|]. rewrite Z.sub_diag. cbn. lia.
  - split; [lia|]. rewrite iter_xO. do 2 f_equal. lia.
Qed.

Lemma binary_round_R (s : bool) (m : positive) (e K : Z) :
  (IZR (Z.pos m) * bpow e < bpow K)%R ->
  Z.max (K - 24) (-149) <= 103 ->
  let r := binary_round prec emax s m e in
  fin (Z.max (K - 24) (-149) + 1) r /\
  (Rabs (B2R r - IZR (cond_Zopp s (Z.pos m)) * bpow e) <=
     bpow (-23) * (IZR (Z.pos m) * bpow e) + bpow (-149))%R.
Proof.
  intros Hx Hk r; subst r; unfold binary_round.
  pose proof (digits_le_K m e K Hx) as Hd.
  pose proof (shl_align_spec m e (fexp prec emax (Z.pos (digits2_pos m) + e)))
    as [E V].
  destruct (shl_align m e (fexp prec emax (Z.pos (digits2_pos m) + e)))
    as [mz ez]; cbn [fst snd] in E, V.
  rewrite fexp_eq in E.
  assert (Val : (IZR (Z.pos mz) * bpow ez = IZR (Z.pos m) * bpow e)%R).
  { rewrite V, mult_IZR, (bpow_IZR (e - ez)), Rmult_assoc, <- bpow_add by lia.
    do 2 f_equal. lia. }
  assert (Val' : (IZR (cond_Zopp s (Z.pos mz)) * bpow ez =
                  IZR (cond_Zopp s (Z.pos m)) * bpow e)%R).
  { rewrite !IZR_cond_Zopp, !Rmult_assoc, Val. reflexivity. }
  destruct (round_R s mz ez K) as [F Err].
  - rewrite Val; exact Hx.
  - lia.
  - split.
    + apply fin_le with (1 := F). lia.
    + rewrite <- Val', <- Val. exact Err.
Qed.

Lemma binary_normalize_R (z e K : Z) :
  (Rabs (IZR z * bpow e) < bpow K)%R ->
  Z.max (K - 24) (-149) <= 103 ->
  let r := binary_normalize prec emax z e false in
  fin (Z.max (K - 24) (-149) + 1) r /\
  (Rabs (B2R r - IZR z * bpow e) <=
     bpow (-23) * Rabs (IZR z * bpow e) + bpow (-149))%R.
Proof.
  intros Hx Hk r; subst r.
  pose proof (bpow_pos e) as He. pose proof (bpow_pos (-149)) as Hu.
  destruct z as [|p|p]; cbn [binary_normalize].
  - split; [exact I|]. cbn [B2R].
    rewrite Rmult_0_l, Rminus_diag, Rabs_R0. lra.
  - assert (P : (0 <= IZR (Z.pos p) * bpow e)%R)
      by (apply Rmult_le_pos; [apply IZR_le; lia|lra]).
    rewrite (Rabs_pos_eq _ P) in Hx; rewrite (Rabs_pos_eq _ P).
    apply (binary_round_R false p e K); assumption.
  - assert (P : (0 <= IZR (Z.pos p) * bpow e)%R)
      by (apply Rmult_le_pos; [apply IZR_le; lia|lra]).
    assert (N : (IZR (Z.neg p) * bpow e = - (IZR (Z.pos p) * bpow e))%R).
    { change (Z.neg p) with (- Z.pos p). rewrite opp_IZR. ring. }
    rewrite N, Rabs_Ropp, (Rabs_pos_eq _ P) in Hx.
    rewrite N, Rabs_Ropp, (Rabs_pos_eq _ P).
    destruct (binary_round_R true p e K Hx Hk) as [F Err].
    split; [exact F|].
    cbn [cond_Zopp] in Err. rewrite opp_IZR in Err.
    replace (- IZR (Z.pos p) * bpow e)%R with (- (IZR (Z.pos p) * bpow e))%R
      in Err by ring.
    exact Err.
Qed.

Lemma aligned_value (s : bool) (m : positive) (e ez : Z) :
  ez <= e ->
  (IZR (cond_Zopp s (Z.pos (fst (shl_align m e ez)))) * bpow ez =
   IZR (cond_Zopp s (Z.pos m)) * bpow e)%R.
Proof.
  intros H. destruct (shl_align_spec m e ez) as [E V].
  rewrite Z.min_r in E by lia.
  rewrite !IZR_cond_Zopp, V, E, mult_IZR, (bpow_IZR (e - ez)) by lia.
  rewrite !Rmult_assoc, <- bpow_add. do 3 f_equal. lia.
Qed.

(** Closes an error bound when the exact result is 0. *)
Ltac zero_error Z0 :=
  match goal with
  | |- (Rabs ?t <= _)%R =>
      replace t with 0%R by (cbn [B2R]; ring); rewrite Rabs_R0; apply Z0
  end.

(** Addition of two finite values whose sum is below [2^K]. *)
Lemma add_R (a b : float) (k1 k2 K : Z) :
  fin k1 a -> fin k2 b ->
  (Rabs (B2R a + B2R b) < bpow K)%R ->
  Z.max (K - 24) (-149) <= 103 ->
  fin (Z.max (Z.max k1 k2) (Z.max (K - 24) (-149) + 1)) (a + b)%f32 /\
  (Rabs (B2R (a + b)%f32 - (B2R a + B2R b)) <=
     bpow (-23) * Rabs (B2R a + B2R b) + bpow (-149))%R.
Proof.
  intros Fa Fb Hx Hk.
  assert (Z0 : forall x, (0 <= bpow (-23) * Rabs x + bpow (-149))%R).
  { intros x. pose proof (bpow_pos (-23)); pose proof (bpow_pos (-149)).
    pose proof (Rabs_pos x). nra. }
  destruct a as [sa|sa| |sa ma ea], b as [sb|sb| |sb mb eb];
    cbn [fin] in Fa, Fb; try contradiction.
  - split.
    + unfold add, SFadd; destruct sa, sb; exact I.
    + replace (S754_zero sa + S754_zero sb)%f32 with
        (S754_zero (andb sa sb))
        by (unfold add, SFadd; destruct sa, sb; reflexivity).
      zero_error Z0.
  - split.
    + apply fin_le with (k := k2); [exact Fb|lia].
    + unfold add, SFadd. zero_error Z0.
  - split.
    + apply fin_le with (k := k1); [exact Fa|lia].
    + unfold add, SFadd. zero_error Z0.
  - unfold add, SFadd.
    set (ez := Z.min ea eb).
    set (z := cond_Zopp sa (Z.pos (fst (shl_align ma ea ez))) +
              cond_Zopp sb (Z.pos (fst (shl_align mb eb ez)))).
    assert (Val : (IZR z * bpow ez =
                   B2R (S754_finite sa ma ea) + B2R (S754_finite sb mb eb))%R).
    { subst z. rewrite plus_IZR, Rmult_plus_distr_r.
      rewrite !aligned_value by (subst ez; lia). reflexivity. }
    rewrite <- Val in *.
    destruct (binary_normalize_R z ez K Hx Hk) as [F Err].
    split; [|exact Err].
    apply fin_le with (1 := F); lia.
Qed.

(** Multiplication of two finite values whose product is below [2^K]. *)
Lemma mul_R (a b : float) (k1 k2 K : Z) :
  fin k1 a -> fin k2 b ->
  (Rabs (B2R a * B2R b) < bpow K)%R ->
  Z.max (k1 + k2) (Z.max (K - 24) (-149)) <= 103 ->
  fin (Z.max (k1 + k2) (Z.max (K - 24) (-149)) + 1) (a * b)%f32 /\
  (Rabs (B2R (a * b)%f32 - B2R a * B2R b) <=
     bpow (-23) * Rabs (B2R a * B2R b) + bpow (-149))%R.
Proof.
  intros Fa Fb Hx Hk.
  assert (Z0 : forall x, (0 <= bpow (-23) * Rabs x + bpow (-149))%R).
  { intros x. pose proof (bpow_pos (-23)); pose proof (bpow_pos (-149)).
    pose proof (Rabs_pos x). nra. }
  destruct a as [sa|sa| |sa ma ea], b as [sb|sb| |sb mb eb];
    cbn [fin] in Fa, Fb; try contradiction;
    try (split; [exact I|]; unfold mul, SFmul; zero_error Z0).
  unfold mul, SFmul.
  assert (Val : (B2R (S754_finite sa ma ea) * B2R (S754_finite sb mb eb) =
                 IZR (cond_Zopp (xorb sa sb) (Z.pos (ma * mb))) *
                 bpow (ea + eb))%R).
  { cbn [B2R]. rewrite !IZR_cond_Zopp, Pos2Z.inj_mul, mult_IZR, bpow_add.
    destruct sa, sb; cbn [xorb]; ring. }
  assert (Abs : (Rabs (B2R (S754_finite sa ma ea) * B2R (S754_finite sb mb eb))
                 = IZR (Z.pos (ma * mb)) * bpow (ea + eb))%R).
  { rewrite Val, IZR_cond_Zopp, Rmult_assoc, Rabs_sign.
    apply Rabs_pos_eq, Rmult_le_pos; [apply IZR_le; lia|left; apply bpow_pos]. }
  rewrite Abs in *. rewrite Val.
  destruct (round_R (xorb sa sb) (ma * mb) (ea + eb) K Hx) as [F Err]; [lia|].
  split; [|exact Err].
  apply fin_le with (1 := F); lia.
Qed.

(** ** The filter's invariant ellipse *)

Section Lyapunov.
Local Open Scope R_scope.

Lemma sq_bound (x c : R) : 0 <= c -> x * x <= c * c -> - c <= x <= c.
Proof. intros Hc H. split; nra. Qed.

Lemma V_bounds (p q : R) :
  V p q <= 1 / 16 -> (- 6 <= p <= 6) /\ (- 6 <= q <= 6).
Proof.
  unfold V, ca, cb; intros H.
  assert (Hp : (4 * (15320094 / 16777216) - (16015546 / 8388608) * (16015546 / 8388608)) * (p * p) <= 4 * (1 / 16)).
  { pose proof (Rle_0_sqr (2 * q - 16015546 / 8388608 * p)) as S.
    unfold Rsqr in S. lra. }
  assert (Hq : (4 * (15320094 / 16777216) - (16015546 / 8388608) * (16015546 / 8388608)) * (q * q) <= 4 * (15320094 / 16777216) * (1 / 16)).
  { pose proof (Rle_0_sqr (2 * (15320094 / 16777216) * p
                            - 16015546 / 8388608 * q)) as S.
    unfold Rsqr in S. lra. }
  split; apply sq_bound; lra.
Qed.

Lemma lyapunov (y0 y1 g : R) :
  V y0 y1 <= 1 / 16 ->
  - (1 / 100) <= g <= 1 / 100 ->
  V y1 (cb * y1 - ca * y0 + g) <= 1 / 16.
Proof.
  intros HV Hg.
  set (L := cb * y1 - 2 * ca * y0).
  assert (Id : V y1 (cb * y1 - ca * y0 + g) = ca * V y0 y1 + g * L + g * g)
    by (unfold V, L; ring).
  assert (HL2 : L * L <= 4 * ca * V y0 y1).
  { assert (E : 4 * ca * V y0 y1 - L * L = (4 * ca - cb * cb) * (y1 * y1))
      by (unfold V, L; ring).
    assert (0 <= (4 * ca - cb * cb) * (y1 * y1)).
    { apply Rmult_le_pos; [unfold ca, cb; lra|nra]. }
    lra. }
  assert (HL : - (239 / 500) <= L <= 239 / 500).
  { apply sq_bound; [lra|].
    assert (4 * ca * V y0 y1 <= 4 * ca * (1 / 16))
      by (apply Rmult_le_compat_l; [unfold ca; lra|exact HV]).
    unfold ca in *; lra. }
  assert (HgL : g * L <= (1 / 100) * (239 / 500)) by nra.
  assert (Hgg : g * g <= (1 / 100) * (1 / 100)) by nra.
  assert (HaV : ca * V y0 y1 <= ca * (1 / 16))
    by (apply Rmult_le_compat_l; [unfold ca; lra|exact HV]).
  rewrite Id. unfold ca in *. lra.
Qed.

End Lyapunov.

(** ** One step of the filter in binary32 *)

Lemma fin_bound (k : Z) (x : float) :
  fin k x -> (- bpow (24 + k) < B2R x < bpow (24 + k))%R.
Proof.
  pose proof (bpow_pos (24 + k)) as P.
  destruct x as [s|s| |s m e]; cbn [fin B2R]; try tauto; try lra.
  intros [Hm He].
  assert (H : (0 <= IZR (Z.pos m) * bpow e < bpow (24 + k))%R).
  { pose proof (bpow_pos e). split.
    - apply Rmult_le_pos; [apply IZR_le; lia|lra].
    - rewrite bpow_add, <- (bpow_IZR 24) by lia.
      apply Rlt_le_trans with (IZR (2 ^ 24) * bpow e)%R.
      + apply Rmult_lt_compat_r; [lra|apply IZR_lt; exact Hm].
      + apply Rmult_le_compat_l; [apply IZR_le; lia|apply bpow_le; lia]. }
  rewrite IZR_cond_Zopp. destruct s; lra.
Qed.

Lemma Rabs_le_interval (x c : R) : (Rabs x <= c)%R -> (- c <= x <= c)%R.
Proof. unfold Rabs; destruct (Rcase_abs x); lra. Qed.

Lemma err_interval (r t eps mu tm : R) :
  (Rabs (r - t) <= eps * Rabs t + mu)%R ->
  (- tm <= t <= tm)%R -> (0 <= eps)%R ->
  (- (eps * tm + mu) <= r - t <= eps * tm + mu)%R.
Proof.
  intros E T Heps.
  assert (Rabs t <= tm)%R by (apply Rabs_le; lra).
  assert (Rabs (r - t) <= eps * tm + mu)%R by nra.
  apply Rabs_le_interval in H0. lra.
Qed.

(** Turns the powers of two at hand into numerals. *)
Ltac bpow_num :=
  cbn [Z.add Pos.add Pos.succ Z.opp Z.pos_sub Z.sub Pos.pred_double
       Z.succ_double Z.pred_double Z.double] in *;
  repeat match goal with
  | H : context [bpow (Z.neg ?p)] |- _ => rewrite (bpow_neg_IZR p) in H
  | |- context [bpow (Z.neg ?p)] => rewrite (bpow_neg_IZR p)
  | H : context [bpow (Z.pos ?p)] |- _ => rewrite <- (bpow_IZR (Z.pos p)) in H by lia
  | |- context [bpow (Z.pos ?p)] => rewrite <- (bpow_IZR (Z.pos p)) by lia
  end;
  cbn [Z.pow Z.pow_pos Pos.iter Z.mul Pos.mul Z.add Pos.add Pos.succ Z.opp
       Z.pos_sub Z.max Z.compare Pos.compare Pos.compare_cont Z.sub
       Pos.pred_double Z.succ_double Z.pred_double Z.double] in *.

(** One call of [filterx] on a delay line inside the ellipse: the output is
    finite and obeys the difference equation up to [2^-18]. *)
Lemma filterx_step (fs : FilterState) (inp : float) :
  filt_ok fs ->
  fin (-33) (inp / GAIN)%f32 ->
  fin (-19) (snd (filterx fs inp)) /\
  (Rabs (B2R (snd (filterx fs inp)) -
         (B2R (xv1 fs) + B2R (inp / GAIN)%f32 + 2 * B2R (xv2 fs)
          - ca * B2R (yv1 fs) + cb * B2R (yv2 fs))) <= bpow (-18))%R.
Proof.
  intros (Fx1 & Fx2 & Fy1 & Fy2 & HV) Fx.
  unfold filterx; cbn [fst snd xv1 xv2 yv1 yv2].
  set (x0 := xv1 fs) in *. set (x1 := xv2 fs) in *.
  set (x2 := (inp / GAIN)%f32) in *.
  set (y0 := yv1 fs) in *. set (y1 := yv2 fs) in *.
  change (of_int 2) with (S754_finite false 8388608 (-22)).
  change (- lit 9131487721 10)%f32 with (S754_finite true 15320094 (-24)).
  change (lit 19092019151 10) with (S754_finite false 16015546 (-23)).
  destruct (V_bounds _ _ HV) as [By0 By1].
  pose proof (fin_bound _ _ Fx1) as Bx0.
  pose proof (fin_bound _ _ Fx2) as Bx1.
  pose proof (fin_bound _ _ Fx) as Bx2.
  assert (Eps : (0 <= bpow (-23))%R) by (left; apply bpow_pos).
  (* s1 = x0 + x2 *)
  destruct (add_R x0 x2 (-33) (-33) (-7)) as [F1 E1]; try assumption.
  { apply Rabs_def1; bpow_num; lra. }
  { lia. }
  apply fin_le with (k' := -30) in F1; [|lia].
  apply err_interval with (tm := bpow (-8)) in E1; [|bpow_num; lra|exact Eps].
  set (s1 := (x0 + x2)%f32) in *.
  (* p1 = 2 * x1 *)
  destruct (mul_R (S754_finite false 8388608 (-22)) x1 (-22) (-33) (-7))
    as [F2 E2]; try assumption.
  { cbn [fin]; lia. }
  { cbn [B2R cond_Zopp]. apply Rabs_def1; bpow_num; lra. }
  { lia. }
  apply fin_le with (k' := -30) in F2; [|lia].
  apply err_interval with (tm := bpow (-8)) in E2;
    [|cbn [B2R cond_Zopp]; bpow_num; lra|exact Eps].
  set (p1 := (S754_finite false 8388608 (-22) * x1)%f32) in *.
  (* s2 = s1 + p1 *)
  destruct (add_R s1 p1 _ _ (-6) F1 F2) as [F3 E3].
  { apply Rabs_def1; cbn [B2R cond_Zopp] in *; bpow_num; lra. }
  { lia. }
  apply fin_le with (k' := -29) in F3; [|lia].
  apply err_interval with (tm := bpow (-6)) in E3;
    [|cbn [B2R cond_Zopp] in *; bpow_num; lra|exact Eps].
  set (s2 := (s1 + p1)%f32) in *.
  (* p2 = (-a) * y0 *)
  destruct (mul_R (S754_finite true 15320094 (-24)) y0 (-24) (-19) 3)
    as [F4 E4]; try assumption.
  { cbn [fin]; lia. }
  { cbn [B2R cond_Zopp]. apply Rabs_def1; bpow_num; lra. }
  { lia. }
  apply fin_le with (k' := -20) in F4; [|lia].
  apply err_interval with (tm := 6%R) in E4;
    [|cbn [B2R cond_Zopp]; bpow_num; lra|exact Eps].
  set (p2 := (S754_finite true 15320094 (-24) * y0)%f32) in *.
  (* s3 = s2 + p2 *)
  destruct (add_R s2 p2 _ _ 3 F3 F4) as [F5 E5].
  { apply Rabs_def1; cbn [B2R cond_Zopp] in *; bpow_num; lra. }
  { lia. }
  apply fin_le with (k' := -20) in F5; [|lia].
  apply err_interval with (tm := 7%R) in E5;
    [|cbn [B2R cond_Zopp] in *; bpow_num; lra|exact Eps].
  set (s3 := (s2 + p2)%f32) in *.
  (* p3 = b * y1 *)
  destruct (mul_R (S754_finite false 16015546 (-23)) y1 (-23) (-19) 4)
    as [F6 E6]; try assumption.
  { cbn [fin]; lia. }
  { cbn [B2R cond_Zopp]. apply Rabs_def1; bpow_num; lra. }
  { lia. }
  apply fin_le with (k' := -19) in F6; [|lia].
  apply err_interval with (tm := 12%R) in E6;
    [|cbn [B2R cond_Zopp]; bpow_num; lra|exact Eps].
  set (p3 := (S754_finite false 16015546 (-23) * y1)%f32) in *.
  (* the exact sum s3 + p3 is inside the ellipse already *)
  assert (T7 : (- 6 <= B2R s3 + B2R p3 <= 6)%R).
  { set (g := (B2R s3 + B2R p3 - (cb * B2R y1 - ca * B2R y0))%R).
    assert (Hg : (- (1 / 100) <= g <= 1 / 100)%R).
    { unfold g, ca, cb. cbn [B2R cond_Zopp] in *. bpow_num. lra. }
    pose proof (lyapunov _ _ g HV Hg) as HV'.
    apply V_bounds in HV'. unfold g in HV'.
    replace (cb * B2R y1 - ca * B2R y0 +
             (B2R s3 + B2R p3 - (cb * B2R y1 - ca * B2R y0)))%R
      with (B2R s3 + B2R p3)%R in HV' by ring.
    tauto. }
  (* y2 = s3 + p3 *)
  destruct (add_R s3 p3 _ _ 3 F5 F6) as [F7 E7].
  { apply Rabs_def1; bpow_num; lra. }
  { lia. }
  apply fin_le with (k' := -19) in F7; [|lia].
  apply err_interval with (tm := 6%R) in E7; [|lra|exact Eps].
  set (y2 := (s3 + p3)%f32) in *.
  split; [exact F7|].
  apply Rabs_le. unfold ca, cb. cbn [B2R cond_Zopp] in *.
  pose proof (bpow_pos (-149)) as Mu.
  assert (U : (bpow (-149) <= bpow (-40))%R) by (apply bpow_le; lia).
  clearbody x0 x1 x2 y0 y1 s1 p1 s2 p2 s3 p3 y2.
  clear - E1 E2 E3 E4 E5 E6 E7 Mu U.
  bpow_num. split; lra.
Qed.

Lemma filterx_ok (fs : FilterState) (inp : float) :
  filt_ok fs ->
  fin (-33) (inp / GAIN)%f32 ->
  filt_ok (fst (filterx fs inp)) /\
  snd (filterx fs inp) = yv2 (fst (filterx fs inp)).
Proof.
  intros Hf Fx. destruct (filterx_step fs inp Hf Fx) as [F7 E].
  destruct Hf as (Fx1 & Fx2 & Fy1 & Fy2 & HV).
  split; [|reflexivity].
  change (snd (filterx fs inp)) with (yv2 (fst (filterx fs inp))) in F7, E.
  unfold filt_ok.
  change (xv1 (fst (filterx fs inp))) with (xv2 fs).
  change (xv2 (fst (filterx fs inp))) with (inp / GAIN)%f32.
  change (yv1 (fst (filterx fs inp))) with (yv2 fs).
  split; [exact Fx2|split; [exact Fx|split; [exact Fy2|split; [exact F7|]]]].
  pose proof (fin_bound _ _ Fx1) as Bx0.
  pose proof (fin_bound _ _ Fx2) as Bx1.
  pose proof (fin_bound _ _ Fx) as Bx2.
  apply Rabs_le_interval in E.
  set (y2 := yv2 (fst (filterx fs inp))) in *. clearbody y2.
  set (g := (B2R y2 - (cb * B2R (yv2 fs) - ca * B2R (yv1 fs)))%R).
  replace (B2R y2) with (cb * B2R (yv2 fs) - ca * B2R (yv1 fs) + g)%R
    by (unfold g; ring).
  apply lyapunov; [exact HV|].
  unfold g. bpow_num. split; lra.
Qed.

(** ** Readings of the ADC *)

Lemma finb_fin (k : Z) (x : float) : finb k x = true -> fin k x.
Proof.
  destruct x as [s|s| |s m e]; cbn [finb fin]; try discriminate; auto.
  rewrite !andb_true_iff, Z.ltb_lt, !Z.leb_le. tauto.
Qed.

Lemma adc_in_values (z : Z) : adc z -> In z adc_values.
Proof.
  unfold adc, ADC_RANGE, adc_values; intros H.
  rewrite <- (Z2Nat.id z) by lia.
  apply in_map, in_seq; lia.
Qed.

Lemma forall_adc (P : Z -> bool) :
  forallb P adc_values = true -> forall z, adc z -> P z = true.
Proof.
  intros H z Hz. rewrite forallb_forall in H. apply H, adc_in_values, Hz.
Qed.

Lemma filter_input_fin (x : Z) :
  adc x -> fin (-33) (x_gs_of x / GAIN)%f32.
Proof.
  intros H. apply finb_fin.
  apply (forall_adc (fun z => finb (-33) (x_gs_of z / GAIN)%f32)); [|exact H].
  vm_compute. reflexivity.
Qed.

Lemma int16_small (z : Z) : -32768 <= z <= 32767 -> int16 z = z.
Proof. unfold int16; intros H; Z.div_mod_to_equations; lia. Qed.

Lemma of_int_fin (z : Z) : -1024 <= z <= 1024 -> fin (-12) (of_int z).
Proof.
  intros H. unfold of_int.
  destruct (binary_normalize_R z 0 11) as [F _].
  - replace (bpow 0) with 1%R by reflexivity. rewrite Rmult_1_r.
    apply Rabs_def1; bpow_num.
    + apply IZR_lt; lia.
    + apply (IZR_lt (-2048) z); lia.
  - lia.
  - apply fin_le with (1 := F); lia.
Qed.

Lemma Rabs_mul_lt (a b A B : R) :
  (- A < a < A)%R -> (- B < b < B)%R -> (Rabs (a * b) < A * B)%R.
Proof.
  intros Ha Hb. rewrite Rabs_mult.
  assert (Rabs a < A)%R by (apply Rabs_def1; lra).
  assert (Rabs b < B)%R by (apply Rabs_def1; lra).
  pose proof (Rabs_pos a); pose proof (Rabs_pos b).
  apply Rmult_le_0_lt_compat; lra.
Qed.

(** The gyro rate term of a tick is finite. *)
Lemma d_tilt_fin (pot g : Z) :
  adc pot -> adc g -> fin (-16) (d_tilt_rads_of pot g).
Proof.
  unfold adc, ADC_RANGE; intros Hp Hg.
  unfold d_tilt_rads_of, gyro_offset_of.
  rewrite !int16_small by lia.
  pose proof (of_int_fin (pot - 512) ltac:(lia)) as F1.
  pose proof (of_int_fin (512 - g) ltac:(lia)) as F2.
  pose proof (fin_bound _ _ F1) as B1.
  pose proof (fin_bound _ _ F2) as B2.
  set (a1 := of_int (pot - 512)) in *. set (a2 := of_int (512 - g)) in *.
  unfold f_0_1, GYRO_RAD_PER_ADC_UNIT.
  (* the offset *)
  destruct (mul_R a1 (S754_finite false 13421773 (-27)) (-12) (-27) 9)
    as [F3 _]; try assumption.
  { cbn [fin]; lia. }
  { replace (bpow 9) with (bpow 12 * bpow (-3))%R by (bpow_num; lra).
    apply Rabs_mul_lt; [bpow_num; lra|].
    cbn [B2R cond_Zopp]; bpow_num; lra. }
  { lia. }
  apply fin_le with (k' := -14) in F3; [|lia].
  pose proof (fin_bound _ _ F3) as B3.
  set (go := (a1 * S754_finite false 13421773 (-27))%f32) in *.
  (* the sum *)
  destruct (add_R a2 go _ _ 13 F2 F3) as [F4 _].
  { apply Rabs_def1; bpow_num; lra. }
  { lia. }
  apply fin_le with (k' := -10) in F4; [|lia].
  pose proof (fin_bound _ _ F4) as B4.
  set (sm := (a2 + go)%f32) in *.
  (* the rate *)
  destruct (mul_R (S754_finite false 10980662 (-31)) sm (-31) (-10) 7)
    as [F5 _]; try assumption.
  { cbn [fin]; lia. }
  { replace (bpow 7) with (bpow (-7) * bpow 14)%R by (bpow_num; lra).
    apply Rabs_mul_lt; [|bpow_num; lra].
    cbn [B2R cond_Zopp]; bpow_num; lra. }
  { lia. }
Qed.

(** ** Absence of NaN *)

Lemma binary_round_aux_not_nan (s : bool) (mx ex : Z) (lx : location) :
  0 <= mx -> is_nan (binary_round_aux prec emax s mx ex lx) = false.
Proof.
  intros H.
  destruct (binary_round_aux_spec s mx ex lx H) as (m & e & Hm & _ & ->).
  destruct m as [|p|p]; [reflexivity| |lia].
  destruct (e <=? 104); reflexivity.
Qed.

Lemma binary_normalize_not_nan (z e : Z) :
  is_nan (binary_normalize prec emax z e false) = false.
Proof.
  destruct z as [|p|p]; cbn [binary_normalize]; [reflexivity| |];
    unfold binary_round;
    destruct (shl_align p e _) as [mz ez];
    apply binary_round_aux_not_nan; lia.
Qed.

(** ** The tilt estimate stays finite *)

Lemma digits_unique (m : positive) (d : Z) :
  2 ^ (d - 1) <= Z.pos m < 2 ^ d -> Z.pos (digits2_pos m) = d.
Proof.
  intros [Hlo Hhi].
  pose proof (digits2_pos_bounds m) as [Dlo Dhi].
  set (D := Z.pos (digits2_pos m)) in *.
  assert (0 < d).
  { destruct (Z_lt_le_dec 0 d); [assumption|].
    rewrite Z.pow_neg_r in Hlo by lia.
    destruct (Z.eq_dec d 0) as [->|]; [cbn in Hhi; lia|].
    rewrite Z.pow_neg_r in Hhi by lia. lia. }
  destruct (Z.lt_trichotomy D d) as [L|[E|G]]; [|exact E|].
  - assert (2 ^ D <= 2 ^ (d - 1)) by (apply Z.pow_le_mono_r; lia). lia.
  - assert (2 ^ d <= 2 ^ (D - 1)) by (apply Z.pow_le_mono_r; lia). lia.
Qed.

(** At the top of the tilt range a small increment of the same sign is
    absorbed: [2^34 + inc] rounds back to [2^34]. *)
Lemma add_at_top (s : bool) (mi : positive) (ei : Z) :
  Z.pos mi < 2 ^ (10 - ei) -> -149 <= ei <= -14 ->
  (S754_finite s 8388608 11 + S754_finite s mi ei)%f32 =
  S754_finite s 8388608 11.
Proof.
  intros Hmi Hei. unfold add, SFadd.
  replace (Z.min 11 ei) with ei by lia.
  destruct (shl_align_spec 8388608 11 ei) as [E1 V1].
  destruct (shl_align_spec mi ei ei) as [E2 V2].
  rewrite Z.min_r in E1 by lia. rewrite Z.min_id in E2.
  rewrite E1 in V1. rewrite E2, Z.sub_diag, Z.pow_0_r, Z.mul_1_r in V2.
  set (a := fst (shl_align 8388608 11 ei)) in *.
  set (b := fst (shl_align mi ei ei)) in *.
  assert (Hn : 0 < 11 - ei) by lia.
  assert (Hp : 0 < 2 ^ (11 - ei)) by (apply Z.pow_pos_nonneg; lia).
  assert (Hh : 2 ^ (11 - ei) = 2 * 2 ^ (10 - ei)).
  { rewrite <- Z.pow_succ_r by lia. f_equal; lia. }
  assert (Hz : cond_Zopp s (Z.pos a) + cond_Zopp s (Z.pos b) =
               cond_Zopp s (Z.pos (a + b))) by (destruct s; reflexivity).
  rewrite Hz.
  assert (HM : Z.pos (a + b) = 8388608 * 2 ^ (11 - ei) + Z.pos mi)
    by (rewrite Pos2Z.inj_add, V1, V2; reflexivity).
  assert (Hd : Z.pos (digits2_pos (a + b)) = 35 - ei).
  { apply digits_unique. rewrite HM.
    replace (35 - ei - 1) with (23 + (11 - ei)) by lia.
    replace (35 - ei) with (24 + (11 - ei)) by lia.
    rewrite !Z.pow_add_r by lia.
    change (2 ^ 23) with 8388608. change (2 ^ 24) with 16777216. lia. }
  assert (Hr : binary_round prec emax s (a + b) ei = S754_finite s 8388608 11).
  { unfold binary_round. rewrite Hd, fexp_eq.
    replace (Z.max (35 - ei + ei - 24) (-149)) with 11 by lia.
    unfold shl_align. destruct (11 - ei) as [|q|q] eqn:Eq; try lia.
    destruct (round_exact_spec s (Z.pos (a + b)) ei) as
      (m2 & m & e & -> & Bm & Be & Be' & V & B2 & _ & _ & RD & NM); [lia| |].
    { cbn [Zdigits2]. rewrite Hd, fexp_eq. lia. }
    cbn [Zdigits2] in *. rewrite Hd, fexp_eq in *.
    replace (Z.max 0 (Z.max (35 - ei + ei - 24) (-149) - ei)) with (Z.pos q)
      in * by lia.
    assert (Q : Z.pos (a + b) / 2 ^ Z.pos q = 8388608).
    { symmetry. apply Z.div_unique with (r := Z.pos mi); [lia|]. lia. }
    assert (Rm : Z.pos (a + b) mod 2 ^ Z.pos q = Z.pos mi).
    { symmetry. apply Z.mod_unique with (q := 8388608); [lia|]. lia. }
    assert (M2 : m2 = 8388608).
    { rewrite <- Q. apply RD; [lia|]. rewrite Rm.
      replace (Z.pos q - 1) with (10 - ei) by lia. exact Hmi. }
    destruct NM as [-> ->]; [rewrite M2; reflexivity|].
    rewrite M2. f_equal. lia. }
  destruct s; cbn [cond_Zopp Z.opp binary_normalize]; exact Hr.
Qed.

Lemma IZR_bpow_le (m : positive) (e p : Z) :
  (IZR (Z.pos m) * bpow e <= bpow p)%R ->
  e <= p /\ Z.pos m <= 2 ^ (p - e).
Proof.
  intros H.
  assert (He : e <= p).
  { destruct (Z_lt_le_dec p e) as [L|]; [|lia].
    assert (bpow p < bpow e)%R.
    { replace e with (p + (e - p)) by lia. rewrite bpow_add.
      assert (2 <= bpow (e - p))%R.
      { replace (e - p) with (1 + (e - p - 1)) by lia. rewrite bpow_add.
        pose proof (bpow_le 0 (e - p - 1) ltac:(lia)) as B.
        change (bpow 0) with 1%R in B. change (bpow 1) with (2 * 1)%R. lra. }
      pose proof (bpow_pos p). nra. }
    assert (1 <= IZR (Z.pos m))%R by (apply IZR_le; lia).
    pose proof (bpow_pos e). nra. }
  split; [exact He|].
  apply le_IZR. rewrite (bpow_IZR (p - e)) by lia.
  replace p with ((p - e) + e) in H at 1 by lia.
  rewrite bpow_add in H. pose proof (bpow_pos e).
  apply Rmult_le_reg_r with (bpow e); assumption.
Qed.

(** Rounding a value of magnitude at most [2^p] gives at most [2^p], with an
    exponent of at most [p - 23]. *)
Lemma binary_round_le_pow (s : bool) (m : positive) (e p : Z) :
  (IZR (Z.pos m) * bpow e <= bpow p)%R ->
  -125 <= p <= 126 ->
  let r := binary_round prec emax s m e in
  fin (p - 23) r /\ (Rabs (B2R r) <= bpow p)%R.
Proof.
  intros Hx Hp r; subst r; unfold binary_round.
  pose proof (shl_align_spec m e (fexp prec emax (Z.pos (digits2_pos m) + e)))
    as [E V].
  destruct (shl_align m e (fexp prec emax (Z.pos (digits2_pos m) + e)))
    as [mz ez]; cbn [fst snd] in E, V.
  rewrite fexp_eq in E.
  assert (Val : (IZR (Z.pos mz) * bpow ez = IZR (Z.pos m) * bpow e)%R).
  { rewrite V, mult_IZR, (bpow_IZR (e - ez)), Rmult_assoc, <- bpow_add by lia.
    do 2 f_equal. lia. }
  rewrite <- Val in Hx.
  destruct (IZR_bpow_le mz ez p Hx) as [Hez Hmz].
  pose proof (digits2_pos_bounds mz) as [Dlo Dhi].
  set (dz := Z.pos (digits2_pos mz)) in *.
  pose proof (digits2_pos_bounds m) as [Dlo' Dhi'].
  set (d := Z.pos (digits2_pos m)) in *.
  assert (Hdz : dz + ez = d + e).
  { subst dz; rewrite (digits_unique mz (d + e - ez)); [lia|].
    rewrite V. replace (d + e - ez - 1) with ((d - 1) + (e - ez)) by lia.
    replace (d + e - ez) with (d + (e - ez)) by lia.
    rewrite !Z.pow_add_r by lia.
    assert (0 < 2 ^ (e - ez)) by (apply Z.pow_pos_nonneg; lia).
    split; [apply Z.mul_le_mono_nonneg_r; lia|].
    apply Z.mul_lt_mono_pos_r; lia. }
  assert (Hdp : dz + ez <= p + 1).
  { destruct (Z_lt_le_dec (p + 1) (dz + ez)) as [L|]; [|lia].
    assert (2 ^ (p - ez) < 2 ^ (dz - 1)); [|lia].
    apply Z.pow_lt_mono_r; lia. }
  destruct (round_exact_spec s (Z.pos mz) ez) as
    (m2 & mo & eo & -> & Bm & Be & Be' & Vo & B2 & M24 & X0 & RD & NM); [lia| |].
  { cbn [Zdigits2]. fold dz. rewrite fexp_eq. lia. }
  cbn [Zdigits2] in *. fold dz in Be, Be', Vo, B2, X0, RD, NM.
  rewrite fexp_eq in *.
  set (n := Z.max 0 (Z.max (dz + ez - 24) (-149) - ez)) in *.
  assert (Hn : ez + n = Z.max (d + e - 24) (-149)) by lia.
  assert (Hn0 : 0 <= n) by lia.
  clearbody n dz d.
  assert (Hpn : 0 < 2 ^ n) by (apply Z.pow_pos_nonneg; lia).
  (* the rounded mantissa, at exponent [ez + n], is at most [2^(p-(ez+n))] *)
  assert (Top : ez + n <= p - 23 /\ m2 <= 2 ^ (p - (ez + n)) /\
                (eo <= p - 23)).
  { destruct (Z.eq_dec (dz + ez) (p + 1)) as [Eq|Ne].
    - (* the value is [2^p] itself *)
      assert (Emz : Z.pos mz = 2 ^ (p - ez)).
      { assert (2 ^ (dz - 1) = 2 ^ (p - ez)) by (f_equal; lia). lia. }
      assert (En : ez + n = p - 23) by lia.
      assert (Q : Z.pos mz / 2 ^ n = 2 ^ 23).
      { rewrite Emz. replace (p - ez) with (23 + n) by lia.
        rewrite Z.pow_add_r by lia. apply Z.div_mul; lia. }
      assert (Rm : Z.pos mz mod 2 ^ n = 0).
      { rewrite Emz. replace (p - ez) with (23 + n) by lia.
        rewrite Z.pow_add_r by lia. apply Z.mod_mul; lia. }
      assert (M2 : m2 = 2 ^ 23).
      { destruct (Z.eq_dec n 0) as [N0|N0].
        - rewrite (X0 N0), Emz. f_equal; lia.
        - rewrite <- Q. apply RD; [lia|]. rewrite Rm.
          apply Z.pow_pos_nonneg; lia. }
      destruct NM as [_ Ee]; [rewrite M2; lia|].
      split; [lia|split; [|lia]].
      rewrite M2, En. replace (p - (p - 23)) with 23 by lia. lia.
    - (* the value is below [2^p] *)
      assert (En : ez + n <= p - 24) by lia.
      split; [lia|split; [|lia]].
      apply Z.le_trans with (1 := M24), Z.pow_le_mono_r; lia. }
  destruct Top as (T1 & T2 & T3).
  assert (Valo : (IZR mo * bpow eo = IZR m2 * bpow (ez + n))%R).
  { rewrite <- Vo, mult_IZR, (bpow_IZR (eo - (ez + n))) by lia.
    rewrite Rmult_assoc, <- bpow_add. do 2 f_equal. lia. }
  assert (Bound : (0 <= IZR mo * bpow eo <= bpow p)%R).
  { pose proof (bpow_pos eo). split.
    - apply Rmult_le_pos; [apply IZR_le; lia|lra].
    - rewrite Valo.
      replace (bpow p) with (bpow (p - (ez + n)) * bpow (ez + n))%R
        by (rewrite <- bpow_add; f_equal; lia).
      rewrite <- (bpow_IZR (p - (ez + n))) by lia.
      apply Rmult_le_compat_r; [left; apply bpow_pos|apply IZR_le; exact T2]. }
  destruct mo as [|q|q]; [| |lia].
  - split; [exact I|]. cbn [B2R]. rewrite Rabs_R0. left; apply bpow_pos.
  - split; [cbn [fin]; lia|].
    cbn [B2R]. rewrite IZR_cond_Zopp, Rmult_assoc, Rabs_sign.
    rewrite Rabs_pos_eq; lra.
Qed.

Lemma add_le_pow (a b : float) (k1 k2 p : Z) :
  fin k1 a -> fin k2 b -> k1 <= p - 23 -> k2 <= p - 23 ->
  -125 <= p <= 126 ->
  (Rabs (B2R a + B2R b) <= bpow p)%R ->
  fin (p - 23) (a + b)%f32 /\ (Rabs (B2R (a + b)%f32) <= bpow p)%R.
Proof.
  intros Fa Fb H1 H2 Hp Hx.
  destruct a as [sa|sa| |sa ma ea], b as [sb|sb| |sb mb eb];
    cbn [fin] in Fa, Fb; try contradiction.
  - replace (S754_zero sa + S754_zero sb)%f32 with (S754_zero (andb sa sb))
      by (unfold add, SFadd; destruct sa, sb; reflexivity).
    split; [exact I|]. cbn [B2R]. rewrite Rabs_R0. left; apply bpow_pos.
  - unfold add, SFadd. split; [cbn [fin]; lia|].
    cbn [B2R] in Hx |- *. rewrite Rplus_0_l in Hx. exact Hx.
  - unfold add, SFadd. split; [cbn [fin]; lia|].
    cbn [B2R] in Hx |- *. rewrite Rplus_0_r in Hx. exact Hx.
  - unfold add, SFadd.
    set (ez := Z.min ea eb).
    set (z := cond_Zopp sa (Z.pos (fst (shl_align ma ea ez))) +
              cond_Zopp sb (Z.pos (fst (shl_align mb eb ez)))).
    assert (Val : (IZR z * bpow ez =
                   B2R (S754_finite sa ma ea) + B2R (S754_finite sb mb eb))%R).
    { subst z. rewrite plus_IZR, Rmult_plus_distr_r.
      rewrite !aligned_value by (subst ez; lia). reflexivity. }
    rewrite <- Val in Hx.
    pose proof (bpow_pos ez) as Pe.
    destruct z as [|q|q]; cbn [binary_normalize].
    + split; [exact I|]. cbn [B2R]. rewrite Rabs_R0. left; apply bpow_pos.
    + apply binary_round_le_pow; [|exact Hp].
      rewrite Rabs_pos_eq in Hx; [exact Hx|].
      apply Rmult_le_pos; [apply IZR_le; lia|lra].
    + apply binary_round_le_pow; [|exact Hp].
      change (Z.neg q) with (- Z.pos q) in Hx.
      rewrite opp_IZR, Ropp_mult_distr_l_reverse, Rabs_Ropp in Hx.
      rewrite Rabs_pos_eq in Hx; [exact Hx|].
      apply Rmult_le_pos; [apply IZR_le; lia|lra].
Qed.

Lemma B2R_finite (s : bool) (m : positive) (e : Z) :
  B2R (S754_finite s m e) =
  ((if s then -1 else 1) * (IZR (Z.pos m) * bpow e))%R.
Proof. cbn [B2R]. rewrite IZR_cond_Zopp. ring. Qed.

(** The tilt estimate stays finite: below [2^34] it cannot be pushed over
    [2^34], and at [2^34] the increment is absorbed. *)
Lemma tilt_step (t inc : float) :
  fin 11 t -> (Rabs (B2R t) <= bpow 34)%R -> fin (-14) inc ->
  fin 11 (t + inc)%f32 /\ (Rabs (B2R (t + inc)%f32) <= bpow 34)%R.
Proof.
  intros Ft Bt Fi.
  destruct (Rle_or_lt (Rabs (B2R t + B2R inc)) (bpow 34)) as [Hle|Hgt].
  { apply (add_le_pow t inc 11 (-14) 34); try assumption; lia. }
  pose proof (fin_bound _ _ Fi) as Bi.
  apply Rabs_le_interval in Bt.
  assert (P34 : bpow 34 = 17179869184%R) by (bpow_num; reflexivity).
  assert (P10 : bpow (24 + -14) = 1024%R) by (bpow_num; reflexivity).
  rewrite P34 in *. rewrite P10 in *.
  assert (Hx : (B2R t + B2R inc < - 17179869184 \/
                17179869184 < B2R t + B2R inc)%R).
  { unfold Rabs in Hgt. destruct (Rcase_abs (B2R t + B2R inc)); lra. }
  destruct t as [st|st| |st mt et]; cbn [fin] in Ft; try contradiction;
    [cbn [B2R] in Hx; lra|].
  destruct inc as [si|si| |si mi ei]; cbn [fin] in Fi; try contradiction;
    [rewrite B2R_finite in Hx, Bt; cbn [B2R] in Hx; lra|].
  destruct Ft as [Hmt Het]. destruct Fi as [Hmi Hei].
  rewrite (B2R_finite st), (B2R_finite si) in Hx.
  rewrite B2R_finite in Bt, Bi.
  pose proof (bpow_pos et) as Pet. pose proof (bpow_pos ei) as Pei.
  remember (IZR (Z.pos mt) * bpow et)%R as A eqn:EA.
  remember (IZR (Z.pos mi) * bpow ei)%R as B eqn:EB.
  assert (A0 : (0 < A)%R)
    by (subst A; apply Rmult_lt_0_compat; [apply IZR_lt; lia|lra]).
  assert (B0 : (0 < B)%R)
    by (subst B; apply Rmult_lt_0_compat; [apply IZR_lt; lia|lra]).
  assert (HA : (A <= 17179869184)%R) by (destruct st; lra).
  assert (HB : (B < 1024)%R) by (destruct si; lra).
  assert (Hs : si = st /\ (17179869184 - 1024 < A)%R)
    by (destruct st, si; split; try reflexivity; lra).
  destruct Hs as [-> HA'].
  (* the exponent of [t] is 11 and its mantissa is [2^23] *)
  assert (Eet : et = 11).
  { destruct (Z.eq_dec et 11) as [|Ne]; [assumption|exfalso].
    assert (bpow et <= 1024)%R.
    { replace 1024%R with (bpow 10) by (bpow_num; reflexivity).
      apply bpow_le; lia. }
    assert (IZR (Z.pos mt) <= 16777215)%R by (apply IZR_le; lia).
    assert (0 < IZR (Z.pos mt))%R by (apply IZR_lt; lia).
    assert (A <= 16777215 * 1024)%R
      by (subst A; apply Rmult_le_compat; lra).
    lra. }
  subst et.
  assert (P11 : bpow 11 = 2048%R) by (bpow_num; reflexivity).
  rewrite P11 in EA.
  assert (Emt : mt = 8388608%positive).
  { assert (Z.pos mt <= 8388608) by (apply le_IZR; lra).
    assert (8388607 < Z.pos mt) by (apply lt_IZR; lra).
    lia. }
  subst mt.
  assert (Hmi' : Z.pos mi < 2 ^ (10 - ei)).
  { apply lt_IZR. rewrite (bpow_IZR (10 - ei)) by lia.
    apply Rmult_lt_reg_r with (bpow ei); [exact Pei|].
    rewrite <- bpow_add. replace (10 - ei + ei) with 10 by lia.
    replace (bpow 10) with 1024%R by (bpow_num; reflexivity).
    rewrite <- EB. exact HB. }
  rewrite add_at_top by (try assumption; lia).
  split; [cbn [fin]; lia|].
  rewrite B2R_finite, Rabs_sign, P11, Rabs_pos_eq; lra.
Qed.

(** ** One Balancing update *)

Lemma fin_not_nan (k : Z) (x : float) : fin k x -> is_nan x = false.
Proof. destruct x; cbn [fin]; try contradiction; reflexivity. Qed.

(** A finite value that exceeds neither bound has a small exponent. *)
Lemma within_fin (k : Z) (t : float) :
  fin k t -> within_max t -> fin (-22) t.
Proof.
  destruct t as [s|s| |s m e]; cbn [fin]; try contradiction; [auto|].
  intros [Hm He] [Hhi Hlo]. split; [exact Hm|split; [lia|]].
  unfold gtb, ltb, SFltb, MAX_TILT_INT in Hhi, Hlo.
  destruct s; cbn [opp SFopp negb SFcompare] in Hhi, Hlo.
  - destruct (e ?= -22) eqn:E; [| |discriminate].
    + apply Z.compare_eq in E; lia.
    + rewrite Z.compare_lt_iff in E; lia.
  - destruct (-22 ?= e) eqn:E; [|discriminate|].
    + apply Z.compare_eq in E; lia.
    + rewrite Z.compare_gt_iff in E; lia.
Qed.

Lemma seed_fin (x : Z) : adc x -> fin (-22) (x_gs_of x).
Proof.
  intros H. apply finb_fin.
  apply (forall_adc (fun z => finb (-22) (x_gs_of z))); [|exact H].
  vm_compute. reflexivity.
Qed.

Lemma K_p_fin (p : Z) : adc p -> fin (-20) (TILT_FACT p).
Proof.
  intros H. apply finb_fin.
  apply (forall_adc (fun z => finb (-20) (TILT_FACT z))); [|exact H].
  vm_compute. reflexivity.
Qed.

Lemma K_d_fin (p : Z) : adc p -> fin (-13) (D_TILT_FACT p).
Proof.
  intros H. apply finb_fin.
  apply (forall_adc (fun z => finb (-13) (D_TILT_FACT z))); [|exact H].
  vm_compute. reflexivity.
Qed.

Lemma clamp_fin (k : Z) (t : float) :
  fin k t -> fin (-22) (clamp_tilt_int t).
Proof.
  intros F. apply within_fin with (k := Z.max k (-22)); [|apply clamp_within].
  unfold clamp_tilt_int.
  destruct (t >? MAX_TILT_INT)%f32.
  - destruct (_ <? _)%f32; cbn; lia.
  - destruct (_ <? _)%f32; [cbn; lia|].
    apply fin_le with (1 := F); lia.
Qed.

(** One Balancing update, on finite data: the increment, the new tilt, the
    new integral and the speed command are finite. *)
Lemma balancing_fin (tilt tilt_int d xf : float) (tp dp : Z) :
  tilt_ok tilt -> fin (-22) tilt_int ->
  fin (-16) d -> fin (-19) xf -> adc tp -> adc dp ->
  let tilt' := (tilt + (d + xf))%f32 in
  let tilt_int' := clamp_tilt_int (tilt_int + tilt')%f32 in
  tilt_ok tilt' /\ fin (-22) tilt_int' /\
  fin 20 (tilt' * TILT_FACT tp + tilt_int' * TILT_INT_FACT
          + d * D_TILT_FACT dp)%f32.
Proof.
  intros [Ft Bt] Fi Fd Fx Htp Hdp tilt' tilt_int'.
  pose proof (fin_bound _ _ Fd) as Bd.
  pose proof (fin_bound _ _ Fx) as Bx.
  (* the increment *)
  destruct (add_R d xf _ _ 9 Fd Fx) as [Finc _].
  { apply Rabs_def1; bpow_num; lra. }
  { lia. }
  apply fin_le with (k' := -14) in Finc; [|lia].
  (* the tilt *)
  destruct (tilt_step tilt (d + xf)%f32 Ft Bt Finc) as [Ft' Bt'].
  fold tilt' in Ft', Bt'.
  (* the integral *)
  pose proof (fin_bound _ _ Fi) as Bi.
  pose proof (Rabs_le_interval _ _ Bt') as It'.
  destruct (add_R tilt_int tilt' _ _ 35 Fi Ft') as [Fs _].
  { apply Rabs_def1; bpow_num; lra. }
  { lia. }
  pose proof (clamp_fin _ _ Fs) as Fi'. fold tilt_int' in Fi'.
  split; [split; assumption|split; [exact Fi'|]].
  clearbody tilt' tilt_int'.
  (* the speed *)
  pose proof (K_p_fin tp Htp) as Fkp. pose proof (fin_bound _ _ Fkp) as Bkp.
  pose proof (K_d_fin dp Hdp) as Fkd. pose proof (fin_bound _ _ Fkd) as Bkd.
  pose proof (fin_bound _ _ Fi') as Bi'.
  set (kp := TILT_FACT tp) in *. set (kd := D_TILT_FACT dp) in *.
  clearbody kp kd.
  destruct (mul_R tilt' kp 11 (-20) 39 Ft' Fkp) as [F1 _].
  { replace (bpow 39) with (bpow 35 * bpow 4)%R by (bpow_num; lra).
    apply Rabs_mul_lt; bpow_num; lra. }
  { lia. }
  apply fin_le with (k' := 16) in F1; [|lia].
  pose proof (fin_bound _ _ F1) as B1.
  destruct (mul_R tilt_int' TILT_INT_FACT (-22) (-25) 1 Fi') as [F2 _].
  { unfold TILT_INT_FACT; cbn [fin]; lia. }
  { replace (bpow 1) with (bpow 2 * bpow (-1))%R by (bpow_num; lra).
    apply Rabs_mul_lt; [bpow_num; lra|].
    unfold TILT_INT_FACT; cbn [B2R cond_Zopp]; bpow_num; lra. }
  { lia. }
  apply fin_le with (k' := -22) in F2; [|lia].
  pose proof (fin_bound _ _ F2) as B2.
  destruct (add_R _ _ _ _ 41 F1 F2) as [F3 _].
  { apply Rabs_def1; bpow_num; lra. }
  { lia. }
  apply fin_le with (k' := 18) in F3; [|lia].
  pose proof (fin_bound _ _ F3) as B3.
  destruct (mul_R d kd (-16) (-13) 19 Fd Fkd) as [F4 _].
  { replace (bpow 19) with (bpow 8 * bpow 11)%R by (bpow_num; lra).
    apply Rabs_mul_lt; bpow_num; lra. }
  { lia. }
  apply fin_le with (k' := -4) in F4; [|lia].
  pose proof (fin_bound _ _ F4) as B4.
  destruct (add_R _ _ _ _ 43 F3 F4) as [F5 _].
  { apply Rabs_def1; bpow_num; lra. }
  { lia. }
  apply fin_le with (1 := F5); lia.
Qed.

(** ** The state between two ticks *)

Lemma tilt_ok_small (t : float) : fin (-22) t -> tilt_ok t.
Proof.
  intros F. split; [apply fin_le with (1 := F); lia|].
  pose proof (fin_bound _ _ F) as B.
  apply Rabs_le. bpow_num. lra.
Qed.

Lemma Inv_init : Inv init.
Proof.
  unfold Inv, init; cbn [filt gyro_offset_pot tilt_pot d_tilt_pot tilt_rads
                         tilt_int_rads].
  assert (A512 : adc 512) by (unfold adc, ADC_RANGE; lia).
  split; [|split; [exact A512|split; [exact A512|split; [exact A512|]]]].
  - unfold filt_ok, filter_zero, f_0; cbn [xv1 xv2 yv1 yv2 B2R fin].
    repeat split. unfold V. lra.
  - split; [apply tilt_ok_small; exact I|].
    split; [exact I|split; vm_compute; reflexivity].
Qed.

Lemma Inv_step (s : State) (inp : Inputs) :
  Inv s -> adc_inputs inp ->
  Inv (fst (ISR s inp)) /\ fin 20 (speed_command s inp).
Proof.
  intros (Hf & Hg & Ht & Hd & Htilt & Fint & Wint)
         (Ig & Ix & Iy & I3 & I4 & I5).
  destruct (filterx_ok (filt s) (x_gs_of (in_x inp)) Hf
              (filter_input_fin _ Ix)) as [Hf' Ey].
  assert (Fxf : fin (-19) (snd (filterx (filt s) (x_gs_of (in_x inp))))).
  { rewrite Ey. apply Hf'. }
  destruct (ISR_sampler s inp) as (_ & Ed & Et & Eg & _).
  unfold Inv, speed_command.
  rewrite ISR_filt, ISR_tilt_rads, ISR_tilt_int_rads, Ed, Et, Eg.
  assert (Pots : adc (if loop_count s =? 1500 then in_A4 inp
                      else gyro_offset_pot s) /\
                 adc (if loop_count s =? 1000 then in_A5 inp else tilt_pot s) /\
                 adc (if loop_count s =? 500 then in_A3 inp
                      else d_tilt_pot s)).
  { destruct (_ =? 1500), (_ =? 1000), (_ =? 500); auto. }
  destruct Pots as (P1 & P2 & P3).
  assert (Mk : forall t ti sp,
             tilt_ok t -> fin (-22) ti -> within_max ti -> fin 20 sp ->
             (filt_ok (fst (filterx (filt s) (x_gs_of (in_x inp)))) /\
              adc (if loop_count s =? 1500 then in_A4 inp
                   else gyro_offset_pot s) /\
              adc (if loop_count s =? 1000 then in_A5 inp else tilt_pot s) /\
              adc (if loop_count s =? 500 then in_A3 inp else d_tilt_pot s) /\
              tilt_ok t /\ fin (-22) ti /\ within_max ti) /\ fin 20 sp)
    by (intros; tauto).
  destruct (branch_cases s inp) as [[_ Hb]|[(_ & Hb & Hrc)|(_ & Hb & Hrc)]].
  - destruct (control_fallen s inp Hb) as (-> & _ & -> & ->).
    apply Mk; try assumption. exact I.
  - destruct (control_awaiting s inp Hb Hrc) as (-> & _ & -> & ->).
    destruct (relevel_on inp).
    + apply Mk; try exact I.
      * apply (tilt_ok_small _ (seed_fin _ Ix)).
      * split; vm_compute; reflexivity.
    + apply Mk; try assumption. exact I.
  - destruct (control_balancing s inp Hb Hrc) as (-> & _ & -> & ->).
    cbn [acquire d_tilt_rads x_filt].
    destruct (balancing_fin (tilt_rads s) (tilt_int_rads s)
                (d_tilt_rads_of (gyro_offset_pot s) (in_gyro inp))
                (snd (filterx (filt s) (x_gs_of (in_x inp))))
                (tilt_pot s) (d_tilt_pot s))
      as (T' & F' & S'); try assumption.
    { apply d_tilt_fin; assumption. }
    apply Mk; try assumption. apply clamp_within.
Qed.

Lemma Inv_exec (ins : list Inputs) :
  Forall adc_inputs ins -> forall s, Inv s -> Inv (exec s ins).
Proof.
  induction 1 as [|i ins Hi _ IH]; intros s Hs; cbn [exec]; [exact Hs|].
  apply IH, Inv_step; assumption.
Qed.

Lemma duty_ok_step (s : State) (inp : Inputs) :
  Inv s -> adc_inputs inp -> duty_ok (snd (ISR s inp)).
Proof.
  intros Hs Hi. apply duty_of_number.
  apply fin_not_nan with (k := 20), Inv_step; assumption.
Qed.

(** ** C3: the duty cycles stay within 0..255 *)

(** C3.  From any state, a tick whose speed command is a number (finite or
    infinite, as opposed to NaN) writes to both motors a duty cycle in
    [0, 255]; and from power-on, on every tick of every run whose readings
    come from the ADC, both duty cycles written are in [0, 255]. *)
Theorem C3_duty_in_range :
  (forall (s : State) (inp : Inputs),
      is_nan (speed_command s inp) = false -> duty_ok (snd (ISR s inp))) /\
  (forall ins : list Inputs,
      Forall adc_inputs ins -> Forall duty_ok (outputs init ins)).
Proof.
  split; [exact duty_of_number|].
  intros ins H. generalize init Inv_init.
  induction H as [|i ins Hi _ IH]; intros s Hs; cbn [outputs]; constructor.
  - apply duty_ok_step; assumption.
  - apply IH, Inv_step; assumption.
Qed.

Lemma C3_witness :
  duty_ok (snd (ISR (tipped_after 0) tipped_in)) /\
  Forall duty_ok (outputs init [level_in; tipped_in; tipped_in]).
Proof.
  split.
  - apply (proj1 C3_duty_in_range); vm_compute; reflexivity.
  - apply (proj2 C3_duty_in_range).
    repeat constructor; unfold adc, ADC_RANGE; cbn; lia.
Defined.

(** ** C2: the integral saturates *)

(** C2.  From power-on, after every tick of every input sequence the stored
    integral exceeds neither [MAX_TILT_INT] nor [-MAX_TILT_INT]; and when the
    readings come from the ADC it is a number in the closed interval
    [[-MAX_TILT_INT, MAX_TILT_INT]]. *)
Theorem C2_tilt_integral_saturates :
  (forall ins : list Inputs,
      (tilt_int_rads (exec init ins) >? MAX_TILT_INT)%f32 = false /\
      (tilt_int_rads (exec init ins) <? (- MAX_TILT_INT))%f32 = false) /\
  (forall ins : list Inputs,
      Forall adc_inputs ins ->
      leb (- MAX_TILT_INT)%f32 (tilt_int_rads (exec init ins)) = true /\
      leb (tilt_int_rads (exec init ins)) MAX_TILT_INT = true).
Proof.
  split.
  - intros ins. apply (within_exec ins init).
    split; vm_compute; reflexivity.
  - intros ins H.
    destruct (Inv_exec ins H init Inv_init)
      as (_ & _ & _ & _ & _ & F & [Whi Wlo]).
    apply fin_not_nan in F.
    split; apply not_gt_le; auto.
Qed.

Lemma C2_witness :
  leb (- MAX_TILT_INT)%f32
      (tilt_int_rads (exec init [level_in; tipped_in; tipped_in])) = true /\
  leb (tilt_int_rads (exec init [level_in; tipped_in; tipped_in]))
      MAX_TILT_INT = true.
Proof.
  apply (proj2 C2_tilt_integral_saturates).
  repeat constructor; unfold adc, ADC_RANGE; cbn; lia.
Defined.

(** * Further properties of the handler *)

(** ** Ticks that do not balance *)

Lemma ISR_last_speed (s : State) (inp : Inputs) :
  last_speed (fst (ISR s inp)) =
    match branch s inp with
    | Balancing => speed_command s inp
    | _ => last_speed s
    end.
Proof.
  unfold ISR, speed_command; cbn [fst].
  replace (last_speed (fst (calibration_sampler (fst (control s inp)) inp)))
    with (last_speed (fst (control s inp)))
    by (unfold calibration_sampler; repeat destruct (_ =? _); reflexivity).
  unfold branch, control.
  destruct (fallen_condition _ _); [reflexivity|].
  destruct (negb _); [|reflexivity].
  destruct (deadband _); reflexivity.
Qed.

Lemma idle_speed (s : State) (inp : Inputs) :
  branch s inp <> Balancing -> speed_command s inp = f_0.
Proof.
  intros H; unfold speed_command.
  destruct (branch_cases s inp) as [[_ Hf]|[(_ & Hf & Hrc)|(Hb & _)]].
  - apply control_fallen; exact Hf.
  - apply control_awaiting; assumption.
  - contradiction.
Qed.

Lemma idle_dirs (s : State) (inp : Inputs) :
  branch s inp <> Balancing ->
  dir_a (snd (ISR s inp)) = HIGH /\ dir_b (snd (ISR s inp)) = HIGH.
Proof.
  intros H. pose proof (idle_speed s inp H) as E.
  unfold ISR; cbn [snd dir_a dir_b]. fold (speed_command s inp). rewrite E.
  split; reflexivity.
Qed.

Lemma not_reset_idle (s : State) (inp : Inputs) :
  reset_complete s = false -> branch s inp <> Balancing.
Proof.
  intros Hrc.
  destruct (branch_cases s inp) as [[-> _]|[(-> & _)|(_ & _ & C)]];
    congruence.
Qed.

Lemma no_relevel_dirs (ins : list Inputs) :
  Forall (fun i => relevel_on i = false) ins ->
  forall s, reset_complete s = false ->
  Forall (fun o => dir_a o = HIGH /\ dir_b o = HIGH) (outputs s ins).
Proof.
  induction 1 as [|i ins Hi _ IH]; intros s Hrc; cbn [outputs]; constructor.
  - apply idle_dirs, not_reset_idle, Hrc.
  - apply IH, stays_not_reset; assumption.
Qed.

(** X1.  After power-on the motors are not driven before the vehicle has
    been held level: as long as no tick has observed the re-level deadband,
    and still on the first tick that observes it (the last one of [tail], if
    any), both duty cycles written are 0 and both direction pins are HIGH. *)
Theorem X1_power_on_motors_off (mid tail : list Inputs) :
  Forall (fun i => relevel_on i = false) mid ->
  (length tail <= 1)%nat ->
  Forall (fun o => zero_duty o /\ dir_a o = HIGH /\ dir_b o = HIGH)
         (outputs init (mid ++ tail)).
Proof.
  intros Hmid Htail.
  assert (Hrc : reset_complete init = false) by reflexivity.
  destruct (no_relevel_run mid Hmid init Hrc) as [Hrc' Hz].
  pose proof (no_relevel_dirs mid Hmid init Hrc) as Hd.
  rewrite outputs_app. apply Forall_app; split.
  - clear - Hz Hd. induction Hz as [|o os Ho _ IH]; [constructor|].
    inversion Hd; subst. constructor; auto.
  - destruct tail as [|t [|t' tail]].
    + constructor.
    + change (Forall (fun o => zero_duty o /\ dir_a o = HIGH /\ dir_b o = HIGH)
                [snd (ISR (exec init mid) t)]).
      constructor; [|constructor].
      split; [apply not_reset_zero_duty; exact Hrc'|].
      apply idle_dirs, not_reset_idle, Hrc'.
    + cbn [length] in Htail; lia.
Qed.

Lemma X1_witness :
  Forall (fun o => zero_duty o /\ dir_a o = HIGH /\ dir_b o = HIGH)
         (outputs init ([tipped_in; tipped_in] ++ [level_in])).
Proof.
  apply X1_power_on_motors_off.
  - repeat constructor.
  - cbn; lia.
Defined.

(** X2.  On every tick the new value of [reset_complete] is: no fall is
    detected, and the flag was set or the tick observes the re-level
    deadband.  Hence, once the flag is set, a run on which no tick detects a
    fall keeps it set and takes the Balancing branch on every tick. *)
Theorem X2_balancing_persists :
  (forall (s : State) (inp : Inputs),
      reset_complete (fst (ISR s inp)) =
        negb (fallen_on s inp) && (reset_complete s || relevel_on inp)) /\
  (forall (ins : list Inputs) (s : State),
      reset_complete s = true ->
      (forall k i, nth_error ins k = Some i ->
                   fallen_on (exec s (firstn k ins)) i = false) ->
      reset_complete (exec s ins) = true /\
      (forall k i, nth_error ins k = Some i ->
                   branch (exec s (firstn k ins)) i = Balancing)).
Proof.
  assert (Law : forall s inp,
             reset_complete (fst (ISR s inp)) =
               negb (fallen_on s inp) && (reset_complete s || relevel_on inp)).
  { intros s inp; rewrite ISR_reset_complete.
    destruct (branch_cases s inp) as [[_ Hf]|[(_ & Hf & Hrc)|(_ & Hf & Hrc)]].
    - destruct (control_fallen s inp Hf) as (_ & -> & _).
      rewrite Hf; reflexivity.
    - destruct (control_awaiting s inp Hf Hrc) as (_ & -> & _).
      rewrite Hf, Hrc; reflexivity.
    - destruct (control_balancing s inp Hf Hrc) as (_ & -> & _).
      rewrite Hf, Hrc; reflexivity. }
  split; [exact Law|].
  induction ins as [|i ins IH]; intros s Hrc Hno.
  - split; [exact Hrc|]. intros [|k] j Hj; discriminate.
  - assert (Hf : fallen_on s i = false) by (apply (Hno O); reflexivity).
    assert (Hrc' : reset_complete (fst (ISR s i)) = true)
      by (rewrite Law, Hf, Hrc; reflexivity).
    destruct (IH (fst (ISR s i)) Hrc') as [H1 H2].
    { intros k j Hj. apply (Hno (S k) j Hj). }
    split; [exact H1|].
    intros [|k] j Hj.
    + cbn in Hj; injection Hj as <-. cbn [firstn exec].
      destruct (branch_cases s i) as [[_ C]|[(_ & _ & C)|(C & _)]];
        [congruence|congruence|exact C].
    + cbn [firstn exec]. apply H2; exact Hj.
Qed.

Lemma X2_witness :
  reset_complete (exec (tipped_after 0) [tipped_in; tipped_in]) = true /\
  branch (exec (tipped_after 0) (firstn 1 [tipped_in; tipped_in])) tipped_in
    = Balancing.
Proof.
  destruct (proj2 X2_balancing_persists [tipped_in; tipped_in]
              (tipped_after 0)) as [H1 H2].
  - vm_compute; reflexivity.
  - intros [|[|[|k]]] i Hi; cbn in Hi; try discriminate;
      injection Hi as <-; vm_compute; reflexivity.
  - split; [exact H1|exact (H2 1%nat tipped_in eq_refl)].
Defined.

(** X3.  A tick that takes the Fallen or the AwaitingUpright branch writes
    HIGH on both direction pins and duty 0 on both motors, and leaves
    [last_speed] as it was. *)
Theorem X3_idle_tick (s : State) (inp : Inputs) :
  branch s inp <> Balancing ->
  dir_a (snd (ISR s inp)) = HIGH /\ dir_b (snd (ISR s inp)) = HIGH /\
  zero_duty (snd (ISR s inp)) /\
  last_speed (fst (ISR s inp)) = last_speed s.
Proof.
  intros H. destruct (idle_dirs s inp H) as [Ha Hb].
  split; [exact Ha|split; [exact Hb|split]].
  - apply zero_speed_zero_duty, idle_speed, H.
  - rewrite ISR_last_speed. destruct (branch s inp); congruence.
Qed.

Lemma X3_witness :
  dir_a (snd (ISR init tipped_in)) = HIGH /\
  dir_b (snd (ISR init tipped_in)) = HIGH /\
  zero_duty (snd (ISR init tipped_in)) /\
  last_speed (fst (ISR init tipped_in)) = last_speed init.
Proof.
  apply X3_idle_tick. vm_compute; discriminate.
Defined.

(** ** The output mapper: sign, cast and caps *)

Lemma is_nan_eq (x : float) : is_nan x = true -> x = S754_nan.
Proof. destruct x; cbn; congruence. Qed.

(** The mapper passes NaN through to the cast, which is then undefined. *)
Lemma duty_of_nan (f : Z) : duty (shape S754_nan) f = None.
Proof.
  unfold duty.
  replace (shape S754_nan) with S754_nan by (vm_compute; reflexivity).
  unfold mul, SFmul. destruct (of_int f); reflexivity.
Qed.

Lemma abs_opp (x : float) :
  match x with
  | S754_zero _ => True
  | _ => abs (- x)%f32 = abs x
  end.
Proof. destruct x as [s|s| |s m e]; try destruct s; try exact I; reflexivity. Qed.

(** A zero times anything is converted like the zero of the other sign times
    the same thing. *)
Lemma long_of_zero_mul (s : bool) (y : float) :
  long_of_float (S754_zero s * y)%f32 = long_of_float (S754_zero (negb s) * y)%f32.
Proof.
  destruct y as [t|t| |t m e]; destruct s; try destruct t; reflexivity.
Qed.

Lemma shape_zero (s : bool) : shape (S754_zero s) = S754_zero (negb s).
Proof. destruct s; vm_compute; reflexivity. Qed.

(** X4.  The duty cycle depends on the magnitude of the speed only: a speed
    and its opposite map to the same duty, whatever the motor factor; and
    the direction written for a speed that compares below or above 0 is the
    opposite of the one written for its opposite. *)
Theorem X4_duty_ignores_sign :
  (forall (x : float) (f : Z), duty (shape (- x)%f32) f = duty (shape x) f) /\
  (forall x : float,
      (x <? f_0)%f32 = true \/ (x >? f_0)%f32 = true ->
      direction (- x)%f32 <> direction x).
Proof.
  split.
  - intros x f. destruct x as [s|s| |s m e].
    + change (- S754_zero s)%f32 with (S754_zero (negb s)).
      rewrite !shape_zero, negb_involutive. unfold duty.
      rewrite (long_of_zero_mul s). reflexivity.
    + unfold shape. rewrite (abs_opp (S754_infinity s)). reflexivity.
    + reflexivity.
    + unfold shape. rewrite (abs_opp (S754_finite s m e)). reflexivity.
  - intros x H. unfold direction.
    destruct x as [s|s| |s m e]; try destruct s;
      cbn in H |- *; destruct H; congruence.
Qed.

Lemma X4_witness :
  direction (- f_0_6)%f32 <> direction f_0_6.
Proof.
  apply (proj2 X4_duty_ignores_sign). right. vm_compute; reflexivity.
Defined.

(** ** The integer caps *)

(** Rounding never returns an exponent below the least one. *)
Lemma binary_round_aux_emin (sx : bool) (mx ex : Z) (lx : location) :
  0 <= mx ->
  match binary_round_aux prec emax sx mx ex lx with
  | S754_finite _ _ e => -149 <= e
  | _ => True
  end.
Proof.
  intros Hm; unfold binary_round_aux.
  destruct (shr_fexp_spec mx ex lx Hm) as [H1 E1].
  destruct (shr_fexp prec emax mx ex lx) as [mrs' e']; cbn [fst snd] in H1, E1.
  pose proof (round_nearest_even_bounds (shr_m mrs') (loc_of_shr_record mrs'))
    as H2.
  set (m2 := round_nearest_even (shr_m mrs') (loc_of_shr_record mrs')) in *.
  assert (Hm2 : 0 <= m2) by lia.
  destruct (shr_fexp_spec m2 e' loc_Exact Hm2) as [H3 E3].
  destruct (shr_fexp prec emax m2 e' loc_Exact) as [mrs'' e''];
    cbn [fst snd] in H3, E3.
  destruct (shr_m mrs''); try exact I.
  destruct (e'' <=? emax - prec); [|exact I].
  rewrite E3, fexp_eq. lia.
Qed.

Lemma shape_capped (x : float) : is_nan x = false -> capped (shape x).
Proof.
  intros Hx; unfold shape.
  change (of_int 7) with (S754_finite false 14680064 (-21)).
  pose proof (sqrt_nonneg _ (abs_nonneg _ Hx)) as N.
  pose proof (mul_pos_rounded 14680064 (-21) _ N) as R.
  assert (E : match (S754_finite false 14680064 (-21) * sqrt (abs x))%f32 with
              | S754_finite _ _ e => -149 <= e
              | _ => True
              end).
  { destruct (sqrt (abs x)) as [s|s| |s m e]; try exact I.
    unfold mul, SFmul. apply binary_round_aux_emin. lia. }
  destruct (S754_finite false 14680064 (-21) * sqrt (abs x))%f32
    as [s|s| |s m e]; cbn [rounded] in R.
  - exact I.
  - subst s. cbn. lia.
  - contradiction.
  - destruct R as [-> Hm].
    unfold gtb, ltb, SFltb, f_0xff; cbn [SFcompare].
    destruct (Z.compare_spec (-16) e) as [He|He|He].
    + subst e.
      change (PosDef.Pos.compare_cont Eq 16711680 m)
        with (16711680 ?= Z.pos m).
      destruct (Z.compare_spec 16711680 (Z.pos m)) as [C|C|C]; cbn [capped];
        repeat split; lia.
    + cbn [capped]. lia.
    + cbn [capped]. repeat split; lia.
Qed.

(** Multiplying a capped value by 1.0 keeps its integer part. *)
Lemma mul_one_capped (v : float) :
  capped v ->
  exists z, long_of_float (v * S754_finite false 8388608 (-23))%f32 = Some z /\
            0 <= z <= 255 /\ (IZR z <= B2R v < IZR z + 1)%R.
Proof.
  destruct v as [s|s| |s m e]; cbn [capped]; try contradiction.
  - intros _. exists 0. split; [destruct s; reflexivity|].
    split; [lia|cbn [B2R]; lra].
  - intros (-> & Hm & Hlo & Hhi).
    unfold mul, SFmul; cbn [xorb].
    change (Z.pos (m * 8388608)) with (Z.pos m * 2 ^ 23).
    set (mx := Z.pos m * 2 ^ 23). set (ex := e + -23).
    assert (Hmx : 0 <= mx) by (subst mx; lia).
    destruct (Zdigits2_bounds mx Hmx) as [Hd0 Hd].
    assert (Hd47 : Zdigits2 mx <= 47) by (apply Zdigits2_le; subst mx; lia).
    pose proof (round_exact_spec false mx ex Hmx) as RS.
    cbv zeta in RS. rewrite fexp_eq in RS.
    set (n := Z.max 0 (Z.max (Zdigits2 mx + ex - 24) (-149) - ex)) in *.
    assert (Hn : 0 <= n <= 23) by (subst n ex; lia).
    destruct RS as (m2 & m' & e' & -> & Hm' & He1 & He2 & Hval & Hm2 & Hm2' &
                    Hn0 & Hnp & Hfit); [subst ex; lia|].
    assert (P2n : 0 < 2 ^ n) by (apply Z.pow_pos_nonneg; lia).
    assert (Emx : mx = (Z.pos m * 2 ^ (23 - n)) * 2 ^ n).
    { subst mx. rewrite <- Z.mul_assoc, <- Z.pow_add_r by lia.
      do 2 f_equal. lia. }
    assert (Ediv : mx / 2 ^ n = Z.pos m * 2 ^ (23 - n)).
    { rewrite Emx. apply Z.div_mul. lia. }
    assert (Emod : mx mod 2 ^ n = 0).
    { rewrite Emx. apply Z.mod_mul. lia. }
    assert (E2 : m2 = Z.pos m * 2 ^ (23 - n)).
    { destruct (Z.eq_dec n 0) as [En|En].
      - rewrite (Hn0 En), <- Ediv, En. cbn. apply eq_sym, Z.div_1_r.
      - rewrite <- Ediv. apply Hnp; [lia|]. rewrite Emod.
        apply Z.pow_pos_nonneg; lia. }
    assert (Hlt : m2 < 2 ^ 24).
    { rewrite E2, <- Ediv. apply Z.div_lt_upper_bound; [lia|].
      rewrite <- Z.pow_add_r by lia.
      apply Z.lt_le_trans with (1 := Hd), Z.pow_le_mono_r; subst n ex; lia. }
    destruct (Hfit Hlt) as [-> ->]. clear Hfit Hval He1 He2.
    set (j := 23 - n) in *.
    assert (Pj : 0 < 2 ^ j) by (apply Z.pow_pos_nonneg; subst j; lia).
    assert (Pe : 0 < 2 ^ (- e)) by (apply Z.pow_pos_nonneg; lia).
    assert (Hz : 0 <= Z.pos m / 2 ^ (- e) <= 255).
    { split; [apply Z.div_pos; lia|].
      destruct Hhi as [He|[He Hm255]].
      - assert (2 ^ 17 <= 2 ^ (- e)) by (apply Z.pow_le_mono_r; lia).
        assert (Z.pos m / 2 ^ (- e) < 2 ^ 7); [|lia].
        apply Z.div_lt_upper_bound; [lia|].
        change (2 ^ 7) with 128. change (2 ^ 17) with 131072 in *.
        change (2 ^ 24) with 16777216 in *. nia.
      - subst e. change (2 ^ (- -16)) with 65536.
        apply Z.div_le_upper_bound; lia. }
    exists (Z.pos m / 2 ^ (- e)). split; [|split; [exact Hz|]].
    2:{ cbn [B2R cond_Zopp].
        pose proof (Z.div_mod (Z.pos m) (2 ^ (- e)) ltac:(lia)) as DM.
        pose proof (Z.mod_pos_bound (Z.pos m) (2 ^ (- e)) Pe) as MB.
        assert (Eb : bpow e = (/ IZR (2 ^ (- e)))%R).
        { rewrite (bpow_IZR (- e)) by lia. rewrite <- bpow_opp.
          f_equal. lia. }
        assert (PP : (0 < IZR (2 ^ (- e)))%R) by (apply IZR_lt; lia).
        assert (Em : IZR (Z.pos m) =
                     (IZR (2 ^ (- e)) * IZR (Z.pos m / 2 ^ (- e)) +
                      IZR (Z.pos m mod 2 ^ (- e)))%R).
        { rewrite <- mult_IZR, <- plus_IZR. f_equal. exact DM. }
        assert (R0 : (0 <= IZR (Z.pos m mod 2 ^ (- e)))%R)
          by (apply IZR_le; lia).
        assert (R1 : (IZR (Z.pos m mod 2 ^ (- e)) < IZR (2 ^ (- e)))%R)
          by (apply IZR_lt; lia).
        rewrite Eb, Em.
        set (P := IZR (2 ^ (- e))) in *.
        set (Zq := IZR (Z.pos m / 2 ^ (- e))) in *.
        set (Zr := IZR (Z.pos m mod 2 ^ (- e))) in *.
        clearbody P Zq Zr. clear - PP R0 R1.
        replace ((P * Zq + Zr) * / P)%R with (Zq + Zr * / P)%R
          by (field; lra).
        assert (0 <= Zr * / P < 1)%R.
        { split.
          - apply Rmult_le_pos; [lra|]. apply Rlt_le, Rinv_0_lt_compat, PP.
          - apply Rmult_lt_reg_r with P; [exact PP|].
            rewrite Rmult_assoc, Rinv_l by lra. lra. }
        lra. }
    rewrite E2.
    assert (Ppos : 0 < Z.pos m * 2 ^ j) by lia.
    destruct (Z.pos m * 2 ^ j) as [|p|p] eqn:Ep; try lia.
    assert (Eex : ex + n = - (j - e)) by (subst ex j; lia).
    unfold long_of_float, trunc. rewrite Eex.
    destruct (- (j - e)) as [|q|q] eqn:Eq; try (subst j; lia).
    assert (Epq : Z.pos q = j - e) by lia.
    assert (Etr : Z.pos p / 2 ^ Z.pos q = Z.pos m / 2 ^ (- e)).
    { rewrite <- Ep, Epq.
      replace (j - e) with (- e + j) by lia.
      rewrite Z.pow_add_r by (subst j; lia).
      apply Z.div_mul_cancel_r; lia. }
    rewrite Etr.
    replace (-2147483648 <=? Z.pos m / 2 ^ (- e)) with true
      by (symmetry; apply Z.leb_le; lia).
    replace (Z.pos m / 2 ^ (- e) <=? 2147483647) with true
      by (symmetry; apply Z.leb_le; lia).
    reflexivity.
Qed.

(** X5.  The caps on [motor_a_speed] and [motor_b_speed] never change the
    value: after the cap on the float, the cast already yields at most 255,
    so the duty written is the cast itself (undefined when the cast is). *)
Theorem X5_integer_caps_never_fire (x : float) :
  duty (shape x) MOTOR_A_FACTOR =
    long_of_float (shape x * of_int MOTOR_A_FACTOR)%f32 /\
  duty (shape x) MOTOR_B_FACTOR =
    long_of_float (shape x * of_int MOTOR_B_FACTOR)%f32.
Proof.
  assert (G : duty (shape x) 1 = long_of_float (shape x * of_int 1)%f32).
  { destruct (is_nan x) eqn:Hx.
    - apply is_nan_eq in Hx; subst x. rewrite duty_of_nan.
      vm_compute; reflexivity.
    - unfold duty.
      change (of_int 1) with (S754_finite false 8388608 (-23)).
      destruct (mul_one_capped _ (shape_capped x Hx)) as (z & -> & Hz & _).
      replace (z >? 255) with false; [reflexivity|].
      symmetry. rewrite Z.gtb_ltb. apply Z.ltb_ge. lia. }
  split; exact G.
Qed.

(** X6.  The cast to [long int] of a tick is undefined exactly when the
    speed command is NaN; an infinite speed command gives a defined duty. *)
Theorem X6_cast_undefined_iff_nan (s : State) (inp : Inputs) :
  (motor_a_speed (snd (ISR s inp)) = None <->
   is_nan (speed_command s inp) = true) /\
  (motor_b_speed (snd (ISR s inp)) = None <->
   is_nan (speed_command s inp) = true).
Proof.
  assert (G : duty (shape (speed_command s inp)) 1 = None <->
              is_nan (speed_command s inp) = true).
  { destruct (is_nan (speed_command s inp)) eqn:Hx.
    - apply is_nan_eq in Hx. rewrite Hx, duty_of_nan. tauto.
    - destruct (duty_range _ Hx) as (d & -> & _). split; discriminate. }
  split; exact G.
Qed.

(** ** The thresholds, in ADC units *)

(** X7.  With an x reading from the ADC, the re-level deadband
    [-0.02 < x_gs < 0.02] holds exactly for the readings 498 to 510. *)
Theorem X7_deadband_readings (inp : Inputs) :
  adc (in_x inp) ->
  (relevel_on inp = true <-> 498 <= in_x inp <= 510).
Proof.
  intros H.
  pose proof (forall_adc
    (fun z => Bool.eqb (deadband (x_gs_of z)) ((498 <=? z) && (z <=? 510))))
    as A.
  cbv beta in A. specialize (A ltac:(vm_compute; reflexivity) _ H).
  apply eqb_prop in A. unfold relevel_on. rewrite A.
  rewrite andb_true_iff, !Z.leb_le. tauto.
Qed.

Lemma X7_witness :
  relevel_on level_in = true <-> 498 <= in_x level_in <= 510.
Proof.
  apply X7_deadband_readings. unfold adc, ADC_RANGE; cbn; lia.
Defined.

(** X8.  With a y reading from the ADC, [y_gs < 0.1] holds exactly for the
    readings up to 542; on a tick whose y reading is above 542 the Fallen
    branch is not taken, whatever the state and the other readings. *)
Theorem X8_fall_needs_low_y (s : State) (inp : Inputs) :
  adc (in_y inp) ->
  ((y_gs_of (in_y inp) <? f_0_1)%f32 = true <-> in_y inp <= 542) /\
  (542 < in_y inp -> fallen_on s inp = false /\ branch s inp <> Fallen).
Proof.
  intros H.
  pose proof (forall_adc
    (fun z => Bool.eqb (y_gs_of z <? f_0_1)%f32 (z <=? 542))) as A.
  cbv beta in A. specialize (A ltac:(vm_compute; reflexivity) _ H).
  apply eqb_prop in A.
  assert (Iff : (y_gs_of (in_y inp) <? f_0_1)%f32 = true <-> in_y inp <= 542)
    by (rewrite A; apply Z.leb_le).
  split; [exact Iff|].
  intros Hy.
  assert (Hf : fallen_on s inp = false).
  { unfold fallen_on, fallen_condition; cbn [acquire y_gs].
    destruct (y_gs_of (in_y inp) <? f_0_1)%f32; [|reflexivity].
    assert (in_y inp <= 542) by (apply Iff; reflexivity). lia. }
  split; [exact Hf|].
  destruct (branch_cases s inp) as [[_ C]|[(-> & _)|(-> & _)]]; congruence.
Qed.

Lemma X8_witness :
  fallen_on init level_in = false /\ branch init level_in <> Fallen.
Proof.
  apply (X8_fall_needs_low_y init level_in).
  - unfold adc, ADC_RANGE; cbn; lia.
  - cbn; lia.
Defined.

(** ** The filter stays bounded *)

Lemma filt_ok_step (s : State) (inp : Inputs) :
  filt_ok (filt s) -> adc (in_x inp) ->
  filt_ok (filt (fst (ISR s inp))) /\
  fin (-19) (x_filt_gs (fst (ISR s inp))) /\
  (Rabs (B2R (x_filt_gs (fst (ISR s inp)))) <= 6)%R.
Proof.
  intros Hf Hx.
  destruct (filterx_ok (filt s) (x_gs_of (in_x inp)) Hf
              (filter_input_fin _ Hx)) as [Hf' Ey].
  rewrite ISR_filt, ISR_x_filt_gs, Ey.
  split; [exact Hf'|].
  destruct Hf' as (_ & _ & _ & F & HV).
  split; [exact F|].
  apply V_bounds in HV. destruct HV as [_ Hq].
  apply Rabs_le. exact Hq.
Qed.

(** X9.  From power-on, with x readings from the ADC, the filtered x-axis
    signal is after every tick a finite binary32 number of magnitude at
    most 6: the filter neither overflows nor produces NaN. *)
Theorem X9_filter_bounded (ins : list Inputs) :
  Forall (fun i => adc (in_x i)) ins ->
  Forall (fun y => fin (-19) y /\ (Rabs (B2R y) <= 6)%R)
         (x_filt_trace init ins).
Proof.
  intros H.
  assert (F0 : filt_ok (filt init)) by apply Inv_init.
  revert F0. generalize init.
  induction H as [|i ins Hi _ IH]; intros s Hs; cbn [x_filt_trace];
    constructor.
  - apply filt_ok_step; assumption.
  - apply IH, filt_ok_step; assumption.
Qed.

Lemma X9_witness :
  Forall (fun y => fin (-19) y /\ (Rabs (B2R y) <= 6)%R)
         (x_filt_trace init [level_in; tipped_in; tipped_in]).
Proof.
  apply X9_filter_bounded.
  repeat constructor; unfold adc, ADC_RANGE; cbn; lia.
Defined.

(** ** The speed command is a finite number *)

Lemma last_speed_fin (ins : list Inputs) :
  Forall adc_inputs ins ->
  forall s, Inv s -> fin 20 (last_speed s) -> fin 20 (last_speed (exec s ins)).
Proof.
  induction 1 as [|i ins Hi _ IH]; intros s Hs Hl; cbn [exec]; [exact Hl|].
  destruct (Inv_step s i Hs Hi) as [Hs' Hsp].
  apply IH; [exact Hs'|].
  rewrite ISR_last_speed. destruct (branch s i); assumption.
Qed.

(** X10.  From power-on, with readings from the ADC, the speed command of
    every tick is a finite number below [2^44] in magnitude, the tilt
    estimate is a finite number of magnitude at most [2^34], and
    [last_speed] is a finite number. *)
Theorem X10_speed_command_finite (ins : list Inputs) (inp : Inputs) :
  Forall adc_inputs ins -> adc_inputs inp ->
  fin 20 (speed_command (exec init ins) inp) /\
  (Rabs (B2R (speed_command (exec init ins) inp)) < bpow 44)%R /\
  fin 11 (tilt_rads (exec init ins)) /\
  (Rabs (B2R (tilt_rads (exec init ins))) <= bpow 34)%R /\
  fin 20 (last_speed (exec init ins)).
Proof.
  intros H Hi.
  pose proof (Inv_exec ins H init Inv_init) as Hs.
  destruct (Inv_step _ inp Hs Hi) as [_ Hsp].
  split; [exact Hsp|split].
  - apply Rabs_def1; apply (fin_bound 20 _ Hsp).
  - destruct Hs as (_ & _ & _ & _ & [T1 T2] & _).
    split; [exact T1|split; [exact T2|]].
    apply last_speed_fin; [exact H|apply Inv_init|exact I].
Qed.

Lemma X10_witness :
  fin 20 (speed_command (exec init [level_in; tipped_in]) tipped_in) /\
  (Rabs (B2R (speed_command (exec init [level_in; tipped_in]) tipped_in))
     < bpow 44)%R /\
  fin 11 (tilt_rads (exec init [level_in; tipped_in])) /\
  (Rabs (B2R (tilt_rads (exec init [level_in; tipped_in]))) <= bpow 34)%R /\
  fin 20 (last_speed (exec init [level_in; tipped_in])).
Proof.
  apply X10_speed_command_finite;
    repeat constructor; unfold adc, ADC_RANGE; cbn; lia.
Defined.

(** ** The trim pots between two samples *)

Lemma count_at_eq (n : nat) (first : nat) :
  (1 <= first <= 1500)%nat ->
  (count_at n =? Z.of_nat first) = true <->
  (first <= n)%nat /\ ((n - first) mod 1500 = 0)%nat.
Proof.
  intros Hf. rewrite Z.eqb_eq.
  assert (M : forall a : nat,
             (a mod 1500 = 0)%nat <-> Z.of_nat a mod 1500 = 0).
  { intros a. pose proof (Nat2Z.inj_mod a 1500) as E.
    change (Z.of_nat 1500) with 1500 in E. rewrite <- E. lia. }
  rewrite M.
  destruct n as [|k]; cbn [count_at].
  - split; [lia|]. intros [H _]; lia.
  - split.
    + intros H.
      assert (Hle : (first <= S k)%nat).
      { pose proof (Z.mod_le (Z.of_nat k) 1500). lia. }
      split; [exact Hle|].
      replace (Z.of_nat (S k - first)) with (Z.of_nat k - (Z.of_nat first - 1))
        by lia.
      Z.div_mod_to_equations. lia.
    + intros [Hle Hm].
      replace (Z.of_nat (S k - first)) with (Z.of_nat k - (Z.of_nat first - 1))
        in Hm by lia.
      Z.div_mod_to_equations. lia.
Qed.

Lemma last_sample_hit (first n : nat) :
  (first <= n)%nat -> ((n - first) mod 1500 = 0)%nat ->
  last_sample first (S n) = Some n.
Proof.
  intros Hle Hm. unfold last_sample.
  replace (S n <=? first)%nat with false
    by (symmetry; apply Nat.leb_gt; lia).
  f_equal.
  replace (S n - first - 1)%nat with (n - first)%nat by lia.
  pose proof (Nat.div_mod_eq (n - first) 1500) as E.
  rewrite Hm in E. lia.
Qed.

Lemma last_sample_miss (first n : nat) :
  ~ ((first <= n)%nat /\ ((n - first) mod 1500 = 0)%nat) ->
  last_sample first (S n) = last_sample first n /\
  (forall k, last_sample first n = Some k -> (k < n)%nat).
Proof.
  intros H. unfold last_sample.
  destruct (Nat.leb_spec n first) as [L|L].
  - assert (n <> first).
    { intros ->. apply H. split; [lia|]. rewrite Nat.sub_diag. reflexivity. }
    replace (S n <=? first)%nat with true
      by (symmetry; apply Nat.leb_le; lia).
    split; [reflexivity|discriminate].
  - replace (S n <=? first)%nat with false
      by (symmetry; apply Nat.leb_gt; lia).
    assert (Hm : ((n - first) mod 1500 <> 0)%nat) by (intros C; apply H; split; [lia|exact C]).
    pose proof (Nat.div_mod_eq (n - first) 1500) as E.
    pose proof (Nat.mod_upper_bound (n - first) 1500 ltac:(lia)) as U.
    replace (S n - first - 1)%nat with (n - first)%nat by lia.
    assert (D : ((n - first - 1) / 1500 = (n - first) / 1500)%nat).
    { symmetry.
      apply Nat.div_unique with (r := ((n - first) mod 1500 - 1)%nat); lia. }
    rewrite D. split; [reflexivity|].
    intros k Hk. assert (Ek : (first + 1500 * ((n - first) / 1500))%nat = k)
      by congruence.
    lia.
Qed.

Lemma pot_after_snoc (first : nat) (rd : Inputs -> Z)
      (ins : list Inputs) (i : Inputs) :
  (1 <= first <= 1500)%nat ->
  pot_after first rd (ins ++ [i]) =
    if count_at (length ins) =? Z.of_nat first then rd i
    else pot_after first rd ins.
Proof.
  intros Hf. unfold pot_after.
  rewrite length_app. cbn [length]. rewrite Nat.add_1_r.
  destruct (count_at (length ins) =? Z.of_nat first) eqn:E.
  - apply (count_at_eq _ _ Hf) in E. destruct E as [Hle Hm].
    rewrite (last_sample_hit _ _ Hle Hm).
    rewrite nth_error_app2, Nat.sub_diag by lia. reflexivity.
  - assert (N : ~ ((first <= length ins)%nat /\
                   ((length ins - first) mod 1500 = 0)%nat)).
    { intros C. apply (count_at_eq _ _ Hf) in C. congruence. }
    destruct (last_sample_miss _ _ N) as [-> Hk].
    destruct (last_sample first (length ins)) as [k|]; [|reflexivity].
    rewrite nth_error_app1 by (apply Hk; reflexivity). reflexivity.
Qed.

(** X11.  After any run from power-on, [d_tilt_pot], [tilt_pot] and
    [gyro_offset_pot] hold the readings of A3, A5 and A4 taken on the latest
    tick that saw the counter at 500, 1000 and 1500, or the initial 512 when
    there was none yet; that tick is at most 1500 ticks back and its number
    exceeds 500, 1000 or 1500 by a multiple of 1500. *)
Theorem X11_pots_hold_latest_sample :
  (forall ins : list Inputs,
      d_tilt_pot (exec init ins) = pot_after 500 in_A3 ins /\
      tilt_pot (exec init ins) = pot_after 1000 in_A5 ins /\
      gyro_offset_pot (exec init ins) = pot_after 1500 in_A4 ins) /\
  (forall first n k : nat,
      last_sample first n = Some k ->
      (first <= k < n)%nat /\ (n <= k + 1500)%nat /\
      ((k - first) mod 1500 = 0)%nat).
Proof.
  split.
  - induction ins as [|i ins IH] using rev_ind.
    + repeat split.
    + destruct IH as (Hd & Ht & Hg).
      rewrite exec_snoc.
      destruct (ISR_sampler (exec init ins) i) as (_ & -> & -> & -> & _).
      rewrite loop_count_exec, Hd, Ht, Hg.
      rewrite (pot_after_snoc 500), (pot_after_snoc 1000),
        (pot_after_snoc 1500) by lia.
      repeat split.
  - intros first n k. unfold last_sample.
    destruct (Nat.leb_spec n first) as [L|L]; [discriminate|].
    intros H.
    assert (Ek : (first + 1500 * ((n - first - 1) / 1500))%nat = k)
      by congruence.
    subst k.
    pose proof (Nat.div_mod_eq (n - first - 1) 1500) as E.
    pose proof (Nat.mod_upper_bound (n - first - 1) 1500 ltac:(lia)) as U.
    repeat split; try lia.
    replace (first + 1500 * ((n - first - 1) / 1500) - first)%nat
      with (((n - first - 1) / 1500) * 1500)%nat by lia.
    apply Nat.Div0.mod_mul.
Qed.

Lemma X11_witness :
  (500 <= 500 < 501)%nat /\ (501 <= 500 + 1500)%nat /\
  ((500 - 500) mod 1500 = 0)%nat.
Proof.
  apply (proj2 X11_pots_hold_latest_sample 500%nat 501%nat 500%nat).
  reflexivity.
Defined.

(** ** What a tick does not read *)

Lemma filterx_live (fs fs' : FilterState) (x : float) :
  xv1 fs = xv1 fs' -> xv2 fs = xv2 fs' ->
  yv1 fs = yv1 fs' -> yv2 fs = yv2 fs' ->
  filterx fs x = filterx fs' x.
Proof.
  unfold filterx. intros -> -> -> ->. reflexivity.
Qed.

Lemma control_live (s s' : State) (i i' : Inputs) :
  live_eq s s' -> sensors_eq i i' ->
  live_eq (fst (control s i)) (fst (control s' i')) /\
  snd (control s i) = snd (control s' i').
Proof.
  intros (X1 & X2 & Y1 & Y2 & Hd & Ht & Hg & Htr & Hti & Hrc & Hlc)
         (Ig & Ix & Iy).
  pose proof (filterx_live (filt s) (filt s') (x_gs_of (in_x i)) X1 X2 Y1 Y2)
    as F.
  unfold control, acquire, speed_law.
  cbn [d_tilt_rads x_gs y_gs filt' x_filt].
  rewrite <- Ig, <- Ix, <- Iy, <- Hd, <- Ht, <- Hg, <- Htr, <- Hti, <- Hrc, <- F.
  destruct (fallen_condition _ _).
  - cbn [fst snd]. split; [|reflexivity].
    unfold live_eq; cbn [filt d_tilt_pot tilt_pot gyro_offset_pot tilt_rads
                         tilt_int_rads reset_complete loop_count].
    repeat split; assumption.
  - destruct (negb (reset_complete s)).
    + destruct (deadband _); cbn [fst snd]; (split; [|reflexivity]);
        unfold live_eq; cbn [filt d_tilt_pot tilt_pot gyro_offset_pot tilt_rads
                             tilt_int_rads reset_complete loop_count];
        repeat split; assumption.
    + cbn [fst snd]. split; [|reflexivity].
      unfold live_eq; cbn [filt d_tilt_pot tilt_pot gyro_offset_pot tilt_rads
                           tilt_int_rads reset_complete loop_count].
      repeat split; assumption.
Qed.

Lemma sampler_live (c c' : State) (i i' : Inputs) :
  live_eq c c' ->
  snd (calibration_sampler c i) = snd (calibration_sampler c' i') /\
  (trims_eq (loop_count c) i i' ->
   live_eq (fst (calibration_sampler c i)) (fst (calibration_sampler c' i'))).
Proof.
  intros (X1 & X2 & Y1 & Y2 & Hd & Ht & Hg & Htr & Hti & Hrc & Hlc).
  unfold calibration_sampler, trims_eq, scheduled. rewrite <- Hlc.
  repeat destruct (loop_count c =? _); cbn [fst snd];
    (split; [reflexivity|]); intros T;
    try (pose proof (T _ eq_refl) as T'; cbn [trim_value] in T');
    unfold live_eq; cbn [filt d_tilt_pot tilt_pot gyro_offset_pot tilt_rads
                         tilt_int_rads reset_complete loop_count];
    repeat split; congruence.
Qed.

Lemma ISR_live (s s' : State) (i i' : Inputs) :
  live_eq s s' -> sensors_eq i i' ->
  snd (ISR s i) = snd (ISR s' i') /\
  (trims_eq (loop_count s) i i' ->
   live_eq (fst (ISR s i)) (fst (ISR s' i'))).
Proof.
  intros Hs Hi.
  destruct (control_live s s' i i' Hs Hi) as [Hc Hsp].
  destruct (sampler_live _ _ i i' Hc) as [Ho Hn].
  destruct (control_frame s i) as [El _]. rewrite El in Hn.
  unfold ISR; cbn [fst snd]. rewrite Hsp, Ho. split; [reflexivity|exact Hn].
Qed.

(** X12.  What a tick writes depends only on the variables it reads before
    overwriting them and on the three sensor readings: not on [last_speed],
    on the stored raw readings, on [x_filt_gs] or on the oldest slots of the
    delay line, and not on the trim pins.  The next values of the variables
    that are read depend on a trim pin only on the tick scheduled to sample
    it.  Two runs from states that agree on the variables that are read
    write the same outputs. *)
Theorem X12_write_only_statics :
  (forall (s s' : State) (i i' : Inputs),
      live_eq s s' -> sensors_eq i i' ->
      snd (ISR s i) = snd (ISR s' i') /\
      (trims_eq (loop_count s) i i' ->
       live_eq (fst (ISR s i)) (fst (ISR s' i')))) /\
  (forall (ins : list Inputs) (s s' : State),
      live_eq s s' ->
      outputs s ins = outputs s' ins /\ live_eq (exec s ins) (exec s' ins)).
Proof.
  split; [exact ISR_live|].
  induction ins as [|i ins IH]; intros s s' Hs; cbn [outputs exec].
  - split; [reflexivity|exact Hs].
  - destruct (ISR_live s s' i i Hs) as [Ho Hn]; [repeat split|].
    destruct (IH _ _ (Hn ltac:(intros p _; reflexivity))) as [Ho' Hn'].
    rewrite Ho, Ho'. split; [reflexivity|exact Hn'].
Qed.

Lemma X12_witness :
  outputs init [level_in; tipped_in; tipped_in] =
    outputs init_scribbled [level_in; tipped_in; tipped_in] /\
  live_eq (exec init [level_in; tipped_in; tipped_in])
          (exec init_scribbled [level_in; tipped_in; tipped_in]).
Proof.
  apply (proj2 X12_write_only_statics).
  repeat split.
Defined.

(** ** The conversions preserve the order of the readings *)

Lemma B2R_key (k : Z) (x : float) :
  fin k x -> B2R x = (IZR (key x) * bpow (-149))%R.
Proof.
  destruct x as [s|s| |s m e]; cbn [fin B2R key]; try contradiction;
    try (intros _; lra).
  intros [_ [He _]].
  rewrite mult_IZR, (bpow_IZR (e + 149)) by lia.
  rewrite Rmult_assoc, <- bpow_add.
  replace (e + 149 + -149) with e by lia. reflexivity.
Qed.

Lemma steps_up_increasing (f : Z -> float) :
  steps_up f = true -> increasing f.
Proof.
  intros H.
  assert (A : forall z, adc z ->
              fin 104 (f z) /\ (z < 1023 -> key (f z) < key (f (z + 1)))).
  { intros z Hz.
    pose proof (forall_adc _ H z Hz) as B. cbv beta in B.
    apply andb_true_iff in B. destruct B as [B1 B2].
    split; [apply finb_fin; exact B1|].
    intros Hlt. apply orb_true_iff in B2. destruct B2 as [B2|B2].
    - apply Z.eqb_eq in B2. unfold ADC_RANGE in B2. lia.
    - apply Z.ltb_lt; exact B2. }
  assert (K : forall n p, 0 <= n -> adc p -> adc (p + n + 1) ->
              key (f p) < key (f (p + n + 1))).
  { intros n p Hn. revert p. pattern n.
    apply natlike_ind; [| |exact Hn]; clear n Hn.
    - intros p Hp Hq. rewrite Z.add_0_r.
      apply A; [exact Hp|]. unfold adc, ADC_RANGE in *. lia.
    - intros n Hn IH p Hp Hq.
      assert (Hmid : adc (p + n + 1)) by (unfold adc, ADC_RANGE in *; lia).
      apply Z.lt_trans with (1 := IH p Hp Hmid).
      replace (p + Z.succ n + 1) with (p + n + 1 + 1) by lia.
      apply A; [exact Hmid|]. unfold adc, ADC_RANGE in *. lia. }
  intros p q Hp Hq Hpq.
  rewrite (B2R_key 104 (f p)), (B2R_key 104 (f q)) by (apply A; assumption).
  apply Rmult_lt_compat_r; [apply bpow_pos|].
  apply IZR_lt.
  replace q with (p + (q - p - 1) + 1) by lia.
  apply K; [lia|exact Hp|].
  replace (p + (q - p - 1) + 1) with q by lia. exact Hq.
Qed.

(** ** The gyro rate decreases with the gyro reading *)

Lemma gyro_count_exact (g : Z) :
  adc g ->
  fin (-12) (of_int (int16 (512 - g))) /\
  B2R (of_int (int16 (512 - g))) = IZR (512 - g).
Proof.
  intros H.
  pose proof (forall_adc
    (fun g => finb (-12) (of_int (int16 (512 - g))) &&
              (key (of_int (int16 (512 - g))) =? (512 - g) * 2 ^ 149))) as A.
  cbv beta in A. specialize (A ltac:(vm_compute; reflexivity) g H).
  apply andb_true_iff in A. destruct A as [A1 A2].
  apply finb_fin in A1. apply Z.eqb_eq in A2.
  split; [exact A1|].
  rewrite (B2R_key _ _ A1), A2, mult_IZR, (bpow_IZR 149) by lia.
  rewrite Rmult_assoc, <- bpow_add. change (149 + -149) with 0.
  change (bpow 0) with 1%R. lra.
Qed.

Lemma gyro_offset_range (pot : Z) :
  adc pot ->
  fin (-14) (gyro_offset_of pot) /\
  (-52 <= B2R (gyro_offset_of pot) <= 52)%R.
Proof.
  intros H.
  pose proof (forall_adc
    (fun p => finb (-14) (gyro_offset_of p) &&
              ((-52 * 2 ^ 149 <=? key (gyro_offset_of p)) &&
               (key (gyro_offset_of p) <=? 52 * 2 ^ 149)))) as A.
  cbv beta in A. specialize (A ltac:(vm_compute; reflexivity) pot H).
  apply andb_true_iff in A. destruct A as [A1 A2].
  apply andb_true_iff in A2. destruct A2 as [A2 A3].
  apply finb_fin in A1. apply Z.leb_le in A2, A3.
  split; [exact A1|].
  rewrite (B2R_key _ _ A1).
  pose proof (bpow_pos (-149)) as P.
  assert (E : forall c : Z, (IZR (c * 2 ^ 149) * bpow (-149) = IZR c)%R).
  { intros c. rewrite mult_IZR, (bpow_IZR 149), Rmult_assoc, <- bpow_add by lia.
    change (149 + -149) with 0. change (bpow 0) with 1%R. lra. }
  rewrite <- (E (-52)), <- (E 52).
  split; apply Rmult_le_compat_r; try lra; apply IZR_le; assumption.
Qed.

Lemma d_tilt_decreasing (pot g g' : Z) :
  adc pot -> adc g -> adc g' -> g < g' ->
  (B2R (d_tilt_rads_of pot g') < B2R (d_tilt_rads_of pot g))%R.
Proof.
  intros Hp Hg Hg' Hlt.
  destruct (gyro_count_exact g Hg) as [Fa Ea].
  destruct (gyro_count_exact g' Hg') as [Fa' Ea'].
  destruct (gyro_offset_range pot Hp) as [Fo Bo].
  unfold d_tilt_rads_of.
  set (a := of_int (int16 (512 - g))) in *.
  set (a' := of_int (int16 (512 - g'))) in *.
  set (o := gyro_offset_of pot) in *.
  assert (Ra : (-511 <= B2R a <= 512)%R).
  { rewrite Ea. unfold adc, ADC_RANGE in Hg.
    split; apply IZR_le; lia. }
  assert (Ra' : (-511 <= B2R a' <= 512)%R).
  { rewrite Ea'. unfold adc, ADC_RANGE in Hg'.
    split; apply IZR_le; lia. }
  assert (Hd : (B2R a' + 1 <= B2R a)%R).
  { rewrite Ea, Ea', <- plus_IZR. apply IZR_le. lia. }
  clear Ea Ea' Hlt Hg Hg' Hp.
  (* the two sums *)
  destruct (add_R a o _ _ 10 Fa Fo) as [Fs Es].
  { apply Rabs_def1; bpow_num; lra. }
  { lia. }
  destruct (add_R a' o _ _ 10 Fa' Fo) as [Fs' Es'].
  { apply Rabs_def1; bpow_num; lra. }
  { lia. }
  apply fin_le with (k' := -12) in Fs; [|lia].
  apply fin_le with (k' := -12) in Fs'; [|lia].
  apply (err_interval _ _ _ _ 564) in Es; [|lra|bpow_num; lra].
  apply (err_interval _ _ _ _ 564) in Es'; [|lra|bpow_num; lra].
  set (sm := (a + o)%f32) in *. set (sm' := (a' + o)%f32) in *.
  assert (U : (bpow (-149) <= bpow (-30))%R) by (apply bpow_le; lia).
  assert (P23 : bpow (-23) = (/ 8388608)%R) by (bpow_num; reflexivity).
  assert (P30 : bpow (-30) = (/ 1073741824)%R) by (bpow_num; reflexivity).
  rewrite P23 in Es, Es'. rewrite P30 in U.
  clearbody sm sm' a a' o.
  assert (Rs : (-565 <= B2R sm <= 565)%R) by (split; lra).
  assert (Rs' : (-565 <= B2R sm' <= 565)%R) by (split; lra).
  assert (Hds : (B2R sm' + 999 / 1000 <= B2R sm)%R)
    by (clear - Hd Es Es' U; lra).
  (* the two products *)
  unfold GYRO_RAD_PER_ADC_UNIT.
  set (G := S754_finite false 10980662 (-31)).
  assert (FG : fin (-31) G) by (unfold G; cbn [fin]; lia).
  assert (EG : B2R G = (10980662 / 2147483648)%R).
  { unfold G; cbn [B2R cond_Zopp]. bpow_num. lra. }
  clearbody G.
  assert (BG : forall x, (-565 <= x <= 565)%R ->
                 (- 3 <= B2R G * x <= 3)%R).
  { intros x Hx. rewrite EG. split; lra. }
  destruct (mul_R G sm (-31) (-12) 2 FG Fs) as [_ Em].
  { apply Rabs_def1; bpow_num; pose proof (BG _ Rs); lra. }
  { lia. }
  destruct (mul_R G sm' (-31) (-12) 2 FG Fs') as [_ Em'].
  { apply Rabs_def1; bpow_num; pose proof (BG _ Rs'); lra. }
  { lia. }
  apply (err_interval _ _ _ _ 3) in Em; [|apply BG; exact Rs|bpow_num; lra].
  apply (err_interval _ _ _ _ 3) in Em'; [|apply BG; exact Rs'|bpow_num; lra].
  rewrite P23 in Em, Em'.
  assert (Hp' : (B2R G * B2R sm' + 10980662 / 2147483648 * (999 / 1000)
                 <= B2R G * B2R sm)%R).
  { rewrite EG. clear - Hds. lra. }
  clear - Em Em' Hp' U. lra.
Qed.

(** X13.  Over the ADC range a larger x or y reading gives a larger [x_gs]
    or [y_gs], a larger pot reading gives a larger gyro offset and larger
    gains [TILT_FACT] and [D_TILT_FACT], and, whatever the offset pot, a
    larger gyro reading gives a smaller [d_tilt_rads]; all strictly, as real
    numbers. *)
Theorem X13_conversions_monotone :
  increasing x_gs_of /\ increasing y_gs_of /\
  increasing gyro_offset_of /\
  increasing TILT_FACT /\ increasing D_TILT_FACT /\
  (forall pot : Z, adc pot -> decreasing (d_tilt_rads_of pot)).
Proof.
  repeat split; try (apply steps_up_increasing; vm_compute; reflexivity).
  intros pot Hp g g' Hg Hg' Hlt. apply d_tilt_decreasing; assumption.
Qed.

Lemma X13_witness :
  (B2R (x_gs_of 0) < B2R (x_gs_of 1023))%R /\
  (B2R (d_tilt_rads_of 512 1023) < B2R (d_tilt_rads_of 512 0))%R.
Proof.
  destruct X13_conversions_monotone as (Hx & _ & _ & _ & _ & Hd).
  split.
  - apply Hx; unfold adc, ADC_RANGE; lia.
  - apply (Hd 512); unfold adc, ADC_RANGE; lia.
Defined.

(** ** The integral and its term, as real numbers *)

(** What the comparison of two mantissas says of them as integers. *)
Lemma pos_cmp (a b : positive) :
  match PosDef.Pos.compare_cont Eq a b with
  | Eq => Z.pos a = Z.pos b
  | Lt => Z.pos a < Z.pos b
  | Gt => Z.pos b < Z.pos a
  end.
Proof.
  change (PosDef.Pos.compare_cont Eq a b) with (Z.pos a ?= Z.pos b).
  destruct (Z.compare_spec (Z.pos a) (Z.pos b)); assumption.
Qed.

Lemma within_real (k : Z) (t : float) :
  fin k t -> within_max t ->
  (Rabs (B2R t) <= 16449339 / 4194304)%R.
Proof.
  destruct t as [s|s| |s m e]; cbn [fin]; try contradiction.
  { intros _ _. cbn [B2R]. rewrite Rabs_R0. lra. }
  intros [Hm He] [Hhi Hlo].
  assert (C : e < -22 \/ (e = -22 /\ Z.pos m <= 16449339)).
  { unfold gtb, ltb, SFltb, MAX_TILT_INT in Hhi, Hlo.
    destruct s; cbn [opp SFopp negb SFcompare] in Hhi, Hlo.
    - destruct (Z.compare_spec e (-22)) as [E|E|E]; [|lia|discriminate].
      right. split; [exact E|].
      pose proof (pos_cmp m 16449339) as C.
      destruct (PosDef.Pos.compare_cont Eq m 16449339);
        cbn [CompOpp] in Hlo; try discriminate; clear Hhi Hlo; lia.
    - destruct (Z.compare_spec (-22) e) as [E|E|E]; [|discriminate|lia].
      right. split; [lia|].
      pose proof (pos_cmp 16449339 m) as C.
      destruct (PosDef.Pos.compare_cont Eq 16449339 m);
        try discriminate; clear Hhi Hlo; lia. }
  rewrite B2R_finite, Rabs_sign.
  pose proof (bpow_pos e) as Pe.
  assert (P0 : (0 < IZR (Z.pos m))%R) by (apply IZR_lt; lia).
  rewrite Rabs_pos_eq by (apply Rmult_le_pos; lra).
  destruct C as [E|[E Hm']].
  - assert (B : (bpow e <= bpow (-23))%R) by (apply bpow_le; lia).
    assert (M : (IZR (Z.pos m) <= 16777216)%R) by (apply IZR_le; lia).
    replace (bpow (-23)) with (/ 8388608)%R in B by (bpow_num; reflexivity).
    assert (IZR (Z.pos m) * bpow e <= 16777216 * / 8388608)%R
      by (apply Rmult_le_compat; lra).
    lra.
  - subst e.
    replace (bpow (-22)) with (/ 4194304)%R by (bpow_num; reflexivity).
    assert (M : (IZR (Z.pos m) <= 16449339)%R) by (apply IZR_le; lia).
    lra.
Qed.

(** X14.  From power-on, with readings from the ADC, the stored integral
    is, as a real number, at most [MAX_TILT_INT] in magnitude, and the
    integral term [tilt_int_rads * TILT_INT_FACT] of the speed law is at
    most 1.535 in magnitude. *)
Theorem X14_integral_term_bounded (ins : list Inputs) :
  Forall adc_inputs ins ->
  (Rabs (B2R (tilt_int_rads (exec init ins))) <= B2R MAX_TILT_INT)%R /\
  (Rabs (B2R (tilt_int_rads (exec init ins) * TILT_INT_FACT)%f32)
     <= 1535 / 1000)%R.
Proof.
  intros H.
  destruct (Inv_exec ins H init Inv_init) as (_ & _ & _ & _ & _ & F & W).
  pose proof (within_real _ _ F W) as B.
  set (t := tilt_int_rads (exec init ins)) in *. clearbody t.
  assert (EM : B2R MAX_TILT_INT = (16449339 / 4194304)%R).
  { unfold MAX_TILT_INT; cbn [B2R cond_Zopp]. bpow_num. lra. }
  split; [rewrite EM; exact B|].
  assert (FK : fin (-25) TILT_INT_FACT)
    by (unfold TILT_INT_FACT; cbn [fin]; lia).
  assert (EK : B2R TILT_INT_FACT = (13124454 / 33554432)%R).
  { unfold TILT_INT_FACT; cbn [B2R cond_Zopp]. bpow_num. lra. }
  assert (BP : (Rabs (B2R t * B2R TILT_INT_FACT) <= 1534 / 1000)%R).
  { rewrite Rabs_mult, EK.
    rewrite (Rabs_pos_eq (13124454 / 33554432)) by lra.
    pose proof (Rabs_pos (B2R t)). nra. }
  destruct (mul_R t TILT_INT_FACT (-22) (-25) 1 F FK) as [_ E].
  { apply Rle_lt_trans with (1 := BP). bpow_num. lra. }
  { lia. }
  set (p := (t * TILT_INT_FACT)%f32) in *. clearbody p.
  set (x := (B2R t * B2R TILT_INT_FACT)%R) in *. clearbody x.
  assert (U : (bpow (-149) <= bpow (-23))%R) by (apply bpow_le; lia).
  replace (bpow (-23)) with (/ 8388608)%R in * by (bpow_num; reflexivity).
  pose proof (Rabs_triang (B2R p - x) x) as T.
  replace (B2R p - x + x)%R with (B2R p) in T by ring.
  pose proof (Rabs_pos x).
  nra.
Qed.

Lemma X14_witness :
  (Rabs (B2R (tilt_int_rads (exec init [level_in; tipped_in])))
     <= B2R MAX_TILT_INT)%R /\
  (Rabs (B2R (tilt_int_rads (exec init [level_in; tipped_in])
              * TILT_INT_FACT)%f32) <= 1535 / 1000)%R.
Proof.
  apply X14_integral_term_bounded.
  repeat constructor; unfold adc, ADC_RANGE; cbn; lia.
Defined.

(** ** setup *)

Lemma mask_set_twice (x m c k : Z) :
  Z.land (Z.lor (Z.land (Z.land (Z.lor (Z.land x m) c) k) m) c) k =
  Z.land (Z.lor (Z.land x m) c) k.
Proof.
  apply Z.bits_inj'. intros n _.
  rewrite !Z.land_spec, !Z.lor_spec, !Z.land_spec, !Z.lor_spec, !Z.land_spec.
  destruct (Z.testbit x n), (Z.testbit m n), (Z.testbit c n),
    (Z.testbit k n); reflexivity.
Qed.

(** X15.  Whatever the bit numbers and the registers held before, after
    [setup] the register TCCR2B holds the value of TCCR0B: it is computed
    from TCCR0B, and what TCCR2B held before is lost.  When [CS02] is below
    3, TCCR0B keeps its bits 3 to 7; bit [CS02] of it is set; and both duty
    cycles are 0. *)
Theorem X15_setup_timer2_takes_timer0 (CS02 CS10 TOIE1 : Z) (b : Board) :
  let b' := setup CS02 CS10 TOIE1 b in
  TCCR2B b' = TCCR0B b' /\
  (forall b2 : Board,
      TCCR0B b2 = TCCR0B b ->
      TCCR2B (setup CS02 CS10 TOIE1 b2) = TCCR2B b') /\
  (0 <= CS02 < 3 ->
   forall n, 3 <= n < 8 -> Z.testbit (TCCR0B b') n = Z.testbit (TCCR0B b) n) /\
  (0 <= CS02 < 8 -> Z.testbit (TCCR0B b') CS02 = true) /\
  pwm_duty b' pwm_a = Some 0 /\ pwm_duty b' pwm_b = Some 0.
Proof.
  destruct b as [pm pd sb so t0 t1 t2 tc tm ie].
  lazy beta iota zeta delta
    [setup RESET_TIMER1 analogWrite pinMode Serial_begin Serial_println
     set_TCCR0B set_TCCR1B set_TCCR2B set_TCNT1 set_TIMSK1 sei reg8
     TCCR0B TCCR2B pwm_duty pin_mode].
  split; [apply mask_set_twice|].
  split.
  { intros [pm' pd' sb' so' t0' t1' t2' tc' tm' ie'].
    lazy beta iota zeta delta
      [setup RESET_TIMER1 analogWrite pinMode Serial_begin Serial_println
       set_TCCR0B set_TCCR1B set_TCCR2B set_TCNT1 set_TIMSK1 sei reg8
       TCCR0B TCCR2B pwm_duty pin_mode].
    intros ->. reflexivity. }
  split; [|split; [|split; vm_compute; reflexivity]].
  - intros Hc n Hn.
    rewrite Z.land_spec, Z.lor_spec, Z.land_spec. unfold _BV.
    rewrite Z.shiftl_spec by lia.
    assert (E1 : Z.testbit 1 (n - CS02) = false).
    { apply Z.bits_above_log2; [lia|]. change (Z.log2 1) with 0. lia. }
    rewrite E1, orb_false_r.
    assert (E2 : Z.testbit 248 n = true).
    { assert (n = 3 \/ n = 4 \/ n = 5 \/ n = 6 \/ n = 7) by lia.
      destruct H as [->|[->|[->|[->| ->]]]]; reflexivity. }
    assert (E3 : Z.testbit 255 n = true).
    { assert (n = 3 \/ n = 4 \/ n = 5 \/ n = 6 \/ n = 7) by lia.
      destruct H as [->|[->|[->|[->| ->]]]]; reflexivity. }
    rewrite E2, E3, !andb_true_r. reflexivity.
  - intros Hc.
    rewrite Z.land_spec, Z.lor_spec. unfold _BV.
    rewrite Z.shiftl_spec, Z.sub_diag by lia.
    change (Z.testbit 1 0) with true. rewrite orb_true_r, andb_true_l.
    assert (CS02 = 0 \/ CS02 = 1 \/ CS02 = 2 \/ CS02 = 3 \/ CS02 = 4 \/
            CS02 = 5 \/ CS02 = 6 \/ CS02 = 7) by lia.
    destruct H as [->|[->|[->|[->|[->|[->|[->| ->]]]]]]]; reflexivity.
Qed.

Lemma X15_witness :
  Z.testbit (TCCR0B (setup 2 0 0 board0)) 3 = Z.testbit (TCCR0B board0) 3 /\
  Z.testbit (TCCR0B (setup 2 0 0 board0)) 2 = true.
Proof.
  destruct (X15_setup_timer2_takes_timer0 2 0 0 board0)
    as (_ & _ & H3 & H2 & _).
  split; [apply H3; lia|apply H2; lia].
Defined.

(** ** Rounding a mantissa of at least 24 bits *)

(** Rounding with any location: the result is [m2 * 2^(ex+n)], where [n] is
    the number of bits dropped and [m2] is the truncated mantissa or its
    successor. *)
Lemma round_any_spec (s : bool) (mx ex : Z) (lx : location) :
  0 <= mx ->
  let n := Z.max 0 (fexp prec emax (Zdigits2 mx + ex) - ex) in
  ex + n <= 103 ->
  exists m2 m e : Z,
    binary_round_aux prec emax s mx ex lx =
      match m with
      | Z0 => S754_zero s
      | Z.pos p => S754_finite s p e
      | Z.neg _ => S754_nan
      end /\
    0 <= m < 2 ^ 24 /\
    -149 <= ex + n <= e /\ e <= ex + n + 1 /\
    m * 2 ^ (e - (ex + n)) = m2 /\
    mx / 2 ^ n <= m2 <= mx / 2 ^ n + 1 /\ m2 <= 2 ^ 24 /\
    (m2 < 2 ^ 24 -> m = m2 /\ e = ex + n).
Proof.
  intros Hm n Hn.
  assert (Hlo : -149 <= ex + n) by (subst n; rewrite fexp_eq; lia).
  unfold binary_round_aux.
  destruct (shr_fexp_exact mx ex lx Hm) as [M1 E1].
  destruct (shr_fexp_spec mx ex lx Hm) as [B1 _].
  fold n in M1, E1.
  destruct (shr_fexp prec emax mx ex lx) as [mrs' e'];
    cbn [fst snd] in M1, E1, B1.
  pose proof (round_nearest_even_bounds (shr_m mrs') (loc_of_shr_record mrs'))
    as H2.
  set (m2 := round_nearest_even (shr_m mrs') (loc_of_shr_record mrs')) in *.
  destruct (shr_fexp_fits m2 e') as (m & e & M3 & E3 & Bm & Be & V & Vs);
    [lia|lia|].
  destruct (shr_fexp prec emax m2 e' loc_Exact) as [mrs'' e''];
    cbn [fst snd] in M3, E3.
  exists m2, m, e; rewrite M3, E3.
  split; [|repeat split; try lia; rewrite <- E1; exact V].
  destruct m as [|p|p]; try reflexivity.
  replace (e <=? emax - prec) with true; [reflexivity|].
  symmetry; apply Z.leb_le; change (emax - prec) with 104; lia.
Qed.

Lemma Zdigits2_ge (m k : Z) : 0 <= k -> 2 ^ k <= m -> k < Zdigits2 m.
Proof.
  intros Hk H.
  assert (Hm : 0 <= m) by (pose proof (Z.pow_pos_nonneg 2 k); lia).
  destruct (Zdigits2_bounds m Hm) as [Hd Hlt].
  destruct (Z_lt_le_dec k (Zdigits2 m)) as [|Hle]; [assumption|].
  assert (2 ^ Zdigits2 m <= 2 ^ k) by (apply Z.pow_le_mono_r; lia).
  lia.
Qed.

Lemma Zdigits2_lower (m : Z) : 0 < m -> 2 ^ (Zdigits2 m - 1) <= m.
Proof.
  destruct m as [|p|p]; try lia. intros _. cbn [Zdigits2].
  apply digits2_pos_bounds.
Qed.

(** Rounding a mantissa [mx] of at least 24 bits: the result is normal, and
    any real number between [mx * 2^ex] and [(mx + 1) * 2^ex] is within one
    unit in the last place of it. *)
Lemma round_normal (mx ex : Z) (lx : location) (t : R) :
  2 ^ 23 <= mx ->
  -149 <= ex + (Zdigits2 mx - 24) <= 103 ->
  (IZR mx * bpow ex <= t <= IZR (mx + 1) * bpow ex)%R ->
  let r := binary_round_aux prec emax false mx ex lx in
  normal r /\
  match r with
  | S754_finite _ _ e =>
      ex + (Zdigits2 mx - 24) <= e <= ex + (Zdigits2 mx - 24) + 1
  | _ => False
  end /\
  (B2R r * (1 - bpow (-23)) <= t <= B2R r * (1 + bpow (-23)))%R.
Proof.
  intros Hmx He Ht r; subst r.
  assert (H0 : 0 <= mx) by (change (2 ^ 23) with 8388608 in Hmx; lia).
  assert (Hd : 23 < Zdigits2 mx) by (apply Zdigits2_ge; lia).
  pose proof (Zdigits2_lower mx ltac:(lia)) as Hlow.
  destruct (Zdigits2_bounds mx H0) as [_ Hup].
  pose proof (round_any_spec false mx ex lx H0) as RS. cbv zeta in RS.
  rewrite fexp_eq in RS.
  replace (Z.max 0 (Z.max (Zdigits2 mx + ex - 24) (-149) - ex))
    with (Zdigits2 mx - 24) in RS by lia.
  set (n := Zdigits2 mx - 24) in *.
  destruct RS as (m2 & m & e & -> & Hm & Hlo & Hhi & Hval & Hm2 & Hm2' & Hfit);
    [lia|].
  assert (P2n : 0 < 2 ^ n) by (apply Z.pow_pos_nonneg; lia).
  assert (HF : 2 ^ 23 <= mx / 2 ^ n).
  { apply Z.div_le_lower_bound; [lia|].
    rewrite <- Z.pow_add_r by lia.
    replace (n + 23) with (Zdigits2 mx - 1) by lia. exact Hlow. }
  assert (Hm23 : 2 ^ 23 <= m).
  { destruct (Z_lt_le_dec m2 (2 ^ 24)) as [L|L].
    - destruct (Hfit L) as [-> _]. lia.
    - assert (E24 : m2 = 2 ^ 24) by lia.
      assert (e - (ex + n) = 0 \/ e - (ex + n) = 1) by lia.
      destruct H as [E|E]; rewrite E, E24 in Hval.
      + change (2 ^ 0) with 1 in Hval. lia.
      + change (2 ^ 1) with 2 in Hval. change (2 ^ 24) with 16777216 in Hval.
        change (2 ^ 23) with 8388608. lia. }
  destruct m as [|p|p]; [change (2 ^ 23) with 8388608 in Hm23; lia| |lia].
  cbn [normal]. split; [split; [reflexivity|lia]|].
  split; [lia|].
  (* the value *)
  set (U := bpow (ex + n)).
  assert (PU : (0 < U)%R) by apply bpow_pos.
  assert (EV : B2R (S754_finite false p e) = (IZR m2 * U)%R).
  { cbn [B2R cond_Zopp]. rewrite <- Hval, mult_IZR.
    rewrite (bpow_IZR (e - (ex + n))) by lia.
    unfold U. rewrite Rmult_assoc, <- bpow_add.
    do 2 f_equal. lia. }
  rewrite EV.
  set (F := mx / 2 ^ n) in *.
  pose proof (Z.div_mod mx (2 ^ n) ltac:(lia)) as DM.
  pose proof (Z.mod_pos_bound mx (2 ^ n) P2n) as MB.
  fold F in DM.
  assert (EU : U = (bpow ex * IZR (2 ^ n))%R).
  { unfold U. rewrite bpow_add, (bpow_IZR n) by lia. reflexivity. }
  assert (Emx : IZR mx = (IZR (2 ^ n) * IZR F + IZR (mx mod 2 ^ n))%R).
  { rewrite <- mult_IZR, <- plus_IZR. f_equal. exact DM. }
  assert (R0 : (0 <= IZR (mx mod 2 ^ n))%R) by (apply IZR_le; lia).
  assert (R1 : (IZR (mx mod 2 ^ n) + 1 <= IZR (2 ^ n))%R).
  { rewrite <- plus_IZR. apply IZR_le. lia. }
  assert (PB : (0 < bpow ex)%R) by apply bpow_pos.
  assert (Lo : (IZR F * U <= IZR mx * bpow ex)%R).
  { rewrite EU, Emx. clear - R0 PB. nra. }
  assert (Hi : (IZR (mx + 1) * bpow ex <= IZR (F + 1) * U)%R).
  { rewrite !plus_IZR, EU, Emx. clear - R1 PB. nra. }
  assert (F23 : (8388608 <= IZR F)%R) by (apply IZR_le; exact HF).
  assert (M2 : (IZR F <= IZR m2 <= IZR F + 1)%R).
  { rewrite <- plus_IZR. split; apply IZR_le; lia. }
  replace (bpow (-23)) with (/ 8388608)%R by (bpow_num; reflexivity).
  rewrite plus_IZR in Ht. rewrite !plus_IZR in Hi.
  assert (A1 : (0 <= (IZR m2 - IZR F) * U)%R)
    by (apply Rmult_le_pos; lra).
  assert (A2 : (0 <= (IZR F + 1 - IZR m2) * U)%R)
    by (apply Rmult_le_pos; lra).
  assert (A3 : (0 <= (IZR F - 8388608) * U)%R)
    by (apply Rmult_le_pos; lra).
  clearbody U F. clear - Ht Lo Hi A1 A2 A3 PU.
  split; lra.
Qed.

(** ** The square root *)

(** What the integer core of the square root returns on a 24-bit mantissa:
    a root [q] of exactly 24 bits at half the exponent. *)
Lemma sqrt_core_spec (m : positive) (e : Z) :
  Z.pos m < 2 ^ 24 -> -149 <= e <= 104 ->
  exists (q e' s : Z) (l : location),
    SFsqrt_core_binary prec emax (Z.pos m) e = (q, e', l) /\
    0 <= s /\ e = 2 * e' + s /\
    q * q <= Z.pos m * 2 ^ s < (q + 1) * (q + 1) /\
    2 ^ 23 <= q < 2 ^ 24 /\ -98 <= e' <= 52.
Proof.
  intros Hm He. unfold SFsqrt_core_binary.
  change IntDef.Z.min with Z.min. change IntDef.Z.div2 with Z.div2.
  change IntDef.Z.shiftl with Z.shiftl. change IntDef.Z.sqrtrem with Z.sqrtrem.
  set (d := Zdigits2 (Z.pos m)).
  assert (Hd : 1 <= d <= 24).
  { split; [unfold d; cbn [Zdigits2]; lia|].
    apply Zdigits2_le; lia. }
  pose proof (Zdigits2_lower (Z.pos m) ltac:(lia)) as Hlow. fold d in Hlow.
  destruct (Zdigits2_bounds (Z.pos m) ltac:(lia)) as [_ Hup]. fold d in Hup.
  rewrite !Z.div2_div, fexp_eq.
  set (k := (d + e + 1) / 2).
  assert (Hk : d + e <= 2 * k <= d + e + 1)
    by (unfold k; Z.div_mod_to_equations; lia).
  assert (He2 : e - 1 <= 2 * (e / 2) <= e) by (Z.div_mod_to_equations; lia).
  replace (Z.min (Z.max (k - 24) (-149)) (e / 2)) with (k - 24) by lia.
  set (s := e - 2 * (k - 24)).
  assert (Hs : 47 - d <= s <= 48 - d) by (unfold s; lia).
  destruct s as [|ps|ps] eqn:Es; try lia.
  rewrite Z.shiftl_mul_pow2 by lia.
  set (m' := Z.pos m * 2 ^ Z.pos ps).
  assert (Hm' : 2 ^ 46 <= m' < 2 ^ 48).
  { unfold m'. split.
    - apply Z.le_trans with (2 ^ (d - 1) * 2 ^ Z.pos ps).
      + rewrite <- Z.pow_add_r by lia. apply Z.pow_le_mono_r; lia.
      + apply Z.mul_le_mono_nonneg_r; [apply Z.pow_nonneg; lia|exact Hlow].
    - apply Z.lt_le_trans with (2 ^ d * 2 ^ Z.pos ps).
      + apply Z.mul_lt_mono_pos_r; [apply Z.pow_pos_nonneg; lia|exact Hup].
      + rewrite <- Z.pow_add_r by lia. apply Z.pow_le_mono_r; lia. }
  pose proof (Z.sqrtrem_spec m' ltac:(lia)) as SQ.
  destruct (Z.sqrtrem m') as [q r]. destruct SQ as [Eq Hr].
  eexists q, (k - 24), (Z.pos ps), _. split; [reflexivity|].
  split; [lia|]. split; [lia|].
  fold m'. split; [nia|].
  change (2 ^ 46) with (2 ^ 23 * 2 ^ 23) in Hm'.
  change (2 ^ 48) with (2 ^ 24 * 2 ^ 24) in Hm'.
  split; [split; nia|lia].
Qed.

Lemma bpow_sqr (e : Z) : (bpow e * bpow e = bpow (2 * e))%R.
Proof. rewrite <- bpow_add. f_equal. lia. Qed.

(** Between non-negative numbers the order of the squares is that of the
    numbers. *)
Lemma sqr_le_inv (a b : R) :
  (0 <= a)%R -> (0 <= b)%R -> (a * a <= b * b)%R -> (a <= b)%R.
Proof. intros Ha Hb H. nra. Qed.

Lemma sqr_lt_inv (a b : R) :
  (0 <= a)%R -> (0 <= b)%R -> (a * a < b * b)%R -> (a < b)%R.
Proof. intros Ha Hb H. nra. Qed.

(** The square root of a positive finite value is normal and within one unit
    in the last place of the real square root. *)
Lemma sqrt_R (m : positive) (e : Z) :
  Z.pos m < 2 ^ 24 -> -149 <= e <= 104 ->
  let r := F32.sqrt (S754_finite false m e) in
  let t := R_sqrt.sqrt (B2R (S754_finite false m e)) in
  normal r /\
  match r with S754_finite _ _ er => -98 <= er <= 53 | _ => False end /\
  (B2R r * (1 - bpow (-23)) <= t <= B2R r * (1 + bpow (-23)))%R.
Proof.
  intros Hm He r t.
  destruct (sqrt_core_spec m e Hm He)
    as (q & e' & s & l & Ec & Hs & Ee & Hq & Hq24 & He').
  unfold r, F32.sqrt, SFsqrt. rewrite Ec.
  assert (D24 : Zdigits2 q = 24).
  { assert (Zdigits2 q <= 24) by (apply Zdigits2_le; lia).
    assert (23 < Zdigits2 q) by (apply Zdigits2_ge; lia). lia. }
  assert (Ht : (IZR q * bpow e' <= t <= IZR (q + 1) * bpow e')%R).
  { pose proof (bpow_pos e') as PU.
    assert (Ex : B2R (S754_finite false m e) =
                 (IZR (Z.pos m * 2 ^ s) * (bpow e' * bpow e'))%R).
    { cbn [B2R cond_Zopp]. rewrite mult_IZR, (bpow_IZR s), bpow_sqr by lia.
      rewrite Rmult_assoc, <- bpow_add. do 2 f_equal. lia. }
    assert (X0 : (0 <= B2R (S754_finite false m e))%R).
    { rewrite Ex. apply Rmult_le_pos; [apply IZR_le; lia|nra]. }
    pose proof (sqrt_pos (B2R (S754_finite false m e))) as T0.
    pose proof (sqrt_sqrt _ X0) as TT. fold t in T0, TT.
    rewrite Ex in TT.
    assert (Q0 : (0 <= IZR q)%R) by (apply IZR_le; lia).
    assert (L : (IZR (q * q) <= IZR (Z.pos m * 2 ^ s))%R)
      by (apply IZR_le; lia).
    assert (U : (IZR (Z.pos m * 2 ^ s) < IZR ((q + 1) * (q + 1)))%R)
      by (apply IZR_lt; lia).
    rewrite mult_IZR in L. rewrite (mult_IZR (q + 1)), plus_IZR in U.
    rewrite plus_IZR.
    set (M := IZR (Z.pos m * 2 ^ s)) in *. clearbody M.
    set (u := bpow e') in *. clearbody u.
    split.
    - apply sqr_le_inv; [nra|exact T0|]. rewrite TT. nra.
    - apply Rlt_le. apply sqr_lt_inv; [exact T0|nra|]. rewrite TT.
      replace ((IZR q + 1) * u * ((IZR q + 1) * u))%R
        with ((IZR q + 1) * (IZR q + 1) * (u * u))%R by ring.
      apply Rmult_lt_compat_r; [nra|exact U]. }
  destruct (round_normal q e' l t) as (N & E & B); [lia|lia|exact Ht|].
  split; [exact N|]. split; [|exact B].
  destruct (binary_round_aux prec emax false q e' l); try contradiction.
  lia.
Qed.

(** ** The output mapper, as real numbers *)

(** The factor 7 keeps a normal value normal and within one unit in the last
    place of the product. *)
Lemma mul7_R (r : float) :
  normal r ->
  match r with S754_finite _ _ er => -98 <= er <= 53 | _ => False end ->
  let v := (of_int 7 * r)%f32 in
  normal v /\
  match v with S754_finite _ _ ev => -149 <= ev <= 104 | _ => False end /\
  (B2R v * (1 - bpow (-23)) <= 7 * B2R r <= B2R v * (1 + bpow (-23)))%R.
Proof.
  destruct r as [s|s| |s m e]; cbn [normal]; try contradiction.
  intros [-> Hm] He; cbv zeta.
  change (of_int 7) with (S754_finite false 14680064 (-21)).
  unfold mul, SFmul; cbn [xorb].
  change (Z.pos (14680064 * m)) with (14680064 * Z.pos m).
  set (mx := 14680064 * Z.pos m).
  assert (Hmx : 2 ^ 46 <= mx < 2 ^ 48).
  { unfold mx. change (2 ^ 46) with 70368744177664.
    change (2 ^ 48) with 281474976710656.
    change (2 ^ 23) with 8388608 in Hm. change (2 ^ 24) with 16777216 in Hm.
    lia. }
  assert (Hd : 46 < Zdigits2 mx <= 48).
  { split; [apply Zdigits2_ge; lia|apply Zdigits2_le; lia]. }
  assert (E7 : (IZR mx * bpow (-21 + e) =
                7 * B2R (S754_finite false m e))%R).
  { cbn [B2R cond_Zopp]. unfold mx. rewrite mult_IZR, bpow_add.
    replace (bpow (-21)) with (/ 2097152)%R by (bpow_num; reflexivity).
    field. }
  destruct (round_normal mx (-21 + e) loc_Exact (IZR mx * bpow (-21 + e)))
    as (N & E & B).
  - change (2 ^ 46) with 70368744177664 in Hmx.
    change (2 ^ 23) with 8388608. lia.
  - lia.
  - pose proof (bpow_pos (-21 + e)). rewrite plus_IZR. split; nra.
  - rewrite <- E7. split; [exact N|]. split; [|exact B].
    destruct (binary_round_aux prec emax false mx (-21 + e) loc_Exact);
      try contradiction.
    lia.
Qed.

(** Comparing a normal value with 255. *)
Lemma cmp_255 (v : float) :
  normal v ->
  match v with S754_finite _ _ ev => -149 <= ev | _ => False end ->
  if (v >? f_0xff)%f32 then (255 < B2R v)%R
  else capped v /\ (B2R v <= 255)%R.
Proof.
  destruct v as [s|s| |s m e]; cbn [normal]; try contradiction.
  intros [-> Hm] He.
  pose proof (bpow_pos e) as Pe.
  assert (M0 : (8388608 <= IZR (Z.pos m) < 16777216)%R).
  { split; [apply (IZR_le 8388608)|apply (IZR_lt _ 16777216)];
      change (2 ^ 23) with 8388608 in Hm; change (2 ^ 24) with 16777216 in Hm;
      lia. }
  unfold gtb, ltb, SFltb, f_0xff; cbn [SFcompare B2R cond_Zopp capped].
  destruct (Z.compare_spec (-16) e) as [E|E|E].
  - subst e.
    replace (bpow (-16)) with (/ 65536)%R in * by (bpow_num; reflexivity).
    change (PosDef.Pos.compare_cont Eq 16711680 m)
      with (16711680 ?= Z.pos m).
    destruct (Z.compare_spec 16711680 (Z.pos m)) as [C|C|C].
    + rewrite <- C. split; [repeat split; lia|]. lra.
    + assert (Z : 16711681 <= Z.pos m) by lia.
      apply IZR_le in Z. lra.
    + assert (Z : Z.pos m <= 16711679) by lia.
      split; [repeat split; lia|].
      apply IZR_le in Z. lra.
  - assert (B : (bpow (-15) <= bpow e)%R) by (apply bpow_le; lia).
    replace (bpow (-15)) with (/ 32768)%R in B by (bpow_num; reflexivity).
    assert (8388608 * / 32768 <= IZR (Z.pos m) * bpow e)%R
      by (apply Rmult_le_compat; lra).
    lra.
  - assert (B : (bpow e <= bpow (-17))%R) by (apply bpow_le; lia).
    replace (bpow (-17)) with (/ 131072)%R in B by (bpow_num; reflexivity).
    assert (IZR (Z.pos m) * bpow e <= 16777216 * / 131072)%R
      by (apply Rmult_le_compat; lra).
    split; [repeat split; lia|]. lra.
Qed.

Lemma abs_finite (s : bool) (m : positive) (e : Z) :
  abs (S754_finite s m e) = S754_finite false m e.
Proof. destruct s; reflexivity. Qed.

(** The duty cycle of a finite speed [v] is the integer part of
    [7 * sqrt |v|], up to a relative error of [2^-21], capped at 255. *)
Lemma duty_root (v : float) :
  fin 104 v ->
  exists d : Z,
    duty (shape v) 1 = Some d /\ 0 <= d <= 255 /\
    let y := (7 * R_sqrt.sqrt (Rabs (B2R v)))%R in
    (IZR d <= y * (1 + bpow (-21)))%R /\
    (d = 255 \/ (y * (1 - bpow (-21)) < IZR d + 1)%R).
Proof.
  destruct v as [s|s| |s m e]; cbn [fin]; try contradiction.
  - intros _. exists 0.
    split; [destruct s; vm_compute; reflexivity|]. split; [lia|].
    cbn [B2R]. rewrite Rabs_R0, sqrt_0, Rmult_0_r, !Rmult_0_l. split; [lra|].
    right. lra.
  - intros [Hm He].
    destruct (sqrt_R m e Hm He) as (Nr & Er & Br).
    destruct (mul7_R _ Nr Er) as (Nv & Ev & Bv).
    assert (Ex : Rabs (B2R (S754_finite s m e)) =
                 B2R (S754_finite false m e)).
    { rewrite !B2R_finite, Rabs_sign. rewrite Rabs_pos_eq; [lra|].
      pose proof (bpow_pos e).
      apply Rmult_le_pos; [apply IZR_le; lia|lra]. }
    cbv zeta. rewrite Ex.
    pose proof (sqrt_pos (B2R (S754_finite false m e))) as T0.
    set (t := R_sqrt.sqrt (B2R (S754_finite false m e))) in *.
    unfold shape, duty. rewrite abs_finite.
    set (r := F32.sqrt (S754_finite false m e)) in *.
    set (v7 := (of_int 7 * r)%f32) in *.
    assert (Ev' : match v7 with S754_finite _ _ ev => -149 <= ev
                  | _ => False end).
    { destruct v7; try contradiction. lia. }
    pose proof (cmp_255 v7 Nv Ev') as C.
    replace (bpow (-23)) with (/ 8388608)%R in Br, Bv
      by (bpow_num; reflexivity).
    replace (bpow (-21)) with (/ 2097152)%R by (bpow_num; reflexivity).
    assert (Y0 : (0 <= B2R v7)%R).
    { destruct v7 as [| | |s7 m7 e7]; try contradiction.
      destruct Nv as [-> _]. cbn [B2R cond_Zopp]. pose proof (bpow_pos e7).
      apply Rmult_le_pos; [apply IZR_le; lia|lra]. }
    assert (R0 : (0 <= B2R r)%R).
    { destruct r as [| | |sr mr er]; try contradiction.
      destruct Nr as [-> _]. cbn [B2R cond_Zopp]. pose proof (bpow_pos er).
      apply Rmult_le_pos; [apply IZR_le; lia|lra]. }
    assert (Up : (B2R v7 <= 7 * t * (1 + / 2097152))%R).
    { clear - Br Bv Y0 R0 T0. lra. }
    assert (Lo : (7 * t * (1 - / 2097152) <= B2R v7)%R).
    { clear - Br Bv Y0 R0 T0. lra. }
    change (of_int 1) with (S754_finite false 8388608 (-23)).
    destruct (v7 >? f_0xff)%f32.
    + exists 255. split; [vm_compute; reflexivity|]. split; [lia|].
      split; [|left; reflexivity]. clear - C Up. lra.
    + destruct C as [Cap C].
      destruct (mul_one_capped v7 Cap) as (z & -> & Hz & Bz).
      exists z. split.
      { replace (z >? 255) with false; [reflexivity|].
        symmetry. rewrite Z.gtb_ltb. apply Z.ltb_ge. lia. }
      split; [exact Hz|]. split; [|right]; clear - Bz Up Lo; lra.
Qed.

(** X16.  For a finite speed command both duty cycles written are the
    same number [d] between 0 and 255, which is the integer part of
    [7 * sqrt |speed|] up to a relative error of [2^-21] in the root:
    [d <= 7 sqrt|speed| (1 + 2^-21)], and [d = 255] or
    [7 sqrt|speed| (1 - 2^-21) < d + 1].  From power-on, with readings from
    the ADC, this holds on every tick. *)
Theorem X16_duty_is_seven_root :
  (forall (s : State) (inp : Inputs),
      fin 104 (speed_command s inp) ->
      seven_root (speed_command s inp) (snd (ISR s inp))) /\
  (forall (ins : list Inputs) (inp : Inputs),
      Forall adc_inputs ins -> adc_inputs inp ->
      seven_root (speed_command (exec init ins) inp)
                 (snd (ISR (exec init ins) inp))).
Proof.
  assert (G : forall s inp, fin 104 (speed_command s inp) ->
              seven_root (speed_command s inp) (snd (ISR s inp))).
  { intros s inp F. destruct (duty_root _ F) as (d & Ed & Hd & B).
    exists d. unfold ISR; cbn [snd motor_a_speed motor_b_speed].
    fold (speed_command s inp). unfold MOTOR_A_FACTOR, MOTOR_B_FACTOR.
    rewrite Ed. auto. }
  split; [exact G|].
  intros ins inp H Hi. apply G.
  destruct (Inv_step _ inp (Inv_exec ins H init Inv_init) Hi) as [_ F].
  apply fin_le with (1 := F). lia.
Qed.

Lemma X16_witness :
  seven_root (speed_command (exec init [level_in]) tipped_in)
             (snd (ISR (exec init [level_in]) tipped_in)).
Proof.
  apply (proj2 X16_duty_is_seven_root);
    repeat constructor; unfold adc, ADC_RANGE; cbn; lia.
Defined.

(** ** One Balancing update, as real numbers *)

(** From a rounding error bound to an interval and to a bound on the
    magnitude of the rounded value. *)
Lemma approx_interval (x t eps mu : R) :
  (Rabs (x - t) <= eps * Rabs t + mu)%R ->
  (t - (eps * Rabs t + mu) <= x <= t + (eps * Rabs t + mu))%R /\
  (Rabs x <= Rabs t + (eps * Rabs t + mu))%R.
Proof.
  intros H.
  pose proof (Rabs_le_interval _ _ H) as I.
  split; [split; lra|].
  pose proof (Rabs_triang (x - t) t) as T.
  replace (x - t + t)%R with x in T by ring. lra.
Qed.

Lemma balancing_R (tilt ti d xf kp kd : float) :
  tilt_ok tilt -> fin (-22) ti -> fin (-16) d -> fin (-19) xf ->
  fin (-20) kp -> fin (-13) kd ->
  let tilt' := (tilt + (d + xf))%f32 in
  let P := (B2R tilt' * B2R kp)%R in
  let I := (B2R ti * B2R TILT_INT_FACT)%R in
  let D := (B2R d * B2R kd)%R in
  (Rabs (B2R tilt' - (B2R tilt + (B2R d + B2R xf))) <=
     bpow (-21) * (Rabs (B2R tilt) + Rabs (B2R d + B2R xf)) + bpow (-146))%R /\
  (Rabs (B2R (tilt' * kp + ti * TILT_INT_FACT + d * kd)%f32 - (P + I + D)) <=
     bpow (-21) * (Rabs P + Rabs I + Rabs D) + bpow (-146))%R.
Proof.
  intros [Ft Bt] Fi Fd Fx Fkp Fkd tilt' P I D.
  pose proof (fin_bound _ _ Fd) as Bd.
  pose proof (fin_bound _ _ Fx) as Bx.
  assert (Mu : (0 < bpow (-149))%R) by apply bpow_pos.
  assert (M148 : bpow (-148) = (2 * bpow (-149))%R).
  { change (-148) with (1 + -149). rewrite bpow_add.
    replace (bpow 1) with 2%R by (bpow_num; reflexivity). reflexivity. }
  assert (M146 : bpow (-146) = (8 * bpow (-149))%R).
  { change (-146) with (3 + -149). rewrite bpow_add.
    replace (bpow 3) with 8%R by (bpow_num; reflexivity). reflexivity. }
  assert (E23 : bpow (-23) = (/ 8388608)%R) by (bpow_num; reflexivity).
  assert (E22 : bpow (-22) = (/ 4194304)%R) by (bpow_num; reflexivity).
  assert (E21 : bpow (-21) = (/ 2097152)%R) by (bpow_num; reflexivity).
  (* the increment *)
  destruct (add_R d xf _ _ 9 Fd Fx) as [Finc Einc].
  { apply Rabs_def1; bpow_num; lra. }
  { lia. }
  apply fin_le with (k' := -14) in Finc; [|lia].
  (* the tilt *)
  destruct (tilt_step tilt (d + xf)%f32 Ft Bt Finc) as [Ft' Bt'].
  pose proof (fin_bound _ _ Finc) as Binc.
  pose proof (Rabs_le_interval _ _ Bt) as It.
  destruct (add_R tilt (d + xf)%f32 _ _ 35 Ft Finc) as [_ Et].
  { apply Rabs_def1; bpow_num; lra. }
  { lia. }
  fold tilt' in Ft', Bt', Et.
  pose proof (Rabs_le_interval _ _ Bt') as It'.
  split.
  { rewrite E23 in Einc, Et. rewrite E21, M146.
    apply approx_interval in Einc. destruct Einc as [Ji Ai].
    apply approx_interval in Et. destruct Et as [Jt At].
    pose proof (Rabs_triang (B2R tilt) (B2R (d + xf)%f32)) as T1.
    pose proof (Rabs_pos (B2R tilt)) as N1.
    pose proof (Rabs_pos (B2R d + B2R xf)) as N2.
    set (a := Rabs (B2R tilt)) in *.
    set (b := Rabs (B2R d + B2R xf)) in *.
    set (c := Rabs (B2R (d + xf)%f32)) in *.
    set (s := Rabs (B2R tilt + B2R (d + xf)%f32)) in *.
    clearbody a b c s.
    apply Rabs_le. clear - Ji Ai Jt At T1 N1 N2 Mu. split; lra. }
  clearbody tilt'.
  pose proof (fin_bound _ _ Fkp) as Bkp.
  pose proof (fin_bound _ _ Fkd) as Bkd.
  pose proof (fin_bound _ _ Fi) as Bi.
  destruct (mul_R tilt' kp 11 (-20) 39 Ft' Fkp) as [F1 E1].
  { replace (bpow 39) with (bpow 35 * bpow 4)%R by (bpow_num; lra).
    apply Rabs_mul_lt; bpow_num; lra. }
  { lia. }
  apply fin_le with (k' := 16) in F1; [|lia].
  pose proof (fin_bound _ _ F1) as B1.
  destruct (mul_R ti TILT_INT_FACT (-22) (-25) 1 Fi) as [F2 E2].
  { unfold TILT_INT_FACT; cbn [fin]; lia. }
  { replace (bpow 1) with (bpow 2 * bpow (-1))%R by (bpow_num; lra).
    apply Rabs_mul_lt; [bpow_num; lra|].
    unfold TILT_INT_FACT; cbn [B2R cond_Zopp]; bpow_num; lra. }
  { lia. }
  apply fin_le with (k' := -22) in F2; [|lia].
  pose proof (fin_bound _ _ F2) as B2.
  destruct (add_R _ _ _ _ 41 F1 F2) as [F3 E3].
  { apply Rabs_def1; bpow_num; lra. }
  { lia. }
  apply fin_le with (k' := 18) in F3; [|lia].
  pose proof (fin_bound _ _ F3) as B3.
  destruct (mul_R d kd (-16) (-13) 19 Fd Fkd) as [F4 E4].
  { replace (bpow 19) with (bpow 8 * bpow 11)%R by (bpow_num; lra).
    apply Rabs_mul_lt; bpow_num; lra. }
  { lia. }
  apply fin_le with (k' := -4) in F4; [|lia].
  pose proof (fin_bound _ _ F4) as B4.
  destruct (add_R _ _ _ _ 43 F3 F4) as [_ E5].
  { apply Rabs_def1; bpow_num; lra. }
  { lia. }
  fold P in E1. fold I in E2. fold D in E4.
  rewrite E23 in E1, E2, E3, E4, E5. rewrite E21, M146.
  apply approx_interval in E1. destruct E1 as [J1 A1].
  apply approx_interval in E2. destruct E2 as [J2 A2].
  apply approx_interval in E3. destruct E3 as [J3 A3].
  apply approx_interval in E4. destruct E4 as [J4 A4].
  apply approx_interval in E5. destruct E5 as [J5 A5].
  set (p1 := (tilt' * kp)%f32) in *. set (p2 := (ti * TILT_INT_FACT)%f32) in *.
  set (s1 := (p1 + p2)%f32) in *. set (p3 := (d * kd)%f32) in *.
  set (s2 := (s1 + p3)%f32) in *.
  pose proof (Rabs_triang (B2R p1) (B2R p2)) as T1.
  pose proof (Rabs_triang (B2R s1) (B2R p3)) as T2.
  pose proof (Rabs_pos P) as NP. pose proof (Rabs_pos I) as NI.
  pose proof (Rabs_pos D) as ND.
  clearbody p1 p2 s1 p3 s2 P I D.
  set (aP := Rabs P) in *. set (aI := Rabs I) in *. set (aD := Rabs D) in *.
  set (a1 := Rabs (B2R p1)) in *. set (a2 := Rabs (B2R p2)) in *.
  set (a3 := Rabs (B2R p3)) in *. set (as1 := Rabs (B2R s1)) in *.
  set (a12 := Rabs (B2R p1 + B2R p2)) in *.
  set (a13 := Rabs (B2R s1 + B2R p3)) in *.
  clearbody aP aI aD a1 a2 a3 as1 a12 a13.
  apply Rabs_le.
  clear - J1 A1 J2 A2 J3 A3 J4 A4 J5 A5 T1 T2 NP NI ND Mu.
  split; lra.
Qed.

(** X17.  From power-on, with readings from the ADC, on a tick that takes
    the Balancing branch the new tilt estimate is the old one plus the gyro
    rate plus the filtered x signal, and the speed command is the sum of the
    three terms tilt * K_p, integral * K_i and rate * K_d, both as real
    numbers up to a relative error of [2^-21] in the magnitudes of the
    summands (and [2^-146]). *)
Theorem X17_balancing_in_reals (ins : list Inputs) (inp : Inputs) :
  Forall adc_inputs ins -> adc_inputs inp ->
  branch (exec init ins) inp = Balancing ->
  let s := exec init ins in
  let s' := fst (ISR s inp) in
  let d := B2R (d_tilt_rads_of (gyro_offset_pot s) (in_gyro inp)) in
  let P := (B2R (tilt_rads s') * B2R (K_p s))%R in
  let I := (B2R (tilt_int_rads s') * B2R (K_i s))%R in
  let D := (d * B2R (K_d s))%R in
  (Rabs (B2R (tilt_rads s') -
         (B2R (tilt_rads s) + (d + B2R (x_filt_gs s')))) <=
     bpow (-21) * (Rabs (B2R (tilt_rads s)) + Rabs (d + B2R (x_filt_gs s')))
     + bpow (-146))%R /\
  (Rabs (B2R (speed_command s inp) - (P + I + D)) <=
     bpow (-21) * (Rabs P + Rabs I + Rabs D) + bpow (-146))%R.
Proof.
  intros H Hi Hb s s' d P I D.
  pose proof (Inv_exec ins H init Inv_init) as Hs. fold s in Hs, Hb.
  clearbody s.
  destruct Hs as (Hf & Hg & Ht & Hd & Htilt & Fint & Wint).
  destruct Hi as (Ig & Ix & Iy & _).
  destruct (filterx_ok (filt s) (x_gs_of (in_x inp)) Hf
              (filter_input_fin _ Ix)) as [Hf' Ey].
  assert (Fxf : fin (-19) (snd (filterx (filt s) (x_gs_of (in_x inp))))).
  { rewrite Ey. apply Hf'. }
  pose proof (d_tilt_fin _ _ Hg Ig) as Fd.
  destruct (branch_cases s inp) as [[C _]|[(C & _)|(_ & Hfa & Hrc)]];
    try congruence.
  destruct (control_balancing s inp Hfa Hrc) as (Esp & _ & Et & Ei).
  cbn [acquire d_tilt_rads x_filt] in Esp, Et, Ei.
  destruct (balancing_fin (tilt_rads s) (tilt_int_rads s)
              (d_tilt_rads_of (gyro_offset_pot s) (in_gyro inp))
              (snd (filterx (filt s) (x_gs_of (in_x inp))))
              (tilt_pot s) (d_tilt_pot s))
    as (_ & Fi' & _); try assumption.
  pose proof (balancing_R (tilt_rads s)
                (tilt_int_rads (fst (control s inp)))
                (d_tilt_rads_of (gyro_offset_pot s) (in_gyro inp))
                (snd (filterx (filt s) (x_gs_of (in_x inp))))
                (TILT_FACT (tilt_pot s)) (D_TILT_FACT (d_tilt_pot s))
                Htilt) as BR.
  rewrite Ei in BR at 1.
  specialize (BR Fi' Fd Fxf (K_p_fin _ Ht) (K_d_fin _ Hd)).
  cbv zeta in BR.
  unfold P, I, D, d, s', speed_command, K_p, K_i, K_d.
  rewrite ISR_tilt_rads, ISR_tilt_int_rads, ISR_x_filt_gs.
  rewrite Esp. unfold speed_law. rewrite Et.
  rewrite <- Ei. exact BR.
Qed.

Lemma X17_witness :
  (Rabs (B2R (speed_command (exec init [level_in]) tipped_in) -
         (B2R (tilt_rads (fst (ISR (exec init [level_in]) tipped_in))) *
            B2R (K_p (exec init [level_in])) +
          B2R (tilt_int_rads (fst (ISR (exec init [level_in]) tipped_in))) *
            B2R (K_i (exec init [level_in])) +
          B2R (d_tilt_rads_of (gyro_offset_pot (exec init [level_in]))
                              (in_gyro tipped_in)) *
            B2R (K_d (exec init [level_in])))) <=
   bpow (-21) *
     (Rabs (B2R (tilt_rads (fst (ISR (exec init [level_in]) tipped_in))) *
            B2R (K_p (exec init [level_in]))) +
      Rabs (B2R (tilt_int_rads (fst (ISR (exec init [level_in]) tipped_in))) *
            B2R (K_i (exec init [level_in]))) +
      Rabs (B2R (d_tilt_rads_of (gyro_offset_pot (exec init [level_in]))
                                (in_gyro tipped_in)) *
            B2R (K_d (exec init [level_in]))))
   + bpow (-146))%R.
Proof.
  refine (proj2 (X17_balancing_in_reals [level_in] tipped_in _ _ _)).
  - repeat constructor; unfold adc, ADC_RANGE; cbn; lia.
  - repeat constructor; unfold adc, ADC_RANGE; cbn; lia.
  - vm_compute; reflexivity.
Defined.

(** ** The filter's difference equation, as real numbers *)

(** The scaled input [x_gs / GAIN], against the real quotient. *)
Lemma filter_input_R (x : Z) :
  adc x ->
  (Rabs (B2R (x_gs_of x / GAIN)%f32 * B2R GAIN - B2R (x_gs_of x)) <=
     bpow (-23) * Rabs (B2R (x_gs_of x)) + bpow (-149) * B2R GAIN)%R.
Proof.
  intros H.
  pose proof (forall_adc
    (fun z => finb 104 (x_gs_of z / GAIN)%f32 && finb 104 (x_gs_of z) &&
              (Z.abs (key (x_gs_of z / GAIN)%f32 * key GAIN
                      - key (x_gs_of z) * 2 ^ 149)
               <=? Z.abs (key (x_gs_of z)) * 2 ^ 126 + key GAIN))) as A.
  cbv beta in A. specialize (A ltac:(vm_compute; reflexivity) x H).
  apply andb_true_iff in A. destruct A as [A A3].
  apply andb_true_iff in A. destruct A as [A1 A2].
  apply finb_fin in A1, A2. apply Z.leb_le in A3.
  assert (FG : fin 104 GAIN) by (unfold GAIN; cbn [fin]; lia).
  rewrite (B2R_key _ _ A1), (B2R_key _ _ A2), (B2R_key _ _ FG).
  set (kq := key (x_gs_of x / GAIN)%f32) in *.
  set (kx := key (x_gs_of x)) in *. set (kG := key GAIN) in *.
  clearbody kq kx kG.
  set (b := bpow (-149)).
  assert (Pb : (0 < b)%R) by apply bpow_pos.
  assert (E1 : (IZR (2 ^ 149) * b = 1)%R).
  { unfold b. rewrite (bpow_IZR 149), <- bpow_add by lia. reflexivity. }
  assert (E2 : bpow (-23) = (IZR (2 ^ 126) * b)%R).
  { unfold b. rewrite (bpow_IZR 126), <- bpow_add by lia. reflexivity. }
  apply IZR_le in A3.
  rewrite plus_IZR, mult_IZR, !abs_IZR, minus_IZR, !mult_IZR in A3.
  rewrite E2.
  replace (IZR kq * b * (IZR kG * b) - IZR kx * b)%R
    with ((IZR kq * IZR kG - IZR kx * IZR (2 ^ 149)) * (b * b))%R.
  2:{ replace (IZR kx * b)%R with (IZR kx * b * (IZR (2 ^ 149) * b))%R
        by (rewrite E1; ring).
      ring. }
  rewrite Rabs_mult, (Rabs_pos_eq (b * b)) by nra.
  rewrite (Rabs_mult (IZR kx) b), (Rabs_pos_eq b) by lra.
  replace (IZR (2 ^ 126) * b * (Rabs (IZR kx) * b) + b * (IZR kG * b))%R
    with ((Rabs (IZR kx) * IZR (2 ^ 126) + IZR kG) * (b * b))%R by ring.
  apply Rmult_le_compat_r; [nra|exact A3].
Qed.

Lemma filt_ok_exec (ins : list Inputs) :
  Forall (fun i => adc (in_x i)) ins ->
  forall s, filt_ok (filt s) -> filt_ok (filt (exec s ins)).
Proof.
  induction 1 as [|i ins Hi _ IH]; intros s Hs; cbn [exec]; [exact Hs|].
  apply IH, filt_ok_step; assumption.
Qed.

(** X18.  From power-on, with x readings from the ADC, every tick shifts
    the delay lines by one slot, stores [x_gs / GAIN] (the real quotient up
    to a relative error of [2^-23]) in the newest input slot, and returns,
    up to [2^-18], the real number
    [(xv0 + xv2) + 2 xv1 - 0.9131487 yv0 + 1.9092019 yv1] of the shifted
    delay lines, the two coefficients being the binary32 values [ca] and
    [cb] of the literals. *)
Theorem X18_filter_difference_equation (ins : list Inputs) (inp : Inputs) :
  Forall (fun i => adc (in_x i)) ins -> adc (in_x inp) ->
  let fs := filt (exec init ins) in
  let s' := fst (ISR (exec init ins) inp) in
  let x := B2R (x_gs_of (in_x inp)) in
  xv0 (filt s') = xv1 fs /\ xv1 (filt s') = xv2 fs /\
  yv0 (filt s') = yv1 fs /\ yv1 (filt s') = yv2 fs /\
  x_filt_gs s' = yv2 (filt s') /\
  (Rabs (B2R (xv2 (filt s')) * B2R GAIN - x) <=
     bpow (-23) * Rabs x + bpow (-149) * B2R GAIN)%R /\
  (Rabs (B2R (x_filt_gs s') -
         (B2R (xv0 (filt s')) + B2R (xv2 (filt s')) + 2 * B2R (xv1 (filt s'))
          - ca * B2R (yv0 (filt s')) + cb * B2R (yv1 (filt s'))))
     <= bpow (-18))%R.
Proof.
  intros H Hx fs s' x.
  assert (Hf : filt_ok fs) by (apply filt_ok_exec; [exact H|apply Inv_init]).
  destruct (filterx_step fs (x_gs_of (in_x inp)) Hf (filter_input_fin _ Hx))
    as [_ E].
  unfold s'. rewrite ISR_filt, ISR_x_filt_gs. fold fs.
  repeat (split; [reflexivity|]).
  split; [apply filter_input_R; exact Hx|exact E].
Qed.

Lemma X18_witness :
  (Rabs (B2R (x_filt_gs (fst (ISR (exec init [level_in]) tipped_in))) -
         (B2R (xv0 (filt (fst (ISR (exec init [level_in]) tipped_in)))) +
          B2R (xv2 (filt (fst (ISR (exec init [level_in]) tipped_in)))) +
          2 * B2R (xv1 (filt (fst (ISR (exec init [level_in]) tipped_in))))
          - ca * B2R (yv0 (filt (fst (ISR (exec init [level_in]) tipped_in))))
          + cb * B2R (yv1 (filt (fst (ISR (exec init [level_in]) tipped_in))))))
     <= bpow (-18))%R.
Proof.
  refine (proj2 (proj2 (proj2 (proj2 (proj2 (proj2
    (X18_filter_difference_equation [level_in] tipped_in _ _))))))).
  - repeat constructor; unfold adc, ADC_RANGE; cbn; lia.
  - unfold adc, ADC_RANGE; cbn; lia.
Defined.

(** ** The sensor conversions, as real numbers *)

Lemma IZR_key (c : Z) : (IZR (c * 2 ^ 149) * bpow (-149) = IZR c)%R.
Proof.
  rewrite mult_IZR, (bpow_IZR 149), Rmult_assoc, <- bpow_add by lia.
  change (149 + -149) with 0. change (bpow 0) with 1%R. lra.
Qed.

(** The offset count of the x axis and the count of the y axis are exact. *)
Lemma accel_count_exact (r : Z) :
  adc r ->
  let cx := (of_int (int16 (r - 512)) + X_OFFSET)%f32 in
  let cy := of_int (int16 (r - 512)) in
  fin (-12) cx /\ B2R cx = IZR (r - 504) /\
  fin (-12) cy /\ B2R cy = IZR (r - 512).
Proof.
  intros H.
  pose proof (forall_adc
    (fun r => finb (-12) (of_int (int16 (r - 512)) + X_OFFSET)%f32 &&
              (key (of_int (int16 (r - 512)) + X_OFFSET)%f32
               =? (r - 504) * 2 ^ 149) &&
              (finb (-12) (of_int (int16 (r - 512))) &&
               (key (of_int (int16 (r - 512))) =? (r - 512) * 2 ^ 149))))
    as A.
  cbv beta in A. specialize (A ltac:(vm_compute; reflexivity) r H).
  apply andb_true_iff in A. destruct A as [A B].
  apply andb_true_iff in A. destruct A as [A1 A2].
  apply andb_true_iff in B. destruct B as [B1 B2].
  apply finb_fin in A1, B1. apply Z.eqb_eq in A2, B2.
  cbv zeta.
  rewrite (B2R_key _ _ A1), (B2R_key _ _ B1), A2, B2, !IZR_key.
  auto.
Qed.

Lemma accel_R (c : float) (n : Z) :
  fin (-12) c -> B2R c = IZR n -> -512 <= n <= 519 ->
  (Rabs (B2R (ACCEL_G_PER_ADC_UNIT * c)%f32 -
         B2R ACCEL_G_PER_ADC_UNIT * IZR n) <=
     bpow (-23) * Rabs (B2R ACCEL_G_PER_ADC_UNIT * IZR n) + bpow (-149))%R.
Proof.
  intros F E Hn.
  assert (FA : fin (-32) ACCEL_G_PER_ADC_UNIT)
    by (unfold ACCEL_G_PER_ADC_UNIT; cbn [fin]; lia).
  destruct (mul_R ACCEL_G_PER_ADC_UNIT c (-32) (-12) 2 FA F) as [_ Em].
  - rewrite E.
    assert (-512 <= IZR n <= 519)%R by (split; apply IZR_le; lia).
    unfold ACCEL_G_PER_ADC_UNIT; cbn [B2R cond_Zopp].
    apply Rabs_def1; bpow_num; lra.
  - lia.
  - rewrite E in Em. exact Em.
Qed.

(** X19.  The two scale factors are the decimal values of the source up to
    [2^-33] and [2^-31].  With readings from the ADC, [x_gs] and [y_gs] are
    the scale factor times [reading - 512 + 8] and [reading - 512] up to a
    relative error of [2^-23], and [d_tilt_rads] is the gyro scale factor
    times [512 - reading + (pot - 512) * 0.1] up to a relative error of
    [2^-21] in the magnitudes of the two summands. *)
Theorem X19_conversions_in_reals :
  (Rabs (B2R ACCEL_G_PER_ADC_UNIT - 17 / 10 * 2 / 1024) <= bpow (-33))%R /\
  (Rabs (B2R GYRO_RAD_PER_ADC_UNIT - 150 * 2 / 1024 * (174532925 / 10 ^ 10))
     <= bpow (-31))%R /\
  (forall r : Z, adc r ->
     (Rabs (B2R (x_gs_of r) - B2R ACCEL_G_PER_ADC_UNIT * (IZR r - 512 + 8)) <=
        bpow (-23) * Rabs (B2R ACCEL_G_PER_ADC_UNIT * (IZR r - 512 + 8))
        + bpow (-149))%R) /\
  (forall r : Z, adc r ->
     (Rabs (B2R (y_gs_of r) - B2R ACCEL_G_PER_ADC_UNIT * (IZR r - 512)) <=
        bpow (-23) * Rabs (B2R ACCEL_G_PER_ADC_UNIT * (IZR r - 512))
        + bpow (-149))%R) /\
  (forall pot g : Z, adc pot -> adc g ->
     let a := (512 - IZR g)%R in
     let o := ((IZR pot - 512) * B2R f_0_1)%R in
     (Rabs (B2R (d_tilt_rads_of pot g) - B2R GYRO_RAD_PER_ADC_UNIT * (a + o))
      <= bpow (-21) * (B2R GYRO_RAD_PER_ADC_UNIT * (Rabs a + Rabs o))
         + bpow (-146))%R).
Proof.
  split; [|split; [|split; [|split]]].
  - unfold ACCEL_G_PER_ADC_UNIT; cbn [B2R cond_Zopp].
    apply Rabs_le. bpow_num. split; lra.
  - unfold GYRO_RAD_PER_ADC_UNIT; cbn [B2R cond_Zopp].
    apply Rabs_le. bpow_num. split; lra.
  - intros r H. destruct (accel_count_exact r H) as (F & E & _).
    replace (IZR r - 512 + 8)%R with (IZR (r - 504))
      by (rewrite minus_IZR; lra).
    apply accel_R; [exact F|exact E|unfold adc, ADC_RANGE in H; lia].
  - intros r H. destruct (accel_count_exact r H) as (_ & _ & F & E).
    replace (IZR r - 512)%R with (IZR (r - 512)) by (rewrite minus_IZR; lra).
    apply accel_R; [exact F|exact E|unfold adc, ADC_RANGE in H; lia].
  - intros pot g Hp Hg a o.
    destruct (gyro_count_exact g Hg) as [Fa Ea].
    destruct (accel_count_exact pot Hp) as (_ & _ & Fc & Ec).
    cbv zeta in Fc, Ec.
    unfold d_tilt_rads_of, gyro_offset_of.
    set (fa := of_int (int16 (512 - g))) in *.
    set (fc := of_int (int16 (pot - 512))) in *.
    assert (Ra : (-511 <= B2R fa <= 512)%R).
    { rewrite Ea. unfold adc, ADC_RANGE in Hg. split; apply IZR_le; lia. }
    assert (Rc : (-512 <= B2R fc <= 511)%R).
    { rewrite Ec. unfold adc, ADC_RANGE in Hp. split; apply IZR_le; lia. }
    assert (Ea' : B2R fa = a) by (rewrite Ea, minus_IZR; reflexivity).
    assert (Ec' : (B2R fc * B2R f_0_1)%R = o)
      by (rewrite Ec, minus_IZR; reflexivity).
    clearbody fa fc a o. clear Ea Ec Hp Hg.
    assert (F01 : fin (-27) f_0_1) by (unfold f_0_1; cbn [fin]; lia).
    assert (E01 : B2R f_0_1 = (13421773 / 134217728)%R).
    { unfold f_0_1; cbn [B2R cond_Zopp]. bpow_num. lra. }
    assert (FG : fin (-31) GYRO_RAD_PER_ADC_UNIT)
      by (unfold GYRO_RAD_PER_ADC_UNIT; cbn [fin]; lia).
    assert (EG : B2R GYRO_RAD_PER_ADC_UNIT = (10980662 / 2147483648)%R).
    { unfold GYRO_RAD_PER_ADC_UNIT; cbn [B2R cond_Zopp]. bpow_num. lra. }
    assert (E23 : bpow (-23) = (/ 8388608)%R) by (bpow_num; reflexivity).
    assert (E21 : bpow (-21) = (/ 2097152)%R) by (bpow_num; reflexivity).
    assert (Mu : (0 < bpow (-149))%R) by apply bpow_pos.
    assert (M146 : bpow (-146) = (8 * bpow (-149))%R).
    { change (-146) with (3 + -149). rewrite bpow_add.
      replace (bpow 3) with 8%R by (bpow_num; reflexivity). reflexivity. }
    assert (U : (bpow (-149) <= bpow (-30))%R) by (apply bpow_le; lia).
    replace (bpow (-30)) with (/ 1073741824)%R in U by (bpow_num; reflexivity).
    (* the offset *)
    destruct (mul_R fc f_0_1 (-12) (-27) 9 Fc F01) as [F3 E3].
    { rewrite E01. apply Rabs_def1; bpow_num; lra. }
    { lia. }
    apply fin_le with (k' := -14) in F3; [|lia].
    rewrite Ec', E23 in E3.
    apply approx_interval in E3. destruct E3 as [J3 A3].
    assert (Ro : (-52 <= o <= 52)%R) by (rewrite <- Ec', E01; split; lra).
    assert (Ao : (Rabs o <= 52)%R) by (apply Rabs_le; lra).
    set (go := (fc * f_0_1)%f32) in *.
    (* the sum *)
    destruct (add_R fa go _ _ 10 Fa F3) as [F4 E4].
    { apply Rabs_def1; bpow_num; lra. }
    { lia. }
    apply fin_le with (k' := -12) in F4; [|lia].
    rewrite E23 in E4.
    apply approx_interval in E4. destruct E4 as [J4 A4].
    pose proof (Rabs_triang (B2R fa) (B2R go)) as T4.
    set (sm := (fa + go)%f32) in *.
    assert (Aa : (Rabs (B2R fa) <= 512)%R) by (apply Rabs_le; lra).
    (* the rate *)
    destruct (mul_R GYRO_RAD_PER_ADC_UNIT sm (-31) (-12) 2 FG F4) as [_ E5].
    { rewrite Rabs_mult, EG, (Rabs_pos_eq (10980662 / 2147483648)) by lra.
      bpow_num. lra. }
    { lia. }
    rewrite Rabs_mult, E23, EG in E5.
    rewrite (Rabs_pos_eq (10980662 / 2147483648)) in E5 by lra.
    rewrite E21, M146, EG. rewrite Ea' in *.
    pose proof (Rabs_pos a) as Na. pose proof (Rabs_pos o) as No.
    apply Rabs_le_interval in E5.
    set (d := B2R (GYRO_RAD_PER_ADC_UNIT * sm)%f32) in *.
    set (vs := B2R sm) in *. set (vg := B2R go) in *.
    set (aa := Rabs a) in *. set (ao := Rabs o) in *.
    set (ag := Rabs vg) in *. set (as4 := Rabs (a + vg)) in *.
    set (avs := Rabs vs) in *.
    clearbody d vs vg aa ao ag as4 avs.
    apply Rabs_le.
    clear - J3 A3 J4 A4 T4 E5 Na No Mu U.
    split; lra.
Qed.

Lemma X19_witness :
  (Rabs (B2R (x_gs_of 300) - B2R ACCEL_G_PER_ADC_UNIT * (IZR 300 - 512 + 8)) <=
     bpow (-23) * Rabs (B2R ACCEL_G_PER_ADC_UNIT * (IZR 300 - 512 + 8))
     + bpow (-149))%R.
Proof.
  destruct X19_conversions_in_reals as (_ & _ & Hx & _).
  apply Hx. unfold adc, ADC_RANGE; lia.
Defined.

(** * Comparisons, as real numbers *)

(** ** Canonical values *)

Lemma canonicalb_canonical (x : float) : canonicalb x = true -> canonical x.
Proof.
  destruct x as [s|s| |s m e]; cbn [canonicalb canonical]; try tauto.
  rewrite !andb_true_iff, orb_true_iff, Z.ltb_lt, !Z.leb_le, Z.eqb_eq.
  tauto.
Qed.

(** Rounding returns a canonical value when the input exponent is at most
    the one the format gives to the input. *)
Lemma round_canonical (s : bool) (mx ex : Z) (lx : location) :
  0 <= mx -> ex <= fexp prec emax (Zdigits2 mx + ex) ->
  canonical (binary_round_aux prec emax s mx ex lx).
Proof.
  intros Hm Hex.
  rewrite fexp_eq in Hex.
  unfold binary_round_aux.
  destruct (shr_fexp_exact mx ex lx Hm) as [M1 E1].
  destruct (shr_fexp_spec mx ex lx Hm) as [B1 _].
  rewrite fexp_eq in M1, E1.
  set (n := Z.max 0 (Z.max (Zdigits2 mx + ex - 24) (-149) - ex)) in *.
  assert (Hn : 0 <= n) by lia.
  assert (Ef : ex + n = Z.max (Zdigits2 mx + ex - 24) (-149)) by lia.
  destruct (shr_fexp prec emax mx ex lx) as [mrs' e'];
    cbn [fst snd] in M1, E1, B1.
  pose proof (round_nearest_even_bounds (shr_m mrs') (loc_of_shr_record mrs'))
    as H2.
  set (m2 := round_nearest_even (shr_m mrs') (loc_of_shr_record mrs')) in *.
  destruct (shr_fexp_fits m2 e') as (m & e & M3 & E3 & Bm & Be & V & Vs);
    [lia|lia|].
  destruct (shr_fexp prec emax m2 e' loc_Exact) as [mrs'' e''];
    cbn [fst snd] in M3, E3.
  rewrite M3, E3.
  destruct m as [|p|p]; [exact I| |exact I].
  change (emax - prec) with 104.
  destruct (Z.leb_spec e 104) as [L|L]; [|exact I].
  cbn [canonical]. split; [lia|split; [lia|]].
  destruct (Z_lt_le_dec m2 (2 ^ 24)) as [Lt|Ge].
  - destruct (Vs Lt) as [Em Ee].
    destruct (Z.eq_dec (ex + n) (-149)) as [E|NE]; [right; lia|left].
    assert (Hd : ex + n = Zdigits2 mx + ex - 24) by lia.
    assert (Hpos : 0 < mx).
    { destruct (Z.eq_dec mx 0) as [->|]; [|lia].
      cbn [Zdigits2] in *. rewrite Z.div_0_l in M1 by
        (pose proof (Z.pow_pos_nonneg 2 n); lia). lia. }
    pose proof (Zdigits2_lower mx Hpos) as Hlow.
    assert (P2n : 0 < 2 ^ n) by (apply Z.pow_pos_nonneg; lia).
    assert (HF : 2 ^ 23 <= mx / 2 ^ n).
    { apply Z.div_le_lower_bound; [lia|].
      rewrite <- Z.pow_add_r by lia.
      replace (n + 23) with (Zdigits2 mx - 1) by lia. exact Hlow. }
    lia.
  - left. assert (E24 : m2 = 2 ^ 24) by lia.
    assert (e - e' = 0 \/ e - e' = 1) by lia.
    destruct H as [E|E]; rewrite E, E24 in V.
    + change (2 ^ 0) with 1 in V. lia.
    + change (2 ^ 1) with 2 in V. change (2 ^ 24) with 16777216 in V.
      change (2 ^ 23) with 8388608. lia.
Qed.

Lemma binary_round_canonical (s : bool) (m : positive) (e : Z) :
  canonical (binary_round prec emax s m e).
Proof.
  unfold binary_round.
  pose proof (shl_align_spec m e (fexp prec emax (Z.pos (digits2_pos m) + e)))
    as [E V].

  destruct (shl_align m e (fexp prec emax (Z.pos (digits2_pos m) + e)))
    as [mz ez]; cbn [fst snd] in E, V.
  apply round_canonical; [lia|].
  assert (D : Zdigits2 (Z.pos mz) + ez = Z.pos (digits2_pos m) + e).
  { cbn [Zdigits2].
    pose proof (digits2_pos_bounds m) as [Dlo Dhi].
    assert (He : 0 <= e - ez) by lia.
    symmetry.
    assert (Z.pos (digits2_pos m) + (e - ez) = Z.pos (digits2_pos mz)); [|lia].
    symmetry. apply digits_unique.
    rewrite V. split.
    - replace (Z.pos (digits2_pos m) + (e - ez) - 1)
        with (Z.pos (digits2_pos m) - 1 + (e - ez)) by lia.
      rewrite Z.pow_add_r by lia.
      apply Z.mul_le_mono_nonneg_r; [apply Z.pow_nonneg; lia|exact Dlo].
    - rewrite Z.pow_add_r by lia.
      apply Z.mul_lt_mono_pos_r; [apply Z.pow_pos_nonneg; lia|exact Dhi]. }
  rewrite D. lia.
Qed.

Lemma binary_normalize_canonical (z e : Z) :
  canonical (binary_normalize prec emax z e false).
Proof.
  destruct z as [|p|p]; cbn [binary_normalize];
    [exact I|apply binary_round_canonical..].
Qed.

Lemma add_canonical (a b : float) :
  canonical a -> canonical b -> canonical (a + b)%f32.
Proof.
  intros Ha Hb.
  destruct a as [sa|sa| |sa ma ea], b as [sb|sb| |sb mb eb];
    unfold add, SFadd; try exact I; try assumption.
  - destruct sa, sb; exact I.
  - destruct sa, sb; exact I.
  - apply binary_normalize_canonical.
Qed.

Lemma mul_canonical (a b : float) :
  canonical a -> canonical b -> canonical (a * b)%f32.
Proof.
  intros Ha Hb.
  destruct a as [sa|sa| |sa ma ea], b as [sb|sb| |sb mb eb];
    unfold mul, SFmul; try exact I.
  cbn [canonical] in Ha, Hb.
  destruct Ha as (Ma & Ea & Na), Hb as (Mb & Eb & Nb).
  apply round_canonical; [lia|].
  rewrite fexp_eq, Pos2Z.inj_mul.
  assert (D : forall k, 0 <= k -> 2 ^ k <= Z.pos ma * Z.pos mb ->
                        k < Zdigits2 (Z.pos ma * Z.pos mb))
    by (intros k; apply Zdigits2_ge).
  destruct Na as [Na|Na], Nb as [Nb|Nb].
  - assert (46 < Zdigits2 (Z.pos ma * Z.pos mb)); [|lia].
    apply D; [lia|]. change (2 ^ 46) with (2 ^ 23 * 2 ^ 23).
    apply Z.mul_le_mono_nonneg; lia.
  - assert (23 < Zdigits2 (Z.pos ma * Z.pos mb)); [|lia].
    apply D; [lia|]. clear - Na. nia.
  - assert (23 < Zdigits2 (Z.pos ma * Z.pos mb)); [|lia].
    apply D; [lia|]. clear - Nb. nia.
  - lia.
Qed.

Lemma opp_canonical (a : float) : canonical a -> canonical (- a)%f32.
Proof. destruct a; cbn; tauto. Qed.

Lemma abs_canonical (a : float) : canonical a -> canonical (abs a).
Proof.
  intros H. unfold abs. destruct (a >? S754_zero false)%f32; [exact H|].
  apply opp_canonical, H.
Qed.

Lemma of_int_canonical (z : Z) : canonical (of_int z).
Proof. apply binary_normalize_canonical. Qed.

(** ** Comparisons of canonical values *)

(** Of two positive canonical values, the one with the lower exponent is the
    lower one. *)
Lemma mag_lt (m1 m2 : positive) (e1 e2 : Z) :
  Z.pos m1 < 2 ^ 24 -> -149 <= e1 -> e1 < e2 -> 2 ^ 23 <= Z.pos m2 ->
  Z.pos m1 * 2 ^ (e1 + 149) < Z.pos m2 * 2 ^ (e2 + 149).
Proof.
  intros H1 He Hlt H2.
  replace (e2 + 149) with (e1 + 149 + (e2 - e1)) by lia.
  rewrite (Z.pow_add_r 2 (e1 + 149) (e2 - e1)) by lia.
  assert (P : 0 < 2 ^ (e1 + 149)) by (apply Z.pow_pos_nonneg; lia).
  assert (Q : 2 ^ 1 <= 2 ^ (e2 - e1)) by (apply Z.pow_le_mono_r; lia).
  change (2 ^ 1) with 2 in Q. change (2 ^ 24) with 16777216 in H1.
  change (2 ^ 23) with 8388608 in H2.
  set (p := 2 ^ (e1 + 149)) in *. set (q := 2 ^ (e2 - e1)) in *.
  set (a := Z.pos m1) in *. set (b := Z.pos m2) in *.
  clearbody p q a b. clear - H1 H2 P Q.
  apply Z.lt_le_trans with (16777216 * p).
  - apply Z.mul_lt_mono_pos_r; assumption.
  - rewrite (Z.mul_comm p q), Z.mul_assoc.
    apply Z.mul_le_mono_nonneg_r; [lia|].
    change 16777216 with (8388608 * 2).
    apply Z.mul_le_mono_nonneg; lia.
Qed.

(** On canonical finite values the binary32 comparison is the comparison of
    the values. *)
Lemma canonical_ltb_key (x y : float) :
  canonical x -> canonical y -> fin 104 x -> fin 104 y ->
  ((x <? y)%f32 = true <-> key x < key y).
Proof.
  intros Cx Cy Fx Fy.
  destruct x as [sx|sx| |sx mx ex], y as [sy|sy| |sy my ey];
    cbn [fin] in Fx, Fy; try contradiction;
    unfold ltb, SFltb; cbn [SFcompare key].
  - split; [discriminate|lia].
  - assert (P : 0 < Z.pos my * 2 ^ (ey + 149))
      by (apply Z.mul_pos_pos; [lia|apply Z.pow_pos_nonneg; lia]).
    destruct sy; cbn [cond_Zopp];
      split; intros; first [reflexivity|discriminate|lia].
  - assert (P : 0 < Z.pos mx * 2 ^ (ex + 149))
      by (apply Z.mul_pos_pos; [lia|apply Z.pow_pos_nonneg; lia]).
    destruct sx; cbn [cond_Zopp];
      split; intros; first [reflexivity|discriminate|lia].
  - cbn [canonical] in Cx, Cy.
    destruct Cx as (Mx & Ex & Nx), Cy as (My & Ey & Ny).
    assert (P : 0 < Z.pos mx * 2 ^ (ex + 149))
      by (apply Z.mul_pos_pos; [lia|apply Z.pow_pos_nonneg; lia]).
    assert (Q : 0 < Z.pos my * 2 ^ (ey + 149))
      by (apply Z.mul_pos_pos; [lia|apply Z.pow_pos_nonneg; lia]).
    assert (HL : ex < ey ->
                 Z.pos mx * 2 ^ (ex + 149) < Z.pos my * 2 ^ (ey + 149))
      by (intros L; apply mag_lt; lia).
    assert (HG : ey < ex ->
                 Z.pos my * 2 ^ (ey + 149) < Z.pos mx * 2 ^ (ex + 149))
      by (intros L; apply mag_lt; lia).
    assert (HE : ex = ey ->
                 (Z.pos mx < Z.pos my <->
                  Z.pos mx * 2 ^ (ex + 149) < Z.pos my * 2 ^ (ey + 149))).
    { intros <-. assert (0 < 2 ^ (ex + 149)) by (apply Z.pow_pos_nonneg; lia).
      split; intros; nia. }
    assert (HE' : ex = ey ->
                  (Z.pos my < Z.pos mx <->
                   Z.pos my * 2 ^ (ey + 149) < Z.pos mx * 2 ^ (ex + 149))).
    { intros <-. assert (0 < 2 ^ (ex + 149)) by (apply Z.pow_pos_nonneg; lia).
      split; intros; nia. }
    pose proof (pos_cmp mx my) as C.
    set (p := Z.pos mx * 2 ^ (ex + 149)) in *.
    set (q := Z.pos my * 2 ^ (ey + 149)) in *.
    set (a := Z.pos mx) in *. set (b := Z.pos my) in *.
    assert (Kx : cond_Zopp sx a * 2 ^ (ex + 149) = cond_Zopp sx p)
      by (destruct sx; cbn [cond_Zopp]; unfold p, a; ring).
    assert (Ky : cond_Zopp sy b * 2 ^ (ey + 149) = cond_Zopp sy q)
      by (destruct sy; cbn [cond_Zopp]; unfold q, b; ring).
    rewrite Kx, Ky. clear Kx Ky.
    clearbody p q a b.
    destruct sx, sy; cbn [cond_Zopp].
    + destruct (Z.compare_spec ex ey) as [E|E|E].
      * specialize (HE E). specialize (HE' E). clear - C HE HE' P Q.
        destruct (PosDef.Pos.compare_cont Eq mx my); cbn [CompOpp];
          split; intros; first [reflexivity|discriminate|lia].
      * specialize (HL E). clear - HL.
        split; intros; first [reflexivity|discriminate|lia].
      * specialize (HG E). clear - HG.
        split; intros; first [reflexivity|discriminate|lia].
    + clear - P Q. split; intros; first [reflexivity|discriminate|lia].
    + clear - P Q. split; intros; first [reflexivity|discriminate|lia].
    + destruct (Z.compare_spec ex ey) as [E|E|E].
      * specialize (HE E). specialize (HE' E). clear - C HE HE' P Q.
        destruct (PosDef.Pos.compare_cont Eq mx my);
          split; intros; first [reflexivity|discriminate|lia].
      * specialize (HL E). clear - HL.
        split; intros; first [reflexivity|discriminate|lia].
      * specialize (HG E). clear - HG.
        split; intros; first [reflexivity|discriminate|lia].
Qed.

Lemma canonical_ltb (x y : float) :
  canonical x -> canonical y -> fin 104 x -> fin 104 y ->
  ((x <? y)%f32 = true <-> (B2R x < B2R y)%R).
Proof.
  intros Cx Cy Fx Fy.
  rewrite (canonical_ltb_key x y Cx Cy Fx Fy).
  rewrite (B2R_key 104 x Fx), (B2R_key 104 y Fy).
  pose proof (bpow_pos (-149)) as P.
  split; intros H.
  - apply Rmult_lt_compat_r; [exact P|apply IZR_lt; exact H].
  - apply lt_IZR. apply Rmult_lt_reg_r with (1 := P). exact H.
Qed.

Lemma B2R_abs (k : Z) (x : float) : fin k x -> B2R (abs x) = Rabs (B2R x).
Proof.
  destruct x as [s|s| |s m e]; cbn [fin]; try contradiction; intros _.
  - destruct s; cbn; rewrite Rabs_R0; reflexivity.
  - rewrite abs_finite, !B2R_finite, Rabs_sign.
    rewrite Rabs_pos_eq; [lra|].
    pose proof (bpow_pos e).
    apply Rmult_le_pos; [apply IZR_le; lia|lra].
Qed.

Lemma abs_fin (k : Z) (x : float) : fin k x -> fin k (abs x).
Proof.
  destruct x as [s|s| |s m e]; cbn [fin]; try contradiction; intros H.
  - destruct s; exact I.
  - rewrite abs_finite. exact H.
Qed.

(** ** The clamp of the integral, as real numbers *)

Lemma clamp_R (k : Z) (t : float) :
  canonical t -> fin k t -> k <= 104 ->
  B2R (clamp_tilt_int t) =
    Rmax (- B2R MAX_TILT_INT) (Rmin (B2R MAX_TILT_INT) (B2R t)).
Proof.
  intros Ct Ft Hk.
  apply fin_le with (k' := 104) in Ft; [|exact Hk].
  assert (CM : canonical MAX_TILT_INT)
    by (apply canonicalb_canonical; vm_compute; reflexivity).
  assert (FM : fin 104 MAX_TILT_INT)
    by (apply finb_fin; vm_compute; reflexivity).
  assert (CN : canonical (- MAX_TILT_INT)%f32)
    by (apply canonicalb_canonical; vm_compute; reflexivity).
  assert (FN : fin 104 (- MAX_TILT_INT)%f32)
    by (apply finb_fin; vm_compute; reflexivity).
  assert (EM : B2R MAX_TILT_INT = (16449339 / 4194304)%R).
  { unfold MAX_TILT_INT; cbn [B2R cond_Zopp]. bpow_num. lra. }
  assert (EN : B2R (- MAX_TILT_INT)%f32 = (- (16449339 / 4194304))%R).
  { unfold MAX_TILT_INT; cbn [opp SFopp negb B2R cond_Zopp]. bpow_num. lra. }
  pose proof (canonical_ltb MAX_TILT_INT t CM Ct FM Ft) as H1.
  pose proof (canonical_ltb t (- MAX_TILT_INT)%f32 Ct CN Ft FN) as H2.
  rewrite EM in *. rewrite EN in H2.
  unfold clamp_tilt_int, gtb.
  destruct (MAX_TILT_INT <? t)%f32.
  - assert (L : (16449339 / 4194304 < B2R t)%R) by (apply H1; reflexivity).
    replace (MAX_TILT_INT <? - MAX_TILT_INT)%f32 with false
      by (vm_compute; reflexivity).
    rewrite EM. unfold Rmax, Rmin. repeat destruct Rle_dec; lra.
  - assert (L : ~ (16449339 / 4194304 < B2R t)%R)
      by (intros C; apply H1 in C; discriminate).
    destruct (t <? - MAX_TILT_INT)%f32.
    + assert (L' : (B2R t < - (16449339 / 4194304))%R)
        by (apply H2; reflexivity).
      rewrite EN. unfold Rmax, Rmin. repeat destruct Rle_dec; lra.
    + assert (L' : ~ (B2R t < - (16449339 / 4194304))%R)
        by (intros C; apply H2 in C; discriminate).
      unfold Rmax, Rmin. repeat destruct Rle_dec; lra.
Qed.

(** ** The values a run holds are canonical *)

Lemma filter_input_canonical (x : Z) :
  adc x -> canonical (x_gs_of x / GAIN)%f32.
Proof.
  intros H. apply canonicalb_canonical.
  apply (forall_adc (fun z => canonicalb (x_gs_of z / GAIN)%f32)); [|exact H].
  vm_compute. reflexivity.
Qed.

Lemma filterx_canonical (fs : FilterState) (inp : float) :
  canonical (xv1 fs) -> canonical (xv2 fs) ->
  canonical (yv1 fs) -> canonical (yv2 fs) ->
  canonical (inp / GAIN)%f32 ->
  canonical (xv1 (fst (filterx fs inp))) /\
  canonical (xv2 (fst (filterx fs inp))) /\
  canonical (yv1 (fst (filterx fs inp))) /\
  canonical (yv2 (fst (filterx fs inp))) /\
  canonical (snd (filterx fs inp)).
Proof.
  intros X1 X2 Y1 Y2 Xi.
  unfold filterx; cbn [fst snd xv1 xv2 yv1 yv2].
  assert (Cy : canonical
                 (xv1 fs + inp / GAIN + of_int 2 * xv2 fs
                  + - lit 9131487721 10 * yv1 fs
                  + lit 19092019151 10 * yv2 fs)%f32).
  { assert (K : forall c : float, canonicalb c = true ->
                forall v : float, canonical v -> canonical (c * v)%f32)
      by (intros c Hc v Hv; apply mul_canonical;
          [apply canonicalb_canonical; exact Hc|exact Hv]).
    apply add_canonical; [|apply K; [reflexivity|exact Y2]].
    apply add_canonical; [|apply K; [reflexivity|exact Y1]].
    apply add_canonical; [|apply K; [reflexivity|exact X2]].
    apply add_canonical; assumption. }
  repeat split; assumption.
Qed.

Lemma x_gs_canonical (x : Z) : canonical (x_gs_of x).
Proof.
  unfold x_gs_of. apply mul_canonical.
  - apply canonicalb_canonical; vm_compute; reflexivity.
  - apply add_canonical; [apply of_int_canonical|].
    apply canonicalb_canonical; vm_compute; reflexivity.
Qed.

Lemma d_tilt_canonical (pot g : Z) : canonical (d_tilt_rads_of pot g).
Proof.
  unfold d_tilt_rads_of, gyro_offset_of. apply mul_canonical.
  - apply canonicalb_canonical; vm_compute; reflexivity.
  - apply add_canonical; [apply of_int_canonical|].
    apply mul_canonical; [apply of_int_canonical|].
    apply canonicalb_canonical; vm_compute; reflexivity.
Qed.

Lemma clamp_canonical (t : float) :
  canonical t -> canonical (clamp_tilt_int t).
Proof.
  intros H. unfold clamp_tilt_int.
  assert (CM : canonical MAX_TILT_INT)
    by (apply canonicalb_canonical; vm_compute; reflexivity).
  destruct (t >? MAX_TILT_INT)%f32;
    match goal with |- canonical (if ?c then _ else _) => destruct c end;
    try assumption; apply opp_canonical, CM.
Qed.

Lemma canonical_step (s : State) (inp : Inputs) :
  canonical_state s -> adc (in_x inp) ->
  canonical_state (fst (ISR s inp)) /\
  canonical (x_filt_gs (fst (ISR s inp))).
Proof.
  intros (X1 & X2 & Y1 & Y2 & T & TI) Hx.
  destruct (filterx_canonical (filt s) (x_gs_of (in_x inp)) X1 X2 Y1 Y2
              (filter_input_canonical _ Hx)) as (X1' & X2' & Y1' & Y2' & Cy).
  unfold canonical_state.
  rewrite ISR_filt, ISR_tilt_rads, ISR_tilt_int_rads, ISR_x_filt_gs.
  assert (Mk : forall t ti,
             canonical t -> canonical ti ->
             (canonical (xv1 (fst (filterx (filt s) (x_gs_of (in_x inp))))) /\
              canonical (xv2 (fst (filterx (filt s) (x_gs_of (in_x inp))))) /\
              canonical (yv1 (fst (filterx (filt s) (x_gs_of (in_x inp))))) /\
              canonical (yv2 (fst (filterx (filt s) (x_gs_of (in_x inp))))) /\
              canonical t /\ canonical ti) /\
             canonical (snd (filterx (filt s) (x_gs_of (in_x inp)))))
    by (intros; tauto).
  destruct (branch_cases s inp) as [[_ Hb]|[(_ & Hb & Hrc)|(_ & Hb & Hrc)]].
  - destruct (control_fallen s inp Hb) as (_ & _ & -> & ->).
    apply Mk; assumption.
  - destruct (control_awaiting s inp Hb Hrc) as (_ & _ & -> & ->).
    destruct (relevel_on inp).
    + apply Mk; [apply x_gs_canonical|exact I].
    + apply Mk; assumption.
  - destruct (control_balancing s inp Hb Hrc) as (_ & _ & -> & ->).
    cbn [acquire d_tilt_rads x_filt].
    assert (T' : canonical
                   (tilt_rads s +
                    (d_tilt_rads_of (gyro_offset_pot s) (in_gyro inp) +
                     snd (filterx (filt s) (x_gs_of (in_x inp)))))%f32).
    { apply add_canonical; [exact T|].
      apply add_canonical; [apply d_tilt_canonical|exact Cy]. }
    apply Mk; [exact T'|].
    apply clamp_canonical, add_canonical; assumption.
Qed.

Lemma canonical_init : canonical_state init.
Proof. repeat split. Qed.

Lemma canonical_exec (ins : list Inputs) :
  Forall (fun i => adc (in_x i)) ins ->
  forall s, canonical_state s -> canonical_state (exec s ins).
Proof.
  induction 1 as [|i ins Hi _ IH]; intros s Hs; cbn [exec]; [exact Hs|].
  apply IH. apply canonical_step; assumption.
Qed.

(** X20.  From power-on, with x readings from the ADC, a tick with a y
    reading from the ADC takes the Fallen branch exactly when the y reading
    is at most 542 and the magnitude of the filtered x signal of that tick
    exceeds, as a real number, the binary32 value of the literal 0.6, which
    is 0.6 up to [2^-25]. *)
Theorem X20_fallen_in_reals (ins : list Inputs) (inp : Inputs) :
  Forall (fun i => adc (in_x i)) ins -> adc (in_x inp) -> adc (in_y inp) ->
  let s := exec init ins in
  (branch s inp = Fallen <->
   in_y inp <= 542 /\
   (B2R f_0_6 < Rabs (B2R (x_filt_gs (fst (ISR s inp)))))%R) /\
  (Rabs (B2R f_0_6 - 6 / 10) <= bpow (-25))%R.
Proof.
  intros H Hx Hy s.
  split.
  2:{ unfold f_0_6; cbn [B2R cond_Zopp]. bpow_num. apply Rabs_le. lra. }
  assert (Hf : filt_ok (filt s)) by (apply filt_ok_exec; [exact H|apply Inv_init]).
  assert (Hc : canonical_state s)
    by (apply canonical_exec; [exact H|apply canonical_init]).
  destruct (filt_ok_step s inp Hf Hx) as (_ & Fy & _).
  destruct (canonical_step s inp Hc Hx) as (_ & Cy).
  set (y := x_filt_gs (fst (ISR s inp))) in *.
  assert (Ey : x_filt (acquire s inp) = y).
  { unfold y. rewrite ISR_x_filt_gs. reflexivity. }
  pose proof (forall_adc
    (fun z => Bool.eqb (y_gs_of z <? f_0_1)%f32 (z <=? 542))) as A.
  cbv beta in A. specialize (A ltac:(vm_compute; reflexivity) _ Hy).
  apply eqb_prop in A.
  assert (C6 : canonical f_0_6)
    by (apply canonicalb_canonical; vm_compute; reflexivity).
  assert (F6 : fin 104 f_0_6) by (apply finb_fin; vm_compute; reflexivity).
  pose proof (canonical_ltb f_0_6 (abs y) C6 (abs_canonical _ Cy) F6
                (abs_fin _ _ (fin_le _ 104 _ Fy ltac:(lia)))) as L.
  rewrite (B2R_abs _ _ Fy) in L.
  assert (E : fallen_on s inp = (in_y inp <=? 542) && (f_0_6 <? abs y)%f32).
  { unfold fallen_on, fallen_condition. rewrite Ey.
    cbn [acquire y_gs]. rewrite A. reflexivity. }
  assert (B : branch s inp = Fallen <-> fallen_on s inp = true).
  { destruct (branch_cases s inp) as [[-> ->]|[(-> & -> & _)|(-> & -> & _)]];
      split; intros; try reflexivity; discriminate. }
  rewrite B, E, andb_true_iff, Z.leb_le, L. tauto.
Qed.

Lemma X20_witness :
  branch (exec init [level_in]) tipped_in = Fallen <->
  in_y tipped_in <= 542 /\
  (B2R f_0_6 <
     Rabs (B2R (x_filt_gs (fst (ISR (exec init [level_in]) tipped_in)))))%R.
Proof.
  refine (proj1 (X20_fallen_in_reals [level_in] tipped_in _ _ _)).
  - repeat constructor; unfold adc, ADC_RANGE; cbn; lia.
  - unfold adc, ADC_RANGE; cbn; lia.
  - unfold adc, ADC_RANGE; cbn; lia.
Defined.

(** X21.  From power-on, with readings from the ADC, on a tick that takes
    the Balancing branch the new integral is, as a real number, the clamp to
    [-MAX_TILT_INT, MAX_TILT_INT] of a number [sigma] that is the old
    integral plus the new tilt estimate up to a relative error of [2^-23]
    (and [2^-149]). *)
Theorem X21_integral_clamp_in_reals (ins : list Inputs) (inp : Inputs) :
  Forall adc_inputs ins -> adc_inputs inp ->
  branch (exec init ins) inp = Balancing ->
  let s := exec init ins in
  let s' := fst (ISR s inp) in
  let M := B2R MAX_TILT_INT in
  let sum := (B2R (tilt_int_rads s) + B2R (tilt_rads s'))%R in
  exists sigma : R,
    B2R (tilt_int_rads s') = Rmax (- M) (Rmin M sigma) /\
    (Rabs (sigma - sum) <= bpow (-23) * Rabs sum + bpow (-149))%R.
Proof.
  intros H Hi Hb s s' M sum.
  pose proof (Inv_exec ins H init Inv_init) as Hs. fold s in Hs, Hb.
  assert (Hx : Forall (fun i => adc (in_x i)) ins).
  { clear - H. induction H as [|i ins Hi _ IH]; constructor; [|exact IH].
    apply Hi. }
  pose proof (canonical_exec ins Hx init canonical_init) as Hc. fold s in Hc.
  subst s' M sum. clearbody s.
  destruct Hs as (Hf & Hg & Ht & Hd & Htilt & Fint & Wint).
  destruct Hi as (Ig & Ix & Iy & _).
  destruct (filterx_ok (filt s) (x_gs_of (in_x inp)) Hf
              (filter_input_fin _ Ix)) as [Hf' Ey].
  assert (Fxf : fin (-19) (snd (filterx (filt s) (x_gs_of (in_x inp))))).
  { rewrite Ey. apply Hf'. }
  pose proof (d_tilt_fin _ _ Hg Ig) as Fd.
  destruct (canonical_step s inp Hc Ix) as ((_ & _ & _ & _ & CT' & _) & _).
  destruct Hc as (_ & _ & _ & _ & _ & CI).
  destruct (branch_cases s inp) as [[C _]|[(C & _)|(_ & Hfa & Hrc)]];
    try congruence.
  destruct (control_balancing s inp Hfa Hrc) as (_ & _ & Et & Ei).
  cbn [acquire d_tilt_rads x_filt] in Et, Ei.
  destruct (balancing_fin (tilt_rads s) (tilt_int_rads s)
              (d_tilt_rads_of (gyro_offset_pot s) (in_gyro inp))
              (snd (filterx (filt s) (x_gs_of (in_x inp))))
              (tilt_pot s) (d_tilt_pot s))
    as ((Ft' & Bt') & _ & _); try assumption.
  rewrite ISR_tilt_rads, ISR_tilt_int_rads in *.
  rewrite Ei, Et. rewrite Et in CT'.
  set (t' := (tilt_rads s +
              (d_tilt_rads_of (gyro_offset_pot s) (in_gyro inp) +
               snd (filterx (filt s) (x_gs_of (in_x inp)))))%f32) in *.
  clearbody t'.
  pose proof (fin_bound _ _ Fint) as Bi.
  destruct (add_R (tilt_int_rads s) t' _ _ 35 Fint Ft') as [Fs Es].
  { pose proof (Rabs_le_interval _ _ Bt') as It.
    apply Rabs_def1; bpow_num; lra. }
  { lia. }
  exists (B2R (tilt_int_rads s + t')%f32).
  split; [|exact Es].
  apply (clamp_R _ _ (add_canonical _ _ CI CT') Fs). lia.
Qed.

Lemma X21_witness :
  exists sigma : R,
    B2R (tilt_int_rads (fst (ISR (exec init [level_in]) tipped_in))) =
      Rmax (- B2R MAX_TILT_INT) (Rmin (B2R MAX_TILT_INT) sigma) /\
    (Rabs (sigma -
           (B2R (tilt_int_rads (exec init [level_in])) +
            B2R (tilt_rads (fst (ISR (exec init [level_in]) tipped_in)))))
     <= bpow (-23) *
        Rabs (B2R (tilt_int_rads (exec init [level_in])) +
              B2R (tilt_rads (fst (ISR (exec init [level_in]) tipped_in))))
        + bpow (-149))%R.
Proof.
  apply (X21_integral_clamp_in_reals [level_in] tipped_in).
  - repeat constructor; unfold adc, ADC_RANGE; cbn; lia.
  - repeat constructor; unfold adc, ADC_RANGE; cbn; lia.
  - vm_compute; reflexivity.
Defined.
